(** * edx-platform fragment: discussion utilities, SAML backend, video pipeline

    A shallow embedding of
      - lms/djangoapps/django_comment_client/utils.py
      - common/djangoapps/third_party_auth/saml.py
      - openedx/core/djangoapps/video_pipeline (api, as exercised by tests/test_api.py)
    Python dictionaries are finite maps ([gmap]), exceptions are values of an
    error type, module-level globals and loggers are explicit state. *)

From Stdlib Require Import String Ascii ZArith NArith List Sorted Permutation Lia.
From stdpp Require Import base option list gmap strings fin_maps pretty.

#[local] Open Scope string_scope.
#[local] Set Warnings "-register-all".

(** ** Python runtime notions shared by the three files *)
Module Py.

(** JSON data as Python sees it after decoding: [None], numbers, strings
    and dictionaries with string keys. *)
Inductive jval :=
| JNull
| JNum (z : Z)
| JStr (s : string)
| JDict (d : gmap string jval).

(** A [requests.Response]: [json_body] is [None] when [.json()] cannot
    decode the body (it then raises ValueError). *)
Record Response := mkResponse {
  status_code : Z;
  reason : string;
  url : string;
  text : string;
  json_body : option (gmap string jval) }.

(** [requests.RequestException]: [exc_response] is the [response]
    attribute, [None] for transport errors that carry no response. *)
Record RequestError := mkRequestError {
  exc_message : string;
  exc_response : option Response }.

Inductive exn :=
| KeyError (key : string)
| IndexError
| TypeError
| AttributeError (attr : string)
| ValueError
| RequestException (err : RequestError)
| HttpClientError (content : string)
| ObjectDoesNotExist.

Inductive result (A : Type) :=
| Ok (a : A)
| Raise (e : exn).
Arguments Ok {A} a.
Arguments Raise {A} e.

#[export] Instance result_ret : MRet result := @Ok.
#[export] Instance result_bind : MBind result := λ A B k r,
  match r with
  | Ok a => k a
  | Raise e => Raise e
  end.

#[export] Instance result_fmap : FMap result := λ A B f r,
  match r with
  | Ok a => Ok (f a)
  | Raise e => Raise e
  end.

(** A [for] loop whose body may raise, threading the loop state. *)
Fixpoint for_each {A S} (body : S → A → result S) (s : S) (l : list A) : result S :=
  match l with
  | [] => Ok s
  | x :: l' => s' ← body s x; for_each body s' l'
  end.

(** The first exception met when the values of a dict are computed one
    after the other, and the dict of results when there is none. *)
Fixpoint first_error {K A} (l : list (K * result A)) : option exn :=
  match l with
  | [] => None
  | (_, Raise e) :: _ => Some e
  | (_, Ok _) :: l' => first_error l'
  end.

Definition result_value {A} (r : result A) : option A :=
  match r with
  | Ok a => Some a
  | Raise _ => None
  end.

Definition collect {A} (m : gmap string (result A)) : result (gmap string A) :=
  match first_error (map_to_list m) with
  | Some e => Raise e
  | None => Ok (omap result_value m)
  end.

(** [d[k]] on a dict: KeyError when the key is absent. *)
Definition getitem {V} (d : gmap string V) (k : string) : result V :=
  match d !! k with
  | Some v => Ok v
  | None => Raise (KeyError k)
  end.

(** [d.get(k, dflt)]. *)
Definition get {V} (d : gmap string V) (k : string) (dflt : V) : V :=
  default dflt (d !! k).

(** *** Strings: [str.strip], [str.split] on a one-character separator,
    [str.join] *)
Definition is_space (c : ascii) : bool :=
  match c with
  | " "%char | "009"%char | "010"%char | "011"%char | "012"%char | "013"%char => true
  | _ => false
  end.

Fixpoint lstrip (s : string) : string :=
  match s with
  | String c s' => if is_space c then lstrip s' else s
  | EmptyString => EmptyString
  end.

Fixpoint rstrip (s : string) : string :=
  match s with
  | EmptyString => EmptyString
  | String c s' =>
      match rstrip s' with
      | EmptyString => if is_space c then EmptyString else String c EmptyString
      | r => String c r
      end
  end.

Definition strip (s : string) : string := rstrip (lstrip s).

Fixpoint split (sep : ascii) (s : string) : list string :=
  match s with
  | EmptyString => [EmptyString]
  | String c s' =>
      if Ascii.eqb c sep then EmptyString :: split sep s'
      else match split sep s' with
           | h :: t => String c h :: t
           | [] => [String c EmptyString]
           end
  end.

Fixpoint join (sep : string) (l : list string) : string :=
  match l with
  | [] => EmptyString
  | [x] => x
  | x :: l' => x ++ sep ++ join sep l'
  end.

(** [needle in haystack] on two strings. *)
Fixpoint contains (needle haystack : string) : bool :=
  String.prefix needle haystack ||
  match haystack with
  | EmptyString => false
  | String _ rest => contains needle rest
  end.

(** *** [sorted(l, key=...)] with string keys: a stable sort, here by
    insertion; strings compare byte by byte as Python 2 [str] does. *)
Fixpoint insert_sorted {A} (key : A → string) (x : A) (l : list A) : list A :=
  match l with
  | [] => [x]
  | y :: l' =>
      if String.leb (key x) (key y) then x :: l
      else y :: insert_sorted key x l'
  end.

Definition sorted {A} (key : A → string) (l : list A) : list A :=
  foldr (insert_sorted key) [] l.

(** *** Logging: the calls made on a module-level [log] object. *)
(** The line feed, ['\n'] in a Python string. *)
Definition line_feed : string := String "010"%char EmptyString.

Inductive log_level := INFO | WARNING | ERROR | EXCEPTION.

Inductive log_arg :=
| ArgStr (s : string)
| ArgStrs (l : list string)
| ArgJson (j : gmap string jval).

Record log_record := LogRecord {
  log_lvl : log_level;
  log_msg : string;
  log_args : list log_arg }.

End Py.
Export Py.

(** ** lms/djangoapps/django_comment_client/utils.py *)
Module Utils.

(** *** Data *)

(** [xmodule.modulestore.Location]; only [category] is read here. *)
Record Location := mkLocation {
  loc_org : string;
  loc_course : string;
  loc_category : string;
  loc_name : string }.

(** A module descriptor, of which the code reads the [metadata] dict. *)
Record XModule := mkXModule {
  metadata : gmap string string }.

Record Course := mkCourse {
  course_id : string }.

(** The values of [discussion_id_map]: [{"location": ..., "title": ...}]. *)
Record id_map_entry := IdMapEntry {
  im_location : Location;
  im_title : string }.

(** The items appended to [unexpanded_category_map[category]]:
    [{"title": ..., "id": ..., "sort_key": ...}]. *)
Record unexpanded_entry := UnexpandedEntry {
  ue_title : string;
  ue_id : string;
  ue_sort_key : string }.

(** The values of a node's ["entries"], dicts read at ["id"] and
    ["sort_key"]: a key that the dict lacks is [None]. *)
Record entry := mkEntry {
  entry_id : option string;
  entry_sort_key : option string }.

(** [{"id": id, "sort_key": sort_key}], as [initialize_discussion_info]
    writes it. *)
Definition Entry (id sort_key : string) : entry := mkEntry (Some id) (Some sort_key).

(** A node of the category map. The root is created without ["sort_key"],
    and no node has ["children"] before [sort_map_entries] has run. *)
Inductive category := Category {
  cat_sort_key : option string;
  cat_entries : gmap string entry;
  cat_subcategories : gmap string category;
  cat_children : option (list string) }.

Record DiscussionInfo := mkDiscussionInfo {
  id_map : gmap string id_map_entry;
  category_map : category }.

(** What [modulestore().modules] holds: for each course id the dict from
    locations to modules, given by its items in iteration order. *)
Abbreviation modules := (gmap string (list (Location * XModule))).

(** The module-level globals. *)
Record Globals := mkGlobals {
  _FULLMODULES : option modules;
  _DISCUSSIONINFO : option DiscussionInfo }.

(** Values found in a content dict of the comments service. *)
Inductive pyval :=
| PNone
| PBool (b : bool)
| PInt (z : Z)
| PStr (s : string)
| PList (l : list pyval).

(** *** Small helpers *)

Definition extract (dic : gmap string pyval) (keys : list string) : gmap string pyval :=
  foldl (λ acc k, <[k := get dic k PNone]> acc) ∅ keys.

Definition is_none (v : pyval) : bool :=
  match v with
  | PNone => true
  | _ => false
  end.

Definition strip_none (dic : gmap string pyval) : gmap string pyval :=
  filter (λ kv, is_none kv.2 = false) dic.

(** *** [sort_map_entries] *)

(** [x[1]["sort_key"]], for the ["sort_key"] of an entry or of a category. *)
Definition sort_key_of (sort_key : option string) : result string :=
  match sort_key with
  | Some k => Ok k
  | None => Raise (KeyError "sort_key")
  end.

(** The pairs [(title, x)] of a dict of entries or of subcategories, each
    with the key that [sorted] reads of it, in the order of [things]. *)
Definition things_of {A} (sort_key : A → option string) (d : gmap string A)
    : result (list (string * string)) :=
  mapM (M := result) (λ ta, k ← sort_key_of (sort_key ta.2); Ok (ta.1, k)) (map_to_list d).

Definition entry_things (entries : gmap string entry) : result (list (string * string)) :=
  things_of entry_sort_key entries.

Definition category_things (subcategories : gmap string category)
    : result (list (string * string)) :=
  things_of cat_sort_key subcategories.

(** The recursive calls are made while the subcategories are listed; the
    keys are read afterwards, by [sorted], first those of the entries, then
    those of the subcategories. The order in which a dict yields its items
    is not specified in Python 2; [map_to_list] stands for it, and what is
    proved below of ["children"] holds up to that order. *)
Fixpoint sort_map_entries (category_map : category) : result category :=
  subcategories ← collect (sort_map_entries <$> cat_subcategories category_map);
  entries ← entry_things (cat_entries category_map);
  things ← category_things (cat_subcategories category_map);
  let things := (entries ++ things)%list in
  Ok (Category (cat_sort_key category_map)
               (cat_entries category_map)
               subcategories
               (Some ((λ x, x.1) <$> sorted (λ x, x.2) things))).

(** *** [initialize_discussion_info] *)

(** [unexpanded_category_map[category].append(item)] on a [defaultdict(list)]. *)
Definition defaultdict_append {A} (d : gmap string (list A)) (k : string) (x : A)
    : gmap string (list A) :=
  <[k := (get d k [] ++ [x])%list]> d.

(** The body of the loop over [all_modules.items()]. *)
Definition collect_module (acc : gmap string id_map_entry * gmap string (list unexpanded_entry))
    (item : Location * XModule)
    : result (gmap string id_map_entry * gmap string (list unexpanded_entry)) :=
  let '(discussion_id_map, unexpanded_category_map) := acc in
  let '(location, module) := item in
  if String.eqb (loc_category location) "discussion" then
    id ← getitem (metadata module) "id";
    category ← getitem (metadata module) "discussion_category";
    title ← getitem (metadata module) "for";
    let sort_key := get (metadata module) "sort_key" title in
    let discussion_id_map := <[id := IdMapEntry location title]> discussion_id_map in
    let category := join " / " (strip <$> split "/" category) in
    Ok (discussion_id_map,
        defaultdict_append unexpanded_category_map category
          (UnexpandedEntry title id sort_key))
  else Ok acc.

Definition new_category (level : string) : category :=
  Category (Some level) ∅ ∅ None.

Definition set_subcategories (c : category) (subcategories : gmap string category) : category :=
  Category (cat_sort_key c) (cat_entries c) subcategories (cat_children c).

(** [node[level]["entries"][entry["title"]] = {"id": ..., "sort_key": ...}] *)
Definition set_entry (c : category) (e : unexpanded_entry) : category :=
  Category (cat_sort_key c)
           (<[ue_title e := Entry (ue_id e) (ue_sort_key e)]> (cat_entries c))
           (cat_subcategories c) (cat_children c).

(** The walk down [path[:-1]] and the update at [path[-1]]. [node] is the
    dict of subcategories the walk stands at; a level that is missing is
    created, and the update made below it is written back into it. *)
Fixpoint place_entries (node : gmap string category) (levels : list string)
    (level : string) (entries : list unexpanded_entry) : gmap string category :=
  match levels with
  | [] =>
      let c := default (new_category level) (node !! level) in
      <[level := foldl set_entry c entries]> node
  | l :: levels' =>
      let c := default (new_category l) (node !! l) in
      <[l := set_subcategories c
               (place_entries (cat_subcategories c) levels' level entries)]> node
  end.

(** [path[-1]]: IndexError on the empty list. *)
Definition last_item {A} (l : list A) : result A :=
  match last l with
  | Some x => Ok x
  | None => Raise IndexError
  end.

(** The body of the loop over [unexpanded_category_map.items()]. *)
Definition expand_category (subcategories : gmap string category)
    (item : string * list unexpanded_entry) : result (gmap string category) :=
  let '(category_path, entries) := item in
  let path := strip <$> split "/" category_path in
  level ← last_item path;
  Ok (place_entries subcategories (removelast path) level entries).

(** Lines 91 to 130: what is computed from [all_modules], given by its
    items in iteration order, and stored in [_DISCUSSIONINFO]. The local
    [url_course_id] is computed and never read. *)
Definition build_discussion_info (all_modules : list (Location * XModule))
    : result DiscussionInfo :=
  '(discussion_id_map, unexpanded_category_map) ← for_each collect_module (∅, ∅) all_modules;
  subcategories ← for_each expand_category ∅ (map_to_list unexpanded_category_map);
  category_map ← sort_map_entries (Category None ∅ subcategories None);
  Ok (mkDiscussionInfo discussion_id_map category_map).

(** [modulestore().modules] is the [store] argument. [if not _FULLMODULES]
    holds for [None] and for the empty dict. *)
Definition get_full_modules (store : modules) (g : Globals) : modules * Globals :=
  match _FULLMODULES g with
  | Some d =>
      if bool_decide (d = ∅) then (store, mkGlobals (Some store) (_DISCUSSIONINFO g))
      else (d, g)
  | None => (store, mkGlobals (Some store) (_DISCUSSIONINFO g))
  end.

(** [_DISCUSSIONINFO] is [None] or the two-key dict, which is true. *)
Definition initialize_discussion_info (store : modules) (course : Course) (g : Globals)
    : result unit * Globals :=
  match _DISCUSSIONINFO g with
  | Some _ => (Ok (), g)
  | None =>
      let '(full_modules, g) := get_full_modules store g in
      match getitem full_modules (course_id course) with
      | Raise e => (Raise e, g)
      | Ok all_modules =>
          match build_discussion_info all_modules with
          | Raise e => (Raise e, g)
          | Ok info => (Ok (), mkGlobals (_FULLMODULES g) (Some info))
          end
      end
  end.

(** The common prologue of the three accessors, then [_DISCUSSIONINFO[...]]. *)
Definition with_discussion_info {A} (store : modules) (course : Course)
    (read : DiscussionInfo → A) (g : Globals) : result A * Globals :=
  let '(r, g) :=
    match _DISCUSSIONINFO g with
    | Some _ => (Ok (), g)
    | None => initialize_discussion_info store course g
    end in
  match r with
  | Raise e => (Raise e, g)
  | Ok _ =>
      match _DISCUSSIONINFO g with
      | Some info => (Ok (read info), g)
      | None => (Raise TypeError, g)
      end
  end.

Definition get_discussion_id_map (store : modules) (course : Course) (g : Globals)
    : result (gmap string id_map_entry) * Globals :=
  with_discussion_info store course id_map g.

Definition get_discussion_title {Request} (store : modules) (request : Request)
    (course : Course) (discussion_id : string) (g : Globals) : result string * Globals :=
  with_discussion_info store course
    (λ info, default "(no title)" (im_title <$> id_map info !! discussion_id)) g.

Definition get_discussion_category_map (store : modules) (course : Course) (g : Globals)
    : result category * Globals :=
  with_discussion_info store course category_map g.

(** *** [get_ability] and [safe_content] *)

Section Permissions.
Context {User : Type}.
(** [django_comment_client.permissions.check_permissions_by_view] *)
Variable check_permissions_by_view :
  User → string → gmap string pyval → string → bool.

Definition is_type (v : pyval) (name : string) : bool :=
  match v with
  | PStr s => String.eqb s name
  | _ => false
  end.

Definition get_ability (course_id : string) (content : gmap string pyval) (user : User)
    : result (gmap string bool) :=
  type ← getitem content "type";
  let check := check_permissions_by_view user course_id content in
  let editable := check (if is_type type "thread" then "update_thread" else "update_comment") in
  let can_reply := check (if is_type type "thread" then "create_comment" else "create_sub_comment") in
  let can_endorse := if is_type type "comment" then check "endorse_comment" else false in
  let can_delete := check (if is_type type "thread" then "delete_thread" else "delete_comment") in
  let can_openclose := if is_type type "thread" then check "openclose_thread" else false in
  let can_vote := check (if is_type type "thread" then "vote_for_thread" else "vote_for_comment") in
  Ok (<["can_vote" := can_vote]> (<["can_openclose" := can_openclose]>
     (<["can_delete" := can_delete]> (<["can_endorse" := can_endorse]>
     (<["can_reply" := can_reply]> (<["editable" := editable]> ∅)))))).

End Permissions.

Definition safe_content_fields : list string :=
  [ "id"; "title"; "body"; "course_id"; "anonymous"; "endorsed";
    "parent_id"; "thread_id"; "votes"; "closed";
    "created_at"; "updated_at"; "depth"; "type";
    "commentable_id"; "comments_count"; "at_position_list";
    "children"; "highlighted_title"; "highlighted_body";
    "marked_title"; "marked_body" ].

(** [content.get('anonymous') is False] *)
Definition anonymous_is_False (content : gmap string pyval) : bool :=
  match content !! "anonymous" with
  | Some (PBool false) => true
  | _ => false
  end.

Definition safe_content (content : gmap string pyval) : gmap string pyval :=
  let fields := safe_content_fields in
  let fields :=
    if anonymous_is_False content then (fields ++ ["username"; "user_id"])%list else fields in
  strip_none (extract content fields).

End Utils.

(** ** common/djangoapps/third_party_auth/saml.py *)
Module Saml.

(** *** [SAMLAuthBackend._create_saml_auth] *)

(** The part of [SAMLProviderConfig] that is read here. *)
Record SAMLProviderConfig := mkSAMLProviderConfig {
  debug_mode : bool }.

Record SAMLIdentityProvider := mkIdp {
  idp_name : string }.

(** A [OneLogin_Saml2_Auth] instance as its attribute slots: the two
    handlers act on the state [St] of the instance and on the log, the two
    getters read the state. *)
Record OneLogin_Saml2_Auth (St LoginArgs LoginRes RespArgs RespRes : Type) := mkAuth {
  login : LoginArgs → St * list log_record → result LoginRes * (St * list log_record);
  process_response : RespArgs → St * list log_record → result RespRes * (St * list log_record);
  get_last_request_xml : St → string;
  get_last_response_xml : St → string }.
Arguments mkAuth {St LoginArgs LoginRes RespArgs RespRes}.
Arguments login {St LoginArgs LoginRes RespArgs RespRes}.
Arguments process_response {St LoginArgs LoginRes RespArgs RespRes}.
Arguments get_last_request_xml {St LoginArgs LoginRes RespArgs RespRes}.
Arguments get_last_response_xml {St LoginArgs LoginRes RespArgs RespRes}.

Section CreateSamlAuth.
Context {St LoginArgs LoginRes RespArgs RespRes : Type}.
(** [super(SAMLAuthBackend, self)._create_saml_auth] *)
Variable super_create_saml_auth :
  SAMLIdentityProvider → OneLogin_Saml2_Auth St LoginArgs LoginRes RespArgs RespRes.
(** [SAMLProviderConfig.current] *)
Variable current : string → SAMLProviderConfig.

(** [wrapped_method] inside [wrap_with_logging]: [method] is the attribute
    read before it is replaced. *)
Definition wrapped_method {Args Res} (idp : SAMLIdentityProvider)
    (method : Args → St * list log_record → result Res * (St * list log_record))
    (action_description : string) (xml_getter : St → string)
    (args : Args) (w : St * list log_record) : result Res * (St * list log_record) :=
  match method args w with
  | (Raise e, w') => (Raise e, w')
  | (Ok result, (st, log)) =>
      (Ok result,
       (st, (log ++ [LogRecord INFO
                      ("SAML login %s for IdP %s. XML is:" ++ line_feed ++ "%s")
                      [ArgStr action_description; ArgStr (idp_name idp);
                       ArgStr (xml_getter st)]])%list))
  end.

Definition _create_saml_auth (idp : SAMLIdentityProvider)
    : OneLogin_Saml2_Auth St LoginArgs LoginRes RespArgs RespRes :=
  let auth_inst := super_create_saml_auth idp in
  if debug_mode (current (idp_name idp)) then
    let auth_inst :=
      mkAuth (wrapped_method idp (login auth_inst) "request" (get_last_request_xml auth_inst))
             (process_response auth_inst)
             (get_last_request_xml auth_inst) (get_last_response_xml auth_inst) in
    mkAuth (login auth_inst)
           (wrapped_method idp (process_response auth_inst) "response"
              (get_last_response_xml auth_inst))
           (get_last_request_xml auth_inst) (get_last_response_xml auth_inst)
  else auth_inst.

End CreateSamlAuth.

(** *** Identity providers *)

(** One item of [conf['extra_field_definitions']]. *)
Record ExtraField := mkExtraField {
  field_name : string;
  field_urn : string }.

(** [self.conf], by the type of its values: the string-valued settings
    (the five required variables among them) and the structured ones. *)
Record Conf := mkConf {
  settings : gmap string string;
  extra_field_definitions : option (list ExtraField);
  sapsf_field_mappings : option (gmap string string);
  sapsf_value_mappings : option (gmap string (gmap string jval));
  odata_api_request_timeout : option Z }.

(** What [social_core]'s [SAMLIdentityProvider.get_user_details] returns:
    a dict with these five keys. *)
Record SamlDetails := mkSamlDetails {
  sd_fullname : option string;
  sd_first_name : option string;
  sd_last_name : option string;
  sd_username : option string;
  sd_email : option string }.

Definition details_dict (d : SamlDetails) : gmap string (option string) :=
  <["email" := sd_email d]> (<["username" := sd_username d]>
  (<["last_name" := sd_last_name d]> (<["first_name" := sd_first_name d]>
  (<["fullname" := sd_fullname d]> ∅)))).

(** A requests session after [headers.update]: the Authorization header is
    ['Bearer ' + token], the Accept header is fixed. *)
Record Session := mkSession {
  bearer_token : jval }.

Definition required_variables : list string :=
  [ "sapsf_oauth_root_url"; "sapsf_private_key"; "odata_api_root_url";
    "odata_company_id"; "odata_client_id" ].

Definition default_field_mapping : gmap string string :=
  <["city" := "city"]> (<["country" := "country"]> (<["email" := "email"]>
  (<["defaultFullName" := "fullname"]> (<["lastName" := "last_name"]>
  (<["firstName" := "first_name"]> (<["username" := "username"]> ∅)))))).

Section Providers.
(** [social_core.backends.saml.SAMLIdentityProvider.get_user_details] *)
Variable SAMLIdentityProvider_get_user_details :
  Conf → gmap string (list string) → SamlDetails.
(** [django_countries.countries], as its [(code, name)] pairs. *)
Variable countries : list (string * string).
(** [session.post(url, data=..., timeout=...)] and
    [client.get(url, timeout=...)] *)
Variable session_post : string → list (string * option string) → Z → result Response.
Variable session_get : Session → string → Z → result Response.

Definition extra_field_value (attributes : gmap string (list string)) (field : ExtraField)
    : result (option string) :=
  match attributes !! field_urn field with
  | Some values =>
      match values with
      | v :: _ => Ok (Some v)
      | [] => Raise IndexError
      end
  | None => Ok None
  end.

(** [EdXSAMLIdentityProvider.get_user_details] *)
Definition EdXSAMLIdentityProvider_get_user_details (conf : Conf)
    (attributes : gmap string (list string)) : result (gmap string (option string)) :=
  let details := details_dict (SAMLIdentityProvider_get_user_details conf attributes) in
  let extra_field_definitions := default [] (extra_field_definitions conf) in
  extra ← for_each (λ acc field,
             v ← extra_field_value attributes field; Ok (<[field_name field := v]> acc))
           ∅ extra_field_definitions;
  Ok (extra ∪ details).

(** [{name: code for code, name in countries}] *)
Definition country_codes : gmap string jval :=
  foldl (λ acc cn, <[cn.2 := JStr cn.1]> acc) ∅ countries.

(** The class attribute after line 159: [update] is called on the outer
    dict, so ['United States'] becomes a second field, bound to a string. *)
Definition default_value_mapping : gmap string jval :=
  <["United States" := JStr "US"]> (<["country" := JDict country_codes]> ∅).

Definition field_mappings (conf : Conf) : gmap string string :=
  let overrides := default ∅ (sapsf_field_mappings conf) in
  let base := default_field_mapping in
  overrides ∪ base.

(** The body of the loop of [value_mappings]. *)
Definition apply_override (base : gmap string jval) (item : string * gmap string jval)
    : result (gmap string jval) :=
  let '(field, override) := item in
  match base !! field with
  | Some (JDict d) => Ok (<[field := JDict (override ∪ d)]> base)
  | Some _ => Raise (AttributeError "update")
  | None => v ← getitem override field; Ok (<[field := v]> base)
  end.

Definition value_mappings (conf : Conf) : result (gmap string jval) :=
  let overrides := default ∅ (sapsf_value_mappings conf) in
  let base := default_value_mapping in
  for_each apply_override base (map_to_list overrides).

(** [value in mapping] *)
Definition py_in (value mapping : jval) : result bool :=
  match mapping with
  | JDict m =>
      match value with
      | JStr v => Ok (bool_decide (is_Some (m !! v)))
      | JNull | JNum _ => Ok false
      | JDict _ => Raise TypeError
      end
  | JStr s =>
      match value with
      | JStr v => Ok (contains v s)
      | _ => Raise TypeError
      end
  | JNull | JNum _ => Raise TypeError
  end.

(** [mapping[value]] *)
Definition py_index (mapping value : jval) : result jval :=
  match mapping, value with
  | JDict m, JStr v => getitem m v
  | JDict m, JNull => Raise (KeyError "None")
  | JDict m, JNum z => Raise (KeyError (pretty z))
  | _, _ => Raise TypeError
  end.

(** One round of the loop of [get_registration_fields]: the value that
    [registration_fields[field]] holds after it. *)
Definition translate_value (value_mapping : gmap string jval) (field : string) (value : jval)
    : result jval :=
  match value_mapping !! field with
  | Some mapping =>
      found ← py_in value mapping;
      if (found : bool) then py_index mapping value else Ok value
  | None => Ok value
  end.

(** [response['d'].get] *)
Definition response_d (response : gmap string jval) : result (gmap string jval) :=
  d ← getitem response "d";
  match d with
  | JDict d => Ok d
  | _ => Raise (AttributeError "get")
  end.

Definition get_registration_fields (conf : Conf) (response : gmap string jval)
    : result (gmap string jval) :=
  let field_mapping := field_mappings conf in
  d ← response_d response;
  let registration_fields :=
    foldl (λ acc names, <[names.2 := get d names.1 (JStr "")]> acc)
          ∅ (map_to_list field_mapping) in
  value_mapping ← value_mappings conf;
  collect (map_imap (λ field value, Some (translate_value value_mapping field value))
                    registration_fields).

Definition timeout (conf : Conf) : Z :=
  default 10%Z (odata_api_request_timeout conf).

Definition sapsf_idp_url (conf : Conf) : result string :=
  root ← getitem (settings conf) "sapsf_oauth_root_url"; Ok (root ++ "idp").

Definition sapsf_token_url (conf : Conf) : result string :=
  root ← getitem (settings conf) "sapsf_oauth_root_url"; Ok (root ++ "token").

Definition sapsf_private_key (conf : Conf) : result string :=
  getitem (settings conf) "sapsf_private_key".

Definition odata_api_root_url (conf : Conf) : result string :=
  getitem (settings conf) "odata_api_root_url".

Definition odata_company_id (conf : Conf) : result string :=
  getitem (settings conf) "odata_company_id".

Definition odata_client_id (conf : Conf) : result string :=
  getitem (settings conf) "odata_client_id".

Definition in_conf (conf : Conf) (var : string) : bool :=
  bool_decide (is_Some (settings conf !! var)).

(** Returns the list of missing variables, or [None] when there is none. *)
Definition missing_variables (conf : Conf) (log : list log_record)
    : option (list string) * list log_record :=
  if negb (forallb (in_conf conf) required_variables) then
    let missing := List.filter (λ var, negb (in_conf conf var)) required_variables in
    (Some missing,
     (log ++ [LogRecord WARNING
       "To retrieve rich user data for an SAP SuccessFactors identity provider, the following keys in 'other_settings' are required, but were missing: %s"
       [ArgStrs missing]])%list)
  else (None, log).

(** [response.raise_for_status()] *)
Definition is_error_status (r : Response) : bool :=
  ((400 <=? status_code r) && (status_code r <? 600))%Z.

(** The message of the HTTPError that [requests] raises for a status from
    400 to 599: ['%s Client Error: %s for url: %s'] below 500,
    ['%s Server Error: %s for url: %s'] from 500 on, of the status code, the
    reason and the URL of the response. *)
Definition http_error_msg (r : Response) : string :=
  pretty (status_code r)
  ++ (if (status_code r <? 500)%Z then " Client Error: " else " Server Error: ")
  ++ reason r ++ " for url: " ++ url r.

Definition raise_for_status (r : Response) : result unit :=
  if is_error_status r
  then Raise (RequestException (mkRequestError (http_error_msg r) (Some r)))
  else Ok ().

(** [response.json()] *)
Definition json (r : Response) : result (gmap string jval) :=
  match json_body r with
  | Some j => Ok j
  | None => Raise ValueError
  end.

(** [bool(response)] is [response.ok]. *)
Definition response_truthy (r : Response) : bool := negb (is_error_status r).

Definition get_odata_api_client (conf : Conf) (user_id : option string) : result Session :=
  idp_url ← sapsf_idp_url conf;
  client_id ← odata_client_id conf;
  token_url ← sapsf_token_url conf;
  private_key ← sapsf_private_key conf;
  assertion ← session_post idp_url
    [("client_id", Some client_id); ("user_id", user_id);
     ("token_url", Some token_url); ("private_key", Some private_key)]
    (timeout conf);
  _ ← raise_for_status assertion;
  let assertion := text assertion in
  token_url ← sapsf_token_url conf;
  client_id ← odata_client_id conf;
  company_id ← odata_company_id conf;
  token ← session_post token_url
    [("client_id", Some client_id); ("company_id", Some company_id);
     ("grant_type", Some "urn:ietf:params:oauth:grant-type:saml2-bearer");
     ("assertion", Some assertion)]
    (timeout conf);
  _ ← raise_for_status token;
  token ← json token;
  token ← getitem token "access_token";
  Ok (mkSession token).

(** The body of the [try] statement of [get_user_details]. *)
Definition odata_exchange (conf : Conf) (username : option string) (odata_api_url : string)
    : result (gmap string jval) :=
  client ← get_odata_api_client conf username;
  response ← session_get client odata_api_url (timeout conf);
  _ ← raise_for_status response;
  json response.

(** [str(value)] of a string or [None]. *)
Definition format_value (v : option string) : string :=
  default "None" v.

Definition jval_of_detail (v : option string) : jval :=
  match v with
  | Some s => JStr s
  | None => JNull
  end.

(** [err.response.json() if err.response else "Not available"] *)
Definition system_message (err : RequestError) : result log_arg :=
  match exc_response err with
  | Some r =>
      if response_truthy r then j ← json r; Ok (ArgJson j)
      else Ok (ArgStr "Not available")
  | None => Ok (ArgStr "Not available")
  end.

Definition dquote : string := String (ascii_of_nat 34) EmptyString.

(** The [except requests.RequestException] handler, up to the log call. *)
Definition log_request_error (conf : Conf) (username : option string)
    (odata_api_url : string) (err : RequestError) : result log_record :=
  sys_msg ← system_message err;
  company ← odata_company_id conf;
  Ok (LogRecord WARNING
        ("Unable to retrieve user details with username {username} from SAPSuccessFactors for company ID {company} with url "
         ++ dquote ++ "{url}" ++ dquote
         ++ ".  Error message: {err_msg}.  System message: {sys_msg}.")
        [ArgStr (format_value username); ArgStr company; ArgStr odata_api_url;
         ArgStr (exc_message err); sys_msg]).

(** [SapSuccessFactorsIdentityProvider.get_user_details]. The details taken
    from the SAML assertion are strings or [None]; they are returned as
    JSON values, as the registration fields are. *)
Definition get_user_details (conf : Conf) (attributes : gmap string (list string))
    (log : list log_record) : result (gmap string jval) * list log_record :=
  match EdXSAMLIdentityProvider_get_user_details conf attributes with
  | Raise e => (Raise e, log)
  | Ok details =>
      match missing_variables conf log with
      | (Some (_ :: _), log) => (Ok (jval_of_detail <$> details), log)
      | (_, log) =>
          match
            username ← getitem details "username";
            let fields := join "," ((map_to_list (field_mappings conf)).*1) in
            root_url ← odata_api_root_url conf;
            Ok (username,
                root_url ++ "User(userId='" ++ format_value username
                         ++ "')?$select=" ++ fields)
          with
          | Raise e => (Raise e, log)
          | Ok (username, odata_api_url) =>
              match odata_exchange conf username odata_api_url with
              | Ok response => (get_registration_fields conf response, log)
              | Raise (RequestException err) =>
                  match log_request_error conf username odata_api_url err with
                  | Raise e => (Raise e, log)
                  | Ok record => (Ok (jval_of_detail <$> details), (log ++ [record])%list)
                  end
              | Raise e => (Raise e, log)
              end
          end
      end
  end.

End Providers.

End Saml.

(** ** openedx/core/djangoapps/video_pipeline *)
Module VideoPipeline.

(** The [VideoPipelineIntegration] configuration that the tests create and
    modify. *)
Record VideoPipelineIntegration := mkIntegration {
  enabled : bool;
  service_username : string;
  api_url : string }.

(** What a call leaves behind for the tests to inspect: the payloads given
    to [transcript_credentials.post] and the calls made on [log]. *)
Record Trace := mkTrace {
  posted : list (gmap string string);
  logged : list log_record }.

Section Api.
(** The registered user names. *)
Variable users : gset string.
(** [client.api.transcript_credentials.post], the mocked endpoint. *)
Variable post : gmap string string → result unit.

(** [pipeline_integration.get_service_user()] *)
Definition get_service_user (integration : VideoPipelineIntegration) : result string :=
  if bool_decide (service_username integration ∈ users)
  then Ok (service_username integration)
  else Raise ObjectDoesNotExist.

(** Modelled from the spec: [update_3rd_party_transcription_service_credentials]
    of video_pipeline/api.py is not among the sources; only its tests are.
    It answers [False] when the integration is disabled or its service user
    is not registered; otherwise it posts the credentials payload to the
    transcript_credentials endpoint, answers [True] when the request
    succeeds, and on HttpClientError logs the error content with
    [log.exception] and answers [False]. Other exceptions are not caught. *)
Definition update_3rd_party_transcription_service_credentials
    (integration : VideoPipelineIntegration) (credentials_payload : gmap string string)
    : result bool * Trace :=
  if enabled integration then
    match get_service_user integration with
    | Raise ObjectDoesNotExist => (Ok false, mkTrace [] [])
    | Raise e => (Raise e, mkTrace [] [])
    | Ok _ =>
        match post credentials_payload with
        | Ok _ => (Ok true, mkTrace [credentials_payload] [])
        | Raise (HttpClientError content) =>
            (Ok false,
             mkTrace [credentials_payload]
               [LogRecord EXCEPTION
                  "[video-pipeline-service] Unable to update transcript credentials -- response -- %s"
                  [ArgStr content]])
        | Raise e => (Raise e, mkTrace [credentials_payload] [])
        end
    end
  else (Ok false, mkTrace [] []).

End Api.

End VideoPipeline.

(** ** utils.py: the helpers for content dicts and the annotation of threads *)
Module UtilsContent.
Import Utils.

(** [_is_blank] inside [strip_blank] *)
Definition _is_blank (v : pyval) : bool :=
  match v with
  | PStr s => String.eqb (strip s) ""
  | _ => false
  end.

Definition strip_blank (dic : gmap string pyval) : gmap string pyval :=
  filter (λ kv, _is_blank kv.2 = false) dic.

(** [dict(dic1.items() + dic2.items())]: the pairs are taken in this order,
    a later one replacing an earlier one with the same key. *)
Definition merge_dict {V} (dic1 dic2 : gmap string V) : gmap string V :=
  foldl (λ acc kv, <[kv.1 := kv.2]> acc) ∅ (map_to_list dic1 ++ map_to_list dic2)%list.

(** The truth value of a Python value, as [or] reads it. *)
Definition truthy (v : pyval) : bool :=
  match v with
  | PNone => false
  | PBool b => b
  | PInt z => negb (z =? 0)%Z
  | PStr s => negb (String.eqb s "")
  | PList l => match l with [] => false | _ => true end
  end.

(** [a or b] *)
Definition py_or (a b : pyval) : pyval := if truthy a then a else b.

(** The items of a list of [str]; TypeError when one is not a string. *)
Fixpoint str_items (l : list pyval) : result (list string) :=
  match l with
  | [] => Ok []
  | PStr s :: l' => items ← str_items l'; Ok (s :: items)
  | _ :: _ => Raise TypeError
  end.

(** The one-character strings that iterating over a [str] yields. *)
Fixpoint characters (s : string) : list string :=
  match s with
  | EmptyString => []
  | String c s' => String c EmptyString :: characters s'
  end.

(** [','.join(tags)] *)
Definition join_tags (tags : pyval) : result string :=
  match tags with
  | PList l => items ← str_items l; Ok (join "," items)
  | PStr s => Ok (join "," (characters s))
  | _ => Raise TypeError
  end.

(** [prefix + v] for a [str] prefix. *)
Definition concat_str (prefix : string) (v : pyval) : result string :=
  match v with
  | PStr s => Ok (prefix ++ s)
  | _ => Raise TypeError
  end.

Section Views.
Context {User : Type}.
(** [django.core.urlresolvers.reverse], given the view name and [args]. *)
Variable reverse : string → list pyval → string.
(** [Location.url()] *)
Variable location_url : Location → string.
(** [str(value)] *)
Variable py_str : pyval → string.

Definition permalink (content : gmap string pyval) : result string :=
  type ← getitem content "type";
  course_id ← getitem content "course_id";
  commentable_id ← getitem content "commentable_id";
  if is_type type "thread" then
    id ← getitem content "id";
    Ok (reverse "django_comment_client.forum.views.single_thread"
          [course_id; commentable_id; id])
  else
    thread_id ← getitem content "thread_id";
    let url := reverse "django_comment_client.forum.views.single_thread"
                 [course_id; commentable_id; thread_id] in
    id ← getitem content "id";
    concat_str (url ++ "#") id.

Definition extend_content (content : gmap string pyval) : result (gmap string pyval) :=
  let displayed_title :=
    py_or (get content "highlighted_title" PNone) (get content "title" (PStr "")) in
  let displayed_body :=
    py_or (get content "highlighted_body" PNone) (get content "body" (PStr "")) in
  raw_tags ← join_tags (get content "tags" (PList []));
  permalink ← permalink content;
  let content_info : gmap string pyval :=
    <["permalink" := PStr permalink]> (<["raw_tags" := PStr raw_tags]>
    (<["displayed_body" := displayed_body]> (<["displayed_title" := displayed_title]> ∅))) in
  Ok (merge_dict content content_info).

(** [user_info], whose three lists hold ids, which are strings. *)
Record UserInfo := mkUserInfo {
  upvoted_ids : list string;
  downvoted_ids : list string;
  subscribed_thread_ids : list string }.

(** [value in ids] *)
Definition id_in (value : pyval) (ids : list string) : bool :=
  match value with
  | PStr s => bool_decide (s ∈ ids)
  | _ => false
  end.

(** The dict that [get_annotated_content_info] returns. *)
Record AnnotatedInfo := mkAnnotatedInfo {
  voted : string;
  subscribed : bool;
  ability : gmap string bool }.

(** A content dict with its ['children']: [tc_fields] holds the other keys,
    [tc_children] is [None] when the dict has no ['children']. *)
Inductive thread_content := ThreadContent {
  tc_fields : gmap string pyval;
  tc_children : option (list thread_content) }.

(** [check_permissions_by_view] is given the whole content dict. *)
Variable check_permissions_by_view : User → string → thread_content → string → bool.

Definition get_annotated_content_info (course_id : string) (content : thread_content)
    (user : User) (user_info : UserInfo) : result AnnotatedInfo :=
  id ← getitem (tc_fields content) "id";
  let voted :=
    if id_in id (upvoted_ids user_info) then "up"
    else if id_in id (downvoted_ids user_info) then "down"
    else "" in
  let subscribed := id_in id (subscribed_thread_ids user_info) in
  ability ← get_ability (λ user course_id _ name,
                           check_permissions_by_view user course_id content name)
                        course_id (tc_fields content) user;
  Ok (mkAnnotatedInfo voted subscribed ability).

(** [annotate] inside [get_annotated_content_infos], with the dict [infos]
    that it fills passed along. *)
Fixpoint annotate (course_id : string) (user : User) (user_info : UserInfo)
    (content : thread_content) (infos : gmap string AnnotatedInfo) {struct content}
    : result (gmap string AnnotatedInfo) :=
  info ← get_annotated_content_info course_id content user user_info;
  id ← getitem (tc_fields content) "id";
  let infos := <[py_str id := info]> infos in
  match content with
  | ThreadContent _ None => Ok infos
  | ThreadContent _ (Some children) =>
      (fix annotate_children (children : list thread_content)
           (infos : gmap string AnnotatedInfo) : result (gmap string AnnotatedInfo) :=
         match children with
         | [] => Ok infos
         | child :: children' =>
             infos ← annotate course_id user user_info child infos;
             annotate_children children' infos
         end) children infos
  end.

Definition get_annotated_content_infos (course_id : string) (thread : thread_content)
    (user : User) (user_info : UserInfo) : result (gmap string AnnotatedInfo) :=
  annotate course_id user user_info thread ∅.

(** What [get_courseware_context] returns when it does not return [None]. *)
Record CoursewareContext := mkCoursewareContext {
  courseware_location : string;
  courseware_title : string }.

(** [id in id_map] and [id_map[id]] for a key that may be any value. *)
Definition lookup_id {V} (id_map : gmap string V) (id : pyval) : result (option V) :=
  match id with
  | PStr s => Ok (id_map !! s)
  | PList _ => Raise TypeError
  | _ => Ok None
  end.

Definition get_courseware_context (store : modules) (content : gmap string pyval)
    (course : Course) (g : Globals) : result (option CoursewareContext) * Globals :=
  match get_discussion_id_map store course g with
  | (Raise e, g) => (Raise e, g)
  | (Ok id_map, g) =>
      (id ← getitem content "commentable_id";
       match lookup_id id_map id with
       | Raise e => Raise e
       | Ok None => Ok None
       | Ok (Some e) =>
           Ok (Some (mkCoursewareContext (location_url (im_location e)) (im_title e)))
       end,
       g)
  end.

End Views.

End UtilsContent.

(** ** saml.py: the checks of the backend and the choice of a provider class *)
Module SamlBackend.
Import Saml.

(** What the backend raises to stop a login. *)
Inductive backend_exn :=
| AuthForbidden
| Http404.

(** The part of [idp] that [_check_entitlements] reads: its name and
    [idp.conf.get('requiredEntitlements')]. *)
Record Provider := mkProvider {
  provider_name : string;
  requiredEntitlements : option (list string) }.

Section Entitlements.
(** [social_core.backends.saml.OID_EDU_PERSON_ENTITLEMENT] *)
Variable OID_EDU_PERSON_ENTITLEMENT : string.

(** The loop over [idp.conf['requiredEntitlements']]. *)
Fixpoint check_each (idp : Provider) (entitlements : list string) (required : list string)
    (log : list log_record) : (backend_exn + unit) * list log_record :=
  match required with
  | [] => (inr (), log)
  | expected :: required' =>
      if bool_decide (expected ∈ entitlements) then check_each idp entitlements required' log
      else
        (inl AuthForbidden,
         (log ++ [LogRecord WARNING
                    "SAML user from IdP %s rejected due to missing eduPersonEntitlement %s"
                    [ArgStr (provider_name idp); ArgStr expected]])%list)
  end.

Definition _check_entitlements (idp : Provider) (attributes : gmap string (list string))
    (log : list log_record) : (backend_exn + unit) * list log_record :=
  match requiredEntitlements idp with
  | Some required =>
      let entitlements := get attributes OID_EDU_PERSON_ENTITLEMENT [] in
      check_each idp entitlements required log
  | None => (inr (), log)
  end.

End Entitlements.

(** [auth_url]: [enabled] is [self._config.enabled], [super_auth_url] the
    URL that the superclass computes. *)
Definition auth_url (enabled : bool) (super_auth_url : string) (log : list log_record)
    : (backend_exn + string) * list log_record :=
  if negb enabled then
    (inl Http404, (log ++ [LogRecord ERROR "SAML authentication is not enabled" []])%list)
  else (inr super_auth_url, log).

Definition STANDARD_SAML_PROVIDER_KEY : string := "standard_saml_provider".
Definition SAP_SUCCESSFACTORS_SAML_KEY : string := "sap_success_factors".

(** The two classes that handle SAML requests. *)
Inductive idp_class :=
| EdXSAMLIdentityProvider
| SapSuccessFactorsIdentityProvider.

Definition get_saml_idp_choices : list (string * string) :=
  [ (STANDARD_SAML_PROVIDER_KEY, "Standard SAML provider");
    (SAP_SUCCESSFACTORS_SAML_KEY, "SAP SuccessFactors provider") ].

Definition get_saml_idp_class (idp_identifier_string : string) (log : list log_record)
    : idp_class * list log_record :=
  let choices : gmap string idp_class :=
    <[SAP_SUCCESSFACTORS_SAML_KEY := SapSuccessFactorsIdentityProvider]>
      (<[STANDARD_SAML_PROVIDER_KEY := EdXSAMLIdentityProvider]> ∅) in
  let log :=
    if bool_decide (is_Some (choices !! idp_identifier_string)) then log
    else (log ++ [LogRecord ERROR
                    "%s is not a valid EdXSAMLIdentityProvider subclass; using EdXSAMLIdentityProvider base class."
                    [ArgStr idp_identifier_string]])%list in
  (get choices idp_identifier_string EdXSAMLIdentityProvider, log).

End SamlBackend.

(** * Facts about the runtime notions *)

Module PyFacts.

Lemma bind_Ok {A B} (a : A) (k : A → result B) : Ok a ≫= k = k a.
Proof. reflexivity. Qed.

Lemma bind_Raise {A B} (e : exn) (k : A → result B) : Raise e ≫= k = Raise e.
Proof. reflexivity. Qed.

Lemma first_error_None {K A} (l : list (K * result A)) :
  first_error l = None ↔ ∀ k r, (k, r) ∈ l → ∃ a, r = Ok a.
Proof.
  induction l as [|[k [a|e]] l IH]; cbn [first_error].
  - split; [|done]. intros _ k r Hin. by apply elem_of_nil in Hin.
  - rewrite IH. split.
    + intros H k' r [[= -> ->]|Hin]%elem_of_cons; [by exists a|by apply (H k')].
    + intros H k' r Hin. apply (H k'). by right.
  - split; [done|]. intros H. destruct (H k (Raise e)) as [a Ha]; [left|done].
Qed.

Lemma first_error_Some {K A} (l : list (K * result A)) e :
  first_error l = Some e → ∃ k, (k, Raise e) ∈ l.
Proof.
  induction l as [|[k [a|e']] l IH]; cbn [first_error]; [done| |].
  - intros [k' Hk']%IH. exists k'. by right.
  - intros [= ->]. exists k. left.
Qed.

Lemma collect_Ok {A} (m : gmap string (result A)) (m' : gmap string A) :
  collect m = Ok m' ↔ m = Ok <$> m'.
Proof.
  unfold collect. split.
  - destruct (first_error (map_to_list m)) as [e|] eqn:He; [done|].
    intros [= <-]. apply map_eq. intros k. rewrite lookup_fmap, lookup_omap.
    destruct (m !! k) as [r|] eqn:Hk; [|done]. simpl.
    apply first_error_None with (k := k) (r := r) in He as [a ->]; [done|].
    by apply elem_of_map_to_list.
  - intros ->. 
    assert (first_error (map_to_list (Ok <$> m')) = None) as ->.
    { apply first_error_None. intros k r Hin%elem_of_map_to_list.
      rewrite lookup_fmap in Hin. destruct (m' !! k) as [a|]; [|done].
      injection Hin as <-. by exists a. }
    f_equal. apply map_eq. intros k. rewrite lookup_omap, lookup_fmap.
    by destruct (m' !! k).
Qed.

Lemma collect_Raise {A} (m : gmap string (result A)) e :
  collect m = Raise e → ∃ k, m !! k = Some (Raise e).
Proof.
  unfold collect. destruct (first_error (map_to_list m)) as [e'|] eqn:He; [|done].
  intros [= ->]. apply first_error_Some in He as [k Hk]. exists k.
  by apply elem_of_map_to_list.
Qed.

Lemma collect_all_Ok {A} (m : gmap string (result A)) :
  (∀ k r, m !! k = Some r → ∃ a, r = Ok a) →
  ∃ m', collect m = Ok m'.
Proof.
  intros H. destruct (collect m) as [m'|e] eqn:Hc; [by exists m'|].
  apply collect_Raise in Hc as [k Hk]. by destruct (H k _ Hk).
Qed.

End PyFacts.

Module PyStrings.

(** [sep] does not occur in [s]. *)
Fixpoint no_char (sep : ascii) (s : string) : Prop :=
  match s with
  | EmptyString => True
  | String c s' => c ≠ sep ∧ no_char sep s'
  end.

Lemma split_nonempty sep s : split sep s ≠ [].
Proof. destruct s as [|c s]; simpl; [done|]. destruct (Ascii.eqb c sep); [done|]. by destruct (split sep s). Qed.

Lemma split_no_char sep s : Forall (no_char sep) (split sep s).
Proof.
  induction s as [|c s IH]; simpl.
  - by constructor.
  - destruct (Ascii.eqb_spec c sep) as [->|Hne].
    + by constructor.
    + destruct (split sep s) as [|h t]; [by repeat constructor|].
      inversion IH; subst. constructor; [done|done].
Qed.

Lemma split_app_sep sep x s :
  no_char sep x → split sep (x ++ String sep s) = x :: split sep s.
Proof.
  induction x as [|c x IH]; simpl.
  - intros _. by rewrite Ascii.eqb_refl.
  - intros [Hne Hx]. rewrite IH by done.
    destruct (Ascii.eqb_spec c sep); [done|done].
Qed.

Lemma split_no_sep sep x : no_char sep x → split sep x = [x].
Proof.
  induction x as [|c x IH]; simpl; [done|].
  intros [Hne Hx]. rewrite IH by done. by destruct (Ascii.eqb_spec c sep).
Qed.

Lemma rstrip_app_space y : rstrip (y ++ " ") = rstrip y.
Proof. induction y as [|c y IH]; simpl; [done|]. by rewrite IH. Qed.

Lemma lstrip_app_space x :
  lstrip (x ++ " ") = lstrip x ++ " " ∨ (lstrip (x ++ " ") = "" ∧ lstrip x = "").
Proof.
  induction x as [|c x IH]; simpl; [by right|].
  destruct (is_space c); [done|by left].
Qed.

Lemma strip_app_space x : strip (x ++ " ") = strip x.
Proof.
  unfold strip. destruct (lstrip_app_space x) as [->|[-> ->]]; [|done].
  apply rstrip_app_space.
Qed.

Lemma strip_space_app x : strip (String " " x) = strip x.
Proof. done. Qed.

Definition starts_clean (s : string) : Prop :=
  match s with String c _ => is_space c = false | EmptyString => True end.

Lemma lstrip_clean s : starts_clean s → lstrip s = s.
Proof. destruct s as [|c s]; simpl; [done|]. by intros ->. Qed.

Lemma lstrip_starts_clean s : starts_clean (lstrip s).
Proof. induction s as [|c s IH]; simpl; [done|]. destruct (is_space c) eqn:E; [done|]. by simpl. Qed.

Lemma rstrip_starts_clean s : starts_clean s → starts_clean (rstrip s).
Proof.
  destruct s as [|c s]; simpl; [done|]. intros Hc.
  destruct (rstrip s); simpl; [by rewrite Hc|done].
Qed.

Lemma rstrip_idemp s : rstrip (rstrip s) = rstrip s.
Proof.
  induction s as [|c s IH]; simpl; [done|].
  destruct (rstrip s) as [|c' r] eqn:E.
  - destruct (is_space c) eqn:Ec; simpl; [done|]. by rewrite Ec.
  - simpl in *. by rewrite IH.
Qed.

Lemma strip_idemp s : strip (strip s) = strip s.
Proof.
  unfold strip. rewrite lstrip_clean.
  - apply rstrip_idemp.
  - apply rstrip_starts_clean, lstrip_starts_clean.
Qed.

Lemma lstrip_no_char sep s : no_char sep s → no_char sep (lstrip s).
Proof. induction s as [|c s IH]; simpl; [done|]. intros [??]. destruct (is_space c); [auto|done]. Qed.

Lemma rstrip_no_char sep s : no_char sep s → no_char sep (rstrip s).
Proof.
  induction s as [|c s IH]; simpl; [done|]. intros [? Hs].
  specialize (IH Hs). destruct (rstrip s); [by destruct (is_space c)|done].
Qed.

Lemma strip_no_char sep s : no_char sep s → no_char sep (strip s).
Proof. intros. by apply rstrip_no_char, lstrip_no_char. Qed.

Lemma split_space_app sep s :
  sep ≠ " "%char → map strip (split sep (String " " s)) = map strip (split sep s).
Proof.
  intros Hsep. cbn [split]. destruct (Ascii.eqb_spec " " sep) as [<-|_]; [done|].
  pose proof (split_nonempty sep s). destruct (split sep s) as [|h t]; [done|].
  reflexivity.
Qed.

Lemma append_cons c x y : String c x ++ y = String c (x ++ y).
Proof. reflexivity. Qed.

Lemma append_sep x rest :
  (x ++ " ") ++ String "/" (String " " rest) = x ++ " / " ++ rest.
Proof. induction x as [|c x IHx]; [done|]. rewrite !append_cons. by rewrite IHx. Qed.

Lemma no_char_app_space x : no_char "/" x → no_char "/" (x ++ " ").
Proof.
  induction x as [|c x IHx]; [by repeat split|].
  rewrite append_cons. intros [??]. split; auto.
Qed.

Lemma split_join_strip (segs : list string) :
  segs ≠ [] → Forall (no_char "/") segs →
  map strip (split "/" (join " / " segs)) = map strip segs.
Proof.
  induction segs as [|x segs IH]; [done|]. intros _ Hno.
  inversion Hno as [|?? Hx Hsegs]; subst.
  destruct segs as [|y segs].
  - simpl. by rewrite split_no_sep.
  - change (join " / " (x :: y :: segs))
      with (x ++ " / " ++ join " / " (y :: segs)).
    replace (x ++ " / " ++ join " / " (y :: segs))
      with ((x ++ " ") ++ String "/" (String " " (join " / " (y :: segs)))).
    2:{ apply append_sep. }
    rewrite split_app_sep.
    2:{ by apply no_char_app_space. }
    cbn [map]. rewrite strip_app_space, split_space_app by done.
    rewrite IH by done. done.
Qed.

End PyStrings.

Module PySorting.

Lemma compare_not_Gt_trans (a b c : string) :
  String.compare a b ≠ Gt → String.compare b c ≠ Gt → String.compare a c ≠ Gt.
Proof.
  revert b c. induction a as [|x a IH]; intros [|y b] [|z c]; simpl; try done.
  unfold Ascii.compare.
  destruct (N.compare_spec (N_of_ascii x) (N_of_ascii y)) as [Hxy|Hxy|Hxy];
    destruct (N.compare_spec (N_of_ascii y) (N_of_ascii z)) as [Hyz|Hyz|Hyz];
    destruct (N.compare_spec (N_of_ascii x) (N_of_ascii z)) as [Hxz|Hxz|Hxz];
    try done; try lia.
  apply IH.
Qed.

Lemma leb_trans (a b c : string) :
  String.leb a b = true → String.leb b c = true → String.leb a c = true.
Proof.
  unfold String.leb. intros Hab Hbc.
  pose proof (compare_not_Gt_trans a b c) as H.
  destruct (String.compare a b), (String.compare b c), (String.compare a c);
    try done; exfalso; by apply H.
Qed.

Section SortedFacts.
Context {A : Type} (key : A → string).

(** [x] may stand before [y] in a list sorted by [key]. *)
Definition key_le (x y : A) : Prop := String.leb (key x) (key y) = true.

Lemma insert_sorted_perm x l : insert_sorted key x l ≡ₚ x :: l.
Proof.
  induction l as [|y l IH]; simpl; [done|].
  destruct (String.leb (key x) (key y)); [done|].
  rewrite IH. apply Permutation_swap.
Qed.

Lemma sorted_perm l : sorted key l ≡ₚ l.
Proof.
  induction l as [|x l IH]; simpl; [done|].
  unfold sorted in *. by rewrite insert_sorted_perm, IH.
Qed.

Lemma insert_sorted_sorted x l :
  StronglySorted key_le l → StronglySorted key_le (insert_sorted key x l).
Proof.
  induction 1 as [|y l Hl IH Hy]; simpl; [by repeat constructor|].
  destruct (String.leb (key x) (key y)) eqn:Hxy.
  - constructor; [by constructor|]. constructor; [done|].
    eapply Forall_impl; [exact Hy|]. intros z Hz. unfold key_le in *.
    by apply leb_trans with (key y).
  - constructor; [done|].
    rewrite insert_sorted_perm. constructor; [|done].
    unfold key_le. destruct (String.leb_total (key x) (key y)); congruence.
Qed.

Lemma sorted_sorted l : StronglySorted key_le (sorted key l).
Proof.
  induction l as [|x l IH]; simpl; [constructor|]. by apply insert_sorted_sorted.
Qed.

End SortedFacts.
End PySorting.

(** * utils.py: properties *)

Module UtilsContentSpec.
Import Utils.

Lemma extract_acc_lookup (dic acc : gmap string pyval) (keys : list string) (k : string) :
  foldl (λ acc k, <[k := get dic k PNone]> acc) acc keys !! k
  = if decide (k ∈ keys) then Some (get dic k PNone) else acc !! k.
Proof.
  revert acc. induction keys as [|k' keys IH]; intros acc; cbn [foldl].
  - destruct (decide (k ∈ [])) as [Hin|]; [by apply elem_of_nil in Hin|done].
  - rewrite IH. destruct (decide (k ∈ keys)) as [Hin|Hnin].
    + destruct (decide (k ∈ k' :: keys)) as [|Hn]; [done|]. exfalso. apply Hn. by right.
    + destruct (decide (k = k')) as [->|Hne].
      * rewrite lookup_insert_eq.
        destruct (decide (k' ∈ k' :: keys)) as [|Hn]; [done|]. exfalso. apply Hn. left.
      * rewrite lookup_insert_ne by done.
        destruct (decide (k ∈ k' :: keys)) as [[?|?]%elem_of_cons|]; done.
Qed.

Lemma extract_lookup (dic : gmap string pyval) (keys : list string) (k : string) :
  extract dic keys !! k = if decide (k ∈ keys) then Some (get dic k PNone) else None.
Proof. unfold extract. by rewrite extract_acc_lookup, lookup_empty. Qed.

Lemma strip_none_lookup (dic : gmap string pyval) (k : string) (v : pyval) :
  strip_none dic !! k = Some v ↔ dic !! k = Some v ∧ v ≠ PNone.
Proof.
  unfold strip_none. rewrite map_lookup_filter_Some. simpl.
  split; intros [? Hv]; split; try done.
  - by intros ->.
  - by destruct v.
Qed.

(** The fields that [safe_content] extracts from [content]. *)
Definition extracted_fields (content : gmap string pyval) : list string :=
  if anonymous_is_False content
  then (safe_content_fields ++ ["username"; "user_id"])%list
  else safe_content_fields.

Lemma safe_content_lookup (content : gmap string pyval) (k : string) (v : pyval) :
  safe_content content !! k = Some v
  ↔ k ∈ extracted_fields content ∧ content !! k = Some v ∧ v ≠ PNone.
Proof.
  unfold safe_content. fold (extracted_fields content).
  rewrite strip_none_lookup, extract_lookup. unfold get.
  destruct (decide (k ∈ extracted_fields content)) as [Hin|Hnin].
  - split.
    + intros [Heq Hv]. split; [done|]. destruct (content !! k) as [x|]; simpl in *; [|congruence].
      split; congruence.
    + intros (_ & -> & Hv). done.
  - split; [by intros [? _]|by intros [? _]].
Qed.

Lemma anonymous_is_False_spec (content : gmap string pyval) :
  anonymous_is_False content = true ↔ content !! "anonymous" = Some (PBool false).
Proof.
  unfold anonymous_is_False.
  destruct (content !! "anonymous") as [[| [] | | |]|]; split; congruence.
Qed.

(** C8: for every content dict, the keys of [safe_content content] are
    drawn from the fixed list of content fields extended by ['username'] and
    ['user_id']; these two are present exactly when [content['anonymous']]
    is the value [False] itself (not when the key is missing, [None], or any
    other value) and [content] binds them to something other than [None];
    a listed field is present exactly when [content] binds it to something
    other than [None]; and no key of the result is bound to [None]. *)
Theorem safe_content_whitelist (content : gmap string pyval) :
  (∀ k, is_Some (safe_content content !! k) →
        k ∈ (safe_content_fields ++ ["username"; "user_id"])%list)
  ∧ (∀ k, k = "username" ∨ k = "user_id" →
          (is_Some (safe_content content !! k)
           ↔ content !! "anonymous" = Some (PBool false)
             ∧ ∃ v, content !! k = Some v ∧ v ≠ PNone))
  ∧ (∀ k, k ∈ safe_content_fields →
          ∀ v, safe_content content !! k = Some v ↔ content !! k = Some v ∧ v ≠ PNone)
  ∧ (∀ k, safe_content content !! k ≠ Some PNone).
Proof.
  split; [|split; [|split]].
  - intros k [v Hv]. apply safe_content_lookup in Hv as (Hin & _ & _).
    unfold extracted_fields in Hin. destruct (anonymous_is_False content); [done|].
    apply elem_of_app. by left.
  - intros k Hk. rewrite <-anonymous_is_False_spec. split.
    + intros [v Hv]. apply safe_content_lookup in Hv as (Hin & Hc & Hv).
      split; [|by exists v]. unfold extracted_fields in Hin.
      destruct (anonymous_is_False content); [done|]. exfalso.
      destruct Hk as [-> | ->]; vm_compute in Hin; 
       repeat (apply elem_of_cons in Hin as [Hin|Hin]; [discriminate|]); by apply elem_of_nil in Hin.
    + intros [Ha (v & Hc & Hv)]. exists v. apply safe_content_lookup.
      split; [|done]. unfold extracted_fields. rewrite Ha.
      apply elem_of_app. right. destruct Hk as [-> | ->]; set_solver.
  - intros k Hk v. rewrite safe_content_lookup. split; [by intros (_ & ? & ?)|].
    intros [??]. split; [|done]. unfold extracted_fields.
    destruct (anonymous_is_False content); [|done]. apply elem_of_app. by left.
  - intros k Hk. by apply safe_content_lookup in Hk as (_ & _ & ?).
Qed.

(** A comment that is not anonymous, with a body of [None] and a field
    that is not on the list. *)
Definition sample_content : gmap string pyval :=
  <["id" := PStr "c1"]> (<["anonymous" := PBool false]> (<["username" := PStr "bob"]>
  (<["body" := PNone]> {[ "secret" := PStr "x" ]}))).

(** Its user name and id are kept, its body and the unlisted field are not. *)
Lemma safe_content_whitelist_witness :
  is_Some (safe_content sample_content !! "username")
  ∧ safe_content sample_content !! "id" = Some (PStr "c1")
  ∧ safe_content sample_content !! "body" = None
  ∧ safe_content sample_content !! "secret" = None.
Proof.
  destruct (safe_content_whitelist sample_content) as (Hkeys & Huser & Hfield & Hnone).
  split; [|split; [|split]].
  - apply (Huser "username"); [by left|]. split; [reflexivity|].
    exists (PStr "bob"). split; [reflexivity|discriminate].
  - apply (Hfield "id"); [|split; [reflexivity|discriminate]].
    unfold safe_content_fields. left.
  - destruct (safe_content sample_content !! "body") as [v|] eqn:Hbody; [|reflexivity].
    exfalso. apply (Hfield "body") in Hbody as [Hv Hne].
    + vm_compute in Hv. congruence.
    + unfold safe_content_fields. do 2 right. left.
  - destruct (safe_content sample_content !! "secret") as [v|] eqn:Hsecret; [|reflexivity].
    exfalso. assert (Hin : is_Some (safe_content sample_content !! "secret")) by (by eexists).
    apply Hkeys in Hin. revert Hin.
    refine (bool_decide_eq_false_1 _ _). vm_compute. reflexivity.
Defined.

End UtilsContentSpec.

Module UtilsAbilitySpec.
Import Utils.

Section Ability.
Context {User : Type}.
Variable check : User → string → gmap string pyval → string → bool.

Lemma is_type_spec (v : pyval) (name : string) :
  is_type v name = true ↔ v = PStr name.
Proof.
  destruct v; simpl; try (split; congruence).
  rewrite String.eqb_eq. split; congruence.
Qed.

Lemma get_ability_missing_type (course_id : string) (content : gmap string pyval) (user : User) :
  content !! "type" = None →
  get_ability check course_id content user = Raise (KeyError "type").
Proof. intros H. unfold get_ability, getitem. by rewrite H. Qed.

(** C6: for every content dict that has a ['type'] and every user,
    [get_ability] returns a dict with exactly the six keys ['editable'],
    ['can_reply'], ['can_endorse'], ['can_delete'], ['can_openclose'] and
    ['can_vote']; ['can_endorse'] is the ['endorse_comment'] check when the
    type is ['comment'] and [False] otherwise, ['can_openclose'] is the
    ['openclose_thread'] check when the type is ['thread'] and [False]
    otherwise, and each other key is the check of the thread permission when
    the type is ['thread'] and of the comment permission otherwise. *)
Theorem get_ability_keys (course_id : string) (content : gmap string pyval) (user : User)
    (type : pyval) :
  content !! "type" = Some type →
  ∃ ability,
    get_ability check course_id content user = Ok ability
    ∧ dom ability = {[ "editable"; "can_reply"; "can_endorse"; "can_delete";
                       "can_openclose"; "can_vote" ]}
    ∧ ability !! "can_endorse"
      = Some (if is_type type "comment"
              then check user course_id content "endorse_comment" else false)
    ∧ ability !! "can_openclose"
      = Some (if is_type type "thread"
              then check user course_id content "openclose_thread" else false)
    ∧ ability !! "editable"
      = Some (check user course_id content
                (if is_type type "thread" then "update_thread" else "update_comment"))
    ∧ ability !! "can_reply"
      = Some (check user course_id content
                (if is_type type "thread" then "create_comment" else "create_sub_comment"))
    ∧ ability !! "can_delete"
      = Some (check user course_id content
                (if is_type type "thread" then "delete_thread" else "delete_comment"))
    ∧ ability !! "can_vote"
      = Some (check user course_id content
                (if is_type type "thread" then "vote_for_thread" else "vote_for_comment")).
Proof.
  intros Htype. unfold get_ability, getitem. rewrite Htype. simpl.
  eexists. split; [reflexivity|].
  split; [|by repeat split].
  rewrite !dom_insert_L, dom_empty_L. set_solver.
Qed.

End Ability.

(** A comment, with a check that grants ['endorse_comment'] only. *)
Lemma get_ability_keys_witness :
  ∃ ability,
    get_ability (λ (_ : unit) _ _ name, String.eqb name "endorse_comment") "c"
                {[ "type" := PStr "comment" ]} () = Ok ability
    ∧ ability !! "can_endorse" = Some true
    ∧ ability !! "can_openclose" = Some false.
Proof.
  destruct (get_ability_keys (λ (_ : unit) _ _ name, String.eqb name "endorse_comment")
              "c" {[ "type" := PStr "comment" ]} () (PStr "comment"))
    as (ability & H & _ & He & Ho & _).
  - reflexivity.
  - exists ability. split; [exact H|]. split; [exact He|exact Ho].
Defined.

End UtilsAbilitySpec.

Module UtilsCacheSpec.
Import Utils.

(** The three accessors that fill the cache, and what each one answers. *)
Inductive accessor :=
| DiscussionIdMap
| DiscussionTitle (discussion_id : string)
| DiscussionCategoryMap.

Inductive answer :=
| AnIdMap (m : gmap string id_map_entry)
| ATitle (title : string)
| ACategoryMap (c : category).

#[local] Instance result_fmap : FMap result := λ A B f r,
  match r with Ok a => Ok (f a) | Raise e => Raise e end.

Definition call (a : accessor) (store : modules) (course : Course) (g : Globals)
    : result answer * Globals :=
  match a with
  | DiscussionIdMap =>
      let '(r, g) := get_discussion_id_map store course g in (AnIdMap <$> r, g)
  | DiscussionTitle discussion_id =>
      let '(r, g) := get_discussion_title store () course discussion_id g in (ATitle <$> r, g)
  | DiscussionCategoryMap =>
      let '(r, g) := get_discussion_category_map store course g in (ACategoryMap <$> r, g)
  end.

(** What an accessor reads in a populated cache. *)
Definition cached (info : DiscussionInfo) (a : accessor) : answer :=
  match a with
  | DiscussionIdMap => AnIdMap (id_map info)
  | DiscussionTitle discussion_id =>
      ATitle (default "(no title)" (im_title <$> id_map info !! discussion_id))
  | DiscussionCategoryMap => ACategoryMap (category_map info)
  end.


Lemma initialize_populated store course g info :
  _DISCUSSIONINFO g = Some info →
  initialize_discussion_info store course g = (Ok (), g).
Proof. intros H. unfold initialize_discussion_info. by rewrite H. Qed.

Lemma initialize_Ok store course g g' :
  initialize_discussion_info store course g = (Ok (), g') →
  ∃ info, _DISCUSSIONINFO g' = Some info
    ∧ (_DISCUSSIONINFO g = None →
       ∃ all_modules,
         (get_full_modules store g).1 !! course_id course = Some all_modules
         ∧ build_discussion_info all_modules = Ok info).
Proof.
  unfold initialize_discussion_info.
  destruct (_DISCUSSIONINFO g) as [info|] eqn:Hg.
  - intros [= <-]. exists info. split; [done|]. intros ?; congruence.
  - destruct (get_full_modules store g) as [full g1] eqn:Hfull. unfold getitem. simpl.
    destruct (full !! course_id course) as [all_modules|]; [|done].
    destruct (build_discussion_info all_modules) as [info|] eqn:Hb; [|done].
    intros [= <-]. exists info. split; [done|]. intros _. by exists all_modules.
Qed.

Lemma with_discussion_info_populated {A} store course (read : DiscussionInfo → A) g info :
  _DISCUSSIONINFO g = Some info →
  with_discussion_info store course read g = (Ok (read info), g).
Proof. intros H. unfold with_discussion_info. by rewrite !H. Qed.

Lemma with_discussion_info_Ok {A} store course (read : DiscussionInfo → A) g r g' :
  with_discussion_info store course read g = (Ok r, g') →
  ∃ info, _DISCUSSIONINFO g' = Some info ∧ r = read info
    ∧ initialize_discussion_info store course g = (Ok (), g').
Proof.
  unfold with_discussion_info.
  destruct (_DISCUSSIONINFO g) as [info|] eqn:Hg.
  - rewrite Hg. intros [= <- <-]. exists info. split; [done|]. split; [done|].
    by apply initialize_populated with info.
  - destruct (initialize_discussion_info store course g) as [[[]|e] g1] eqn:Hi; [|done].
    destruct (_DISCUSSIONINFO g1) as [info|] eqn:Hg1; [|done].
    intros [= <- <-]. by exists info.
Qed.

Lemma call_populated a store course g info :
  _DISCUSSIONINFO g = Some info → call a store course g = (Ok (cached info a), g).
Proof.
  intros H. destruct a; simpl;
    unfold get_discussion_id_map, get_discussion_title, get_discussion_category_map;
    by rewrite (with_discussion_info_populated _ _ _ _ info H).
Qed.

Lemma call_Ok a store course g r g' :
  call a store course g = (Ok r, g') →
  ∃ info, _DISCUSSIONINFO g' = Some info ∧ r = cached info a
    ∧ initialize_discussion_info store course g = (Ok (), g').
Proof.
  destruct a; simpl;
    unfold get_discussion_id_map, get_discussion_title, get_discussion_category_map;
    match goal with
    | |- context [with_discussion_info ?s ?c ?rd ?g] =>
        destruct (with_discussion_info s c rd g) as [[x|e] g1] eqn:Hw
    end; simpl; try done; intros [= <- <-];
    apply with_discussion_info_Ok in Hw as (info & ? & -> & ?); by exists info.
Qed.

(** A sequence of later calls, each with its own store contents and course. *)
Fixpoint calls (l : list (accessor * modules * Course)) (g : Globals)
    : list (result answer) * Globals :=
  match l with
  | [] => ([], g)
  | (a, store, course) :: l' =>
      let '(r, g) := call a store course g in
      let '(rs, g) := calls l' g in
      (r :: rs, g)
  end.

Lemma calls_populated l g info :
  _DISCUSSIONINFO g = Some info →
  calls l g = ((λ x, Ok (cached info x.1.1)) <$> l, g).
Proof.
  intros H. induction l as [|[[a store] course] l IH]; simpl; [done|].
  by rewrite (call_populated _ _ _ _ info H), IH.
Qed.

(** C9: once a call of [get_discussion_id_map], [get_discussion_title] or
    [get_discussion_category_map] has returned, the cache holds an [info]
    (built from the course of that call when the cache was empty before);
    every later sequence of calls of the three accessors, with whatever
    courses and store contents, answers from this [info] and leaves the
    globals as they are, and [initialize_discussion_info] returns at once
    without changing them. *)
Theorem discussion_info_cached_forever (a : accessor) (store : modules) (course : Course)
    (g g1 : Globals) (r : answer) :
  call a store course g = (Ok r, g1) →
  ∃ info,
    _DISCUSSIONINFO g1 = Some info
    ∧ r = cached info a
    ∧ (_DISCUSSIONINFO g = None →
       ∃ all_modules,
         (get_full_modules store g).1 !! course_id course = Some all_modules
         ∧ build_discussion_info all_modules = Ok info)
    ∧ (∀ later, calls later g1 = ((λ x, Ok (cached info x.1.1)) <$> later, g1))
    ∧ (∀ store' course', initialize_discussion_info store' course' g1 = (Ok (), g1)).
Proof.
  intros Hcall. apply call_Ok in Hcall as (info & Hinfo & -> & Hinit).
  exists info. split; [done|]. split; [done|]. split; [|split].
  - apply initialize_Ok in Hinit as (info' & Hinfo' & Hbuild).
    rewrite Hinfo in Hinfo'. by injection Hinfo' as <-.
  - intros later. by apply calls_populated.
  - intros store' course'. by apply initialize_populated with info.
Qed.

Definition sample_store : modules :=
  {[ "org/course/run" :=
       [(mkLocation "org" "course" "discussion" "d1",
         mkXModule (<["id" := "id1"]> (<["discussion_category" := "General"]>
                   {[ "for" := "Welcome" ]})))] ]}.
Definition sample_course : Course := mkCourse "org/course/run".
Definition other_course : Course := mkCourse "org/other/run".
Definition empty_globals : Globals := mkGlobals None None.
Definition populated_globals : Globals :=
  (call DiscussionCategoryMap sample_store sample_course empty_globals).2.

(** After a first call for [sample_course], a call for [other_course]
    with an empty store still answers from the modules of [sample_course]. *)
Lemma discussion_info_cached_forever_witness :
  ∃ info,
    _DISCUSSIONINFO populated_globals = Some info
    ∧ call (DiscussionTitle "id1") ∅ other_course populated_globals
      = (Ok (ATitle "Welcome"), populated_globals)
    ∧ initialize_discussion_info ∅ other_course populated_globals = (Ok (), populated_globals).
Proof.
  destruct (call DiscussionCategoryMap sample_store sample_course empty_globals)
    as [[r|e] g1] eqn:Hcall; [|vm_compute in Hcall; discriminate Hcall].
  assert (Hg1 : populated_globals = g1) by (unfold populated_globals; by rewrite Hcall).
  destruct (discussion_info_cached_forever DiscussionCategoryMap sample_store sample_course
              empty_globals g1 r Hcall) as (info & Hinfo & _ & Hbuild & Hlater & Hinit).
  rewrite Hg1. exists info. split; [exact Hinfo|]. split; [|apply Hinit].
  specialize (Hlater [(DiscussionTitle "id1", ∅, other_course)]).
  cbn [calls fmap list_fmap fst] in Hlater.
  destruct (call (DiscussionTitle "id1") ∅ other_course g1) as [r' g'] eqn:Hc.
  injection Hlater as -> ->. f_equal. f_equal. cbn [cached].
  destruct (Hbuild eq_refl) as (all_modules & Hmods & Hb).
  vm_compute in Hmods. injection Hmods as <-.
  vm_compute in Hb. injection Hb as <-. reflexivity.
Defined.

End UtilsCacheSpec.

Module UtilsTreeFacts.
Import Utils PyFacts.

(** Induction on the nodes of a category map. *)
Fixpoint cat_size (c : category) : nat :=
  S (map_fold (λ _ sub n, cat_size sub + n) 0 (cat_subcategories c)).

Lemma cat_size_subcategory c title sub :
  cat_subcategories c !! title = Some sub → cat_size sub < cat_size c.
Proof.
  intros Hsub. destruct c as [sk es subs ch]; simpl in *.
  rewrite (map_fold_delete_L _ _ title sub subs); [lia| |done].
  intros; lia.
Qed.

Lemma category_ind (P : category → Prop) :
  (∀ c, (∀ title sub, cat_subcategories c !! title = Some sub → P sub) → P c) →
  ∀ c, P c.
Proof.
  intros Hstep c. remember (cat_size c) as n eqn:Hn. revert c Hn.
  induction n as [n IH] using lt_wf_ind. intros c ->. apply Hstep.
  intros title sub Hsub. apply (IH (cat_size sub)); [|done].
  by apply cat_size_subcategory with title.
Qed.

Lemma sort_map_entries_eq (c : category) :
  sort_map_entries c =
    (subcategories ← collect (sort_map_entries <$> cat_subcategories c);
     entries ← entry_things (cat_entries c);
     things ← category_things (cat_subcategories c);
     Ok (Category (cat_sort_key c) (cat_entries c) subcategories
           (Some ((sorted (λ x, x.2) (entries ++ things)%list).*1)))).
Proof. by destruct c. Qed.

(** Every entry and every subcategory of [c], and of the nodes below it,
    has a ["sort_key"]. *)
Inductive keyed_below : category → Prop :=
| keyed_below_intro c :
    (∀ title e, cat_entries c !! title = Some e → is_Some (entry_sort_key e)) →
    (∀ title sub, cat_subcategories c !! title = Some sub →
                  is_Some (cat_sort_key sub) ∧ keyed_below sub) →
    keyed_below c.

Lemma keyed_below_inv c title sub :
  keyed_below c → cat_subcategories c !! title = Some sub →
  is_Some (cat_sort_key sub) ∧ keyed_below sub.
Proof. intros [c' _ H]. apply H. Qed.

Lemma keyed_below_entries c title e :
  keyed_below c → cat_entries c !! title = Some e → is_Some (entry_sort_key e).
Proof. intros [c' H _]. apply H. Qed.

Lemma mapM_Ok {A B} (f : A → result B) (l : list A) (k : list B) :
  mapM f l = Ok k ↔ Forall2 (λ x y, f x = Ok y) l k.
Proof.
  revert k. induction l as [|x l IH]; intros k; simpl.
  - split; [intros [= <-]; constructor|by inversion 1].
  - split.
    + destruct (f x) as [y|e] eqn:Hx; [|done]. rewrite bind_Ok.
      destruct (mapM f l) as [k'|e] eqn:Hl; [|done]. rewrite bind_Ok.
      intros [= <-]. constructor; [done|]. by apply IH.
    + inversion 1 as [|?? y k' Hx Hl]; subst. rewrite Hx, bind_Ok.
      apply IH in Hl. by rewrite Hl.
Qed.

(** The titles under a node with their sort keys, as [sort_map_entries]
    lists them: first the entries, then the subcategories. *)
Definition node_things (c : category) : list (string * option string) :=
  (((λ te, (te.1, entry_sort_key te.2)) <$> map_to_list (cat_entries c))
   ++ ((λ tc, (tc.1, cat_sort_key tc.2)) <$> map_to_list (cat_subcategories c)))%list.

(** ["children"] lists the titles of the entries and subcategories of the
    node, in an order in which the sort keys never decrease. *)
Definition children_ordered (c : category) : Prop :=
  ∃ things : list (string * string),
    (λ x, (x.1, Some x.2)) <$> things ≡ₚ node_things c
    ∧ StronglySorted (λ x y, String.leb x.2 y.2 = true) things
    ∧ cat_children c = Some things.*1.

Inductive children_ordered_below : category → Prop :=
| children_ordered_below_intro c :
    children_ordered c →
    (∀ title sub, cat_subcategories c !! title = Some sub → children_ordered_below sub) →
    children_ordered_below c.

(** [sorted_map] is [category_map] sorted, node for node: at the root and
    below every title, the two maps have the same sort key and the same
    entries, subcategories under the same titles, ['children'] is ordered in
    [sorted_map], and the same holds of each subcategory of [category_map]
    and the subcategory of [sorted_map] with its title. *)
Inductive sorted_node_for_node : category → category → Prop :=
| sorted_node_for_node_intro category_map sorted_map :
    cat_sort_key sorted_map = cat_sort_key category_map →
    cat_entries sorted_map = cat_entries category_map →
    dom (cat_subcategories sorted_map) = dom (cat_subcategories category_map) →
    children_ordered sorted_map →
    (∀ title sub, cat_subcategories category_map !! title = Some sub →
       ∃ sub', cat_subcategories sorted_map !! title = Some sub'
               ∧ sorted_node_for_node sub sub') →
    sorted_node_for_node category_map sorted_map.

Lemma things_of_Ok {A} (sort_key : A → option string) (d : gmap string A) :
  (∀ title a, d !! title = Some a → is_Some (sort_key a)) →
  ∃ things,
    things_of sort_key d = Ok things
    ∧ (λ x, (x.1, Some x.2)) <$> things
      = (λ ta : string * A, (ta.1, sort_key ta.2)) <$> map_to_list d.
Proof.
  intros Hkeyed. unfold things_of.
  assert (Hall : Forall (λ ta : string * A, is_Some (sort_key ta.2)) (map_to_list d)).
  { apply Forall_forall. intros [title a] Hin%elem_of_map_to_list. by apply (Hkeyed title). }
  setoid_rewrite mapM_Ok.
  induction (map_to_list d) as [|[title a] l IH].
  - exists []. split; [constructor|done].
  - apply Forall_cons in Hall as [[k Hk] Hall]. cbn [snd] in Hk.
    destruct (IH Hall) as (things & Hthings & Heq).
    exists ((title, k) :: things). split.
    + constructor; [|done]. cbn [fst snd]. by rewrite Hk.
    + rewrite !fmap_cons, Heq. cbn [fst snd]. by rewrite Hk.
Qed.

Lemma things_of_Ok_inv {A} (sort_key : A → option string) (d : gmap string A) things :
  things_of sort_key d = Ok things →
  ∀ title a, d !! title = Some a → is_Some (sort_key a).
Proof.
  unfold things_of. intros H%mapM_Ok title a Ha%elem_of_map_to_list.
  apply list_elem_of_lookup in Ha as [i Hi].
  destruct (Forall2_lookup_l _ _ _ _ _ H Hi) as ([title' k] & _ & Hk).
  simpl in Hk. destruct (sort_key a); [by eexists|done].
Qed.

Lemma category_things_Ok subs :
  (∀ title sub, subs !! title = Some sub → is_Some (cat_sort_key sub)) →
  ∃ things,
    category_things subs = Ok things
    ∧ (λ x, (x.1, Some x.2)) <$> things
      = (λ tc : string * category, (tc.1, cat_sort_key tc.2)) <$> map_to_list subs.
Proof. apply things_of_Ok. Qed.

Lemma category_things_Ok_inv subs things :
  category_things subs = Ok things →
  ∀ title sub, subs !! title = Some sub → is_Some (cat_sort_key sub).
Proof. apply things_of_Ok_inv. Qed.

Lemma entry_things_Ok entries :
  (∀ title e, entries !! title = Some e → is_Some (entry_sort_key e)) →
  ∃ things,
    entry_things entries = Ok things
    ∧ (λ x, (x.1, Some x.2)) <$> things
      = (λ te : string * entry, (te.1, entry_sort_key te.2)) <$> map_to_list entries.
Proof. apply things_of_Ok. Qed.

Lemma entry_things_Ok_inv entries things :
  entry_things entries = Ok things →
  ∀ title e, entries !! title = Some e → is_Some (entry_sort_key e).
Proof. apply things_of_Ok_inv. Qed.

Lemma sort_map_entries_Ok_inv c c' :
  sort_map_entries c = Ok c' →
  cat_sort_key c' = cat_sort_key c
  ∧ cat_entries c' = cat_entries c
  ∧ sort_map_entries <$> cat_subcategories c = Ok <$> cat_subcategories c'
  ∧ ∃ entries things,
      entry_things (cat_entries c) = Ok entries
      ∧ category_things (cat_subcategories c) = Ok things
      ∧ cat_children c' = Some ((sorted (λ x, x.2) (entries ++ things)%list).*1).
Proof.
  rewrite sort_map_entries_eq.
  destruct (collect _) as [subs'|e] eqn:Hc; [|done]. rewrite bind_Ok.
  destruct (entry_things _) as [entries|e] eqn:He; [|done]. rewrite bind_Ok.
  destruct (category_things _) as [things|e] eqn:Ht; [|done]. rewrite bind_Ok.
  intros [= <-]. simpl. apply collect_Ok in Hc. repeat split; try done.
  by exists entries, things.
Qed.

Lemma sorted_subcategory c c' title :
  sort_map_entries <$> cat_subcategories c = Ok <$> cat_subcategories c' →
  ∀ sub', cat_subcategories c' !! title = Some sub' ↔
          ∃ sub, cat_subcategories c !! title = Some sub ∧ sort_map_entries sub = Ok sub'.
Proof.
  intros Heq sub'. apply (f_equal (λ m, m !! title)) in Heq.
  rewrite !lookup_fmap in Heq.
  destruct (cat_subcategories c !! title) as [sub|], (cat_subcategories c' !! title) as [x|];
    simpl in Heq; try done.
  - injection Heq as Heq. split.
    + intros [= <-]. by exists sub.
    + intros (? & [= <-] & H). congruence.
  - split; [done|]. by intros (? & ? & _).
Qed.

Lemma sorted_subcategory_things c c' :
  sort_map_entries <$> cat_subcategories c = Ok <$> cat_subcategories c' →
  (λ tc : string * category, (tc.1, cat_sort_key tc.2)) <$> map_to_list (cat_subcategories c')
  = (λ tc : string * category, (tc.1, cat_sort_key tc.2)) <$> map_to_list (cat_subcategories c).
Proof.
  intros Heq. apply (f_equal map_to_list) in Heq. rewrite !map_to_list_fmap in Heq.
  revert Heq. generalize (map_to_list (cat_subcategories c')).
  induction (map_to_list (cat_subcategories c)) as [|[title sub] l IH];
    intros [|[title' sub'] l'] Heq; rewrite ?fmap_nil, ?fmap_cons in *; try done.
  injection Heq as -> Hsub Hl. cbn [fst snd] in *.
  apply sort_map_entries_Ok_inv in Hsub as (-> & _).
  by rewrite (IH l').
Qed.

Lemma sort_map_entries_total c :
  keyed_below c → ∃ c', sort_map_entries c = Ok c'.
Proof.
  induction c as [c IH] using category_ind. intros Hkeyed.
  rewrite sort_map_entries_eq.
  destruct (collect_all_Ok (sort_map_entries <$> cat_subcategories c)) as [subs' ->].
  { intros title r. rewrite lookup_fmap.
    destruct (cat_subcategories c !! title) as [sub|] eqn:Hsub; [|done].
    intros [= <-]. apply (IH title sub Hsub).
    by apply (keyed_below_inv c title sub). }
  destruct (entry_things_Ok (cat_entries c)) as (entries & -> & _).
  { intros title e He. by apply (keyed_below_entries c title e). }
  destruct (category_things_Ok (cat_subcategories c)) as (things & -> & _).
  { intros title sub Hsub. by apply (keyed_below_inv c title sub). }
  by eexists.
Qed.

Lemma sort_map_entries_keyed c c' :
  sort_map_entries c = Ok c' → keyed_below c.
Proof.
  revert c'. induction c as [c IH] using category_ind. intros c' Hc.
  apply sort_map_entries_Ok_inv in Hc
    as (_ & _ & Hsubs & entries & things & Hentries & Hthings & _).
  constructor; [by apply entry_things_Ok_inv with entries|].
  intros title sub Hsub. split.
  - by apply (category_things_Ok_inv _ _ Hthings title).
  - apply (f_equal (λ m, m !! title)) in Hsubs. rewrite !lookup_fmap, Hsub in Hsubs.
    destruct (cat_subcategories c' !! title) as [sub'|]; [|done].
    injection Hsubs as Hsub'. by apply (IH title sub Hsub sub').
Qed.

Lemma sort_map_entries_children_ordered c c' :
  sort_map_entries c = Ok c' → children_ordered c'.
Proof.
  intros Hc.
  apply sort_map_entries_Ok_inv in Hc
    as (Hsk & Hes & Hsubs & entries & things & Hentries & Hthings & Hch).
  exists (sorted (λ x, x.2) (entries ++ things)%list).
  split; [|split; [apply PySorting.sorted_sorted|done]].
  rewrite PySorting.sorted_perm. unfold node_things.
  rewrite fmap_app, Hes, (sorted_subcategory_things c c' Hsubs).
  destruct (category_things_Ok (cat_subcategories c)) as (things' & Hthings' & <-).
  { by apply category_things_Ok_inv with things. }
  rewrite Hthings in Hthings'. injection Hthings' as <-.
  destruct (entry_things_Ok (cat_entries c)) as (entries' & Hentries' & <-).
  { by apply entry_things_Ok_inv with entries. }
  rewrite Hentries in Hentries'. by injection Hentries' as <-.
Qed.

Lemma sort_map_entries_children c c' :
  sort_map_entries c = Ok c' → children_ordered_below c'.
Proof.
  revert c'. induction c as [c IH] using category_ind. intros c' Hc.
  constructor; [by apply sort_map_entries_children_ordered with c|].
  apply sort_map_entries_Ok_inv in Hc as (_ & _ & Hsubs & _).
  intros title sub' Hsub'.
  apply (sorted_subcategory c c' title Hsubs) in Hsub' as (sub & Hsub & Hsort).
  by apply (IH title sub Hsub).
Qed.

Lemma sort_map_entries_node_for_node c c' :
  sort_map_entries c = Ok c' → sorted_node_for_node c c'.
Proof.
  revert c'. induction c as [c IH] using category_ind. intros c' Hc.
  pose proof (sort_map_entries_children_ordered c c' Hc) as Hordered.
  apply sort_map_entries_Ok_inv in Hc as (Hsk & Hes & Hsubs & _).
  constructor; [done|done| |done|].
  - apply (f_equal dom) in Hsubs. by rewrite !dom_fmap_L in Hsubs.
  - intros title sub Hsub.
    pose proof (f_equal (λ m, m !! title) Hsubs) as Hlook. cbn in Hlook.
    rewrite !lookup_fmap, Hsub in Hlook.
    destruct (cat_subcategories c' !! title) as [sub'|] eqn:Hsub'; [|done].
    injection Hlook as Hsort. exists sub'. split; [done|]. by apply (IH title sub Hsub).
Qed.

(** C2: when every entry and every subcategory of [category_map], at any
    depth, has a ['sort_key'] (the condition under which [sort_map_entries]
    runs to its end), it returns the given map sorted node for node: every
    node of the given map is found in the result under the same titles,
    with its sort key, its entries and the titles of its subcategories, and
    with a ['children'] that lists exactly the titles of its entries and of
    its subcategories, ordered so that the sort keys never decrease; and
    so for every subcategory node, recursively. *)
Theorem sort_map_entries_orders_children (category_map : category) :
  keyed_below category_map →
  ∃ sorted_map,
    sort_map_entries category_map = Ok sorted_map
    ∧ children_ordered_below sorted_map
    ∧ cat_entries sorted_map = cat_entries category_map
    ∧ dom (cat_subcategories sorted_map) = dom (cat_subcategories category_map)
    ∧ sorted_node_for_node category_map sorted_map.
Proof.
  intros Hkeyed. destruct (sort_map_entries_total _ Hkeyed) as [c' Hc].
  exists c'. split; [done|]. split; [by apply sort_map_entries_children with category_map|].
  pose proof (sort_map_entries_node_for_node _ _ Hc) as Hnodes.
  apply sort_map_entries_Ok_inv in Hc as (_ & Hes & Hsubs & _). split; [done|].
  split; [|done].
  apply (f_equal dom) in Hsubs. by rewrite !dom_fmap_L in Hsubs.
Qed.

(** A root with one entry and one subcategory, which has an entry and a
    subcategory of its own. *)
Definition sample_category_map : category :=
  Category None {[ "Welcome" := Entry "i1" "b" ]}
           {[ "General" :=
                Category (Some "a") {[ "Questions" := Entry "i2" "z" ]}
                         {[ "Lecture" := Category (Some "k") ∅ ∅ None ]} None ]} None.

Lemma sample_category_map_keyed : keyed_below sample_category_map.
Proof.
  constructor; cbn [sample_category_map cat_entries cat_subcategories].
  - intros title e [_ <-]%lookup_singleton_Some. by eexists.
  - intros title sub [_ <-]%lookup_singleton_Some. split; [by eexists|].
    constructor; cbn [cat_entries cat_subcategories].
    + intros title' e [_ <-]%lookup_singleton_Some. by eexists.
    + intros title' sub' [_ <-]%lookup_singleton_Some. split; [by eexists|].
      constructor; cbn [cat_entries cat_subcategories]; intros ??; by rewrite lookup_empty.
Qed.

(** On this map the subcategory, with sort key ["a"], comes before the
    entry, with sort key ["b"]; below it the subcategory ["Lecture"], with
    sort key ["k"], comes before the entry, with sort key ["z"]. *)
Lemma sort_map_entries_orders_children_witness :
  ∃ sorted_map general,
    sort_map_entries sample_category_map = Ok sorted_map
    ∧ children_ordered_below sorted_map
    ∧ cat_children sorted_map = Some ["General"; "Welcome"]
    ∧ cat_subcategories sorted_map !! "General" = Some general
    ∧ cat_children general = Some ["Lecture"; "Questions"].
Proof.
  destruct (sort_map_entries_orders_children sample_category_map sample_category_map_keyed)
    as (sorted_map & Hsorted & Hordered & _).
  assert (sort_map_entries sample_category_map
          = Ok (Category None {[ "Welcome" := Entry "i1" "b" ]}
                  {[ "General" :=
                       Category (Some "a") {[ "Questions" := Entry "i2" "z" ]}
                         {[ "Lecture" := Category (Some "k") ∅ ∅ (Some []) ]}
                         (Some ["Lecture"; "Questions"]) ]}
                  (Some ["General"; "Welcome"]))) as Heval
    by (vm_compute; reflexivity).
  rewrite Heval in Hsorted. injection Hsorted as <-.
  eexists _, _. split; [exact Heval|]. split; [exact Hordered|].
  split; [reflexivity|]. split; [apply lookup_singleton_eq|reflexivity].
Defined.

End UtilsTreeFacts.

Module UtilsPlacement.
Import Utils PyFacts PyStrings UtilsTreeFacts.

(** The node reached from the dict of subcategories [node] by following
    [path], one title per level. *)
Fixpoint node_at (node : gmap string category) (path : list string) : option category :=
  match path with
  | [] => None
  | level :: rest =>
      c ← node !! level;
      match rest with
      | [] => Some c
      | _ => node_at (cat_subcategories c) rest
      end
  end.

Definition entries_at (node : gmap string category) (path : list string) : gmap string entry :=
  from_option cat_entries ∅ (node_at node path).

Definition insert_entry (entries : gmap string entry) (e : unexpanded_entry) : gmap string entry :=
  <[ue_title e := Entry (ue_id e) (ue_sort_key e)]> entries.

Lemma node_at_singleton node level : node_at node [level] = node !! level.
Proof. simpl. by destruct (node !! level). Qed.

Lemma node_at_cons node level rest :
  rest ≠ [] →
  node_at node (level :: rest) = node !! level ≫= λ c, node_at (cat_subcategories c) rest.
Proof. intros H. destruct rest; [done|]. reflexivity. Qed.

Lemma node_at_empty path : node_at ∅ path = None.
Proof. destruct path as [|level rest]; [done|]. simpl. by rewrite lookup_empty. Qed.

Lemma entries_at_empty path : entries_at ∅ path = ∅.
Proof. unfold entries_at. by rewrite node_at_empty. Qed.

Lemma cat_entries_set_entries c entries :
  cat_entries (foldl set_entry c entries) = foldl insert_entry (cat_entries c) entries.
Proof. revert c. induction entries as [|e entries IH]; intros c; simpl; [done|]. by rewrite IH. Qed.

Lemma cat_subcategories_set_entries c entries :
  cat_subcategories (foldl set_entry c entries) = cat_subcategories c.
Proof. revert c. induction entries as [|e entries IH]; intros c; simpl; [done|]. by rewrite IH. Qed.

Lemma cat_sort_key_set_entries c entries :
  cat_sort_key (foldl set_entry c entries) = cat_sort_key c.
Proof. revert c. induction entries as [|e entries IH]; intros c; simpl; [done|]. by rewrite IH. Qed.

Lemma place_entries_nil node level entries :
  place_entries node [] level entries
  = <[level := foldl set_entry (default (new_category level) (node !! level)) entries]> node.
Proof. reflexivity. Qed.

Lemma place_entries_cons node l levels level entries :
  place_entries node (l :: levels) level entries
  = <[l := set_subcategories (default (new_category l) (node !! l))
             (place_entries (cat_subcategories (default (new_category l) (node !! l)))
                levels level entries)]> node.
Proof. reflexivity. Qed.

Lemma snoc_ne_nil {A} (l : list A) (x : A) : (l ++ [x])%list ≠ [].
Proof. by destruct l. Qed.

(** The node at the end of the walk exists afterwards. *)
Lemma place_entries_exists node levels level entries :
  is_Some (node_at (place_entries node levels level entries) (levels ++ [level])).
Proof.
  revert node. induction levels as [|l levels IH]; intros node.
  - rewrite place_entries_nil. cbn [app]. rewrite node_at_singleton, lookup_insert_eq. by eexists.
  - rewrite place_entries_cons. cbn [app].
    rewrite node_at_cons by apply snoc_ne_nil. rewrite lookup_insert_eq. cbn. apply IH.
Qed.

(** Nodes that exist before the walk exist after it. *)
Lemma place_entries_preserves node levels level entries path :
  is_Some (node_at node path) →
  is_Some (node_at (place_entries node levels level entries) path).
Proof.
  revert node path. induction levels as [|l levels IH]; intros node path.
  - rewrite place_entries_nil. destruct path as [|l' rest]; [done|].
    destruct (decide (l' = level)) as [->|Hne].
    + destruct (node !! level) as [c|] eqn:Hc; cbn [node_at]; rewrite Hc; [|by intros []].
      rewrite lookup_insert_eq. cbn. destruct rest; [by eexists|].
      by rewrite cat_subcategories_set_entries.
    + cbn [node_at]. by rewrite lookup_insert_ne.
  - rewrite place_entries_cons. destruct path as [|l' rest]; [done|].
    destruct (decide (l' = l)) as [->|Hne].
    + destruct (node !! l) as [c|] eqn:Hc; cbn [node_at]; rewrite Hc; [|by intros []].
      rewrite lookup_insert_eq. cbn. destruct rest; [by eexists|]. apply IH.
    + cbn [node_at]. by rewrite lookup_insert_ne.
Qed.

(** The walk changes the entries of the node it ends at, and of no other. *)
Lemma place_entries_entries node levels level entries path :
  entries_at (place_entries node levels level entries) path
  = if decide (path = (levels ++ [level])%list)
    then foldl insert_entry (entries_at node path) entries
    else entries_at node path.
Proof.
  unfold entries_at.
  revert node path. induction levels as [|l levels IH]; intros node path.
  - rewrite place_entries_nil. destruct path as [|l' rest].
    { by rewrite decide_False. }
    destruct (decide (l' = level)) as [->|Hne].
    + cbn [node_at app]. rewrite lookup_insert_eq. cbn.
      destruct rest as [|l'' rest].
      * rewrite decide_True by done. cbn. rewrite cat_entries_set_entries.
        by destruct (node !! level).
      * rewrite decide_False by done. rewrite cat_subcategories_set_entries.
        destruct (node !! level) as [c|]; cbn; [done|]. by rewrite lookup_empty.
    + cbn [node_at]. rewrite lookup_insert_ne by done.
      rewrite decide_False; [done|]. cbn. congruence.
  - rewrite place_entries_cons. destruct path as [|l' rest].
    { by rewrite decide_False. }
    destruct (decide (l' = l)) as [->|Hne].
    + cbn [node_at]. rewrite lookup_insert_eq. cbn.
      destruct rest as [|l'' rest].
      * rewrite decide_False by (cbn; intros [=]; by destruct levels).
        by destruct (node !! l).
      * specialize (IH (cat_subcategories (default (new_category l) (node !! l))) (l'' :: rest)).
        rewrite IH.
        destruct (decide (l'' :: rest = (levels ++ [level])%list)) as [Heq|Hneq].
        -- rewrite decide_True by (cbn; by rewrite Heq).
           destruct (node !! l) as [c|]; cbn; [done|]. by rewrite lookup_empty.
        -- rewrite decide_False by (cbn; congruence).
           destruct (node !! l) as [c|]; cbn; [done|]. by rewrite lookup_empty.
    + cbn [node_at]. rewrite lookup_insert_ne by done.
      rewrite decide_False; [done|]. cbn. congruence.
Qed.

(** Every tree in the forest has a ["sort_key"] at each of its nodes. *)
Definition forest_keyed (node : gmap string category) : Prop :=
  ∀ title c, node !! title = Some c → is_Some (cat_sort_key c) ∧ keyed_below c.

(** Every entry of the dict has a ["sort_key"]. *)
Definition entries_keyed (entries : gmap string entry) : Prop :=
  ∀ title e, entries !! title = Some e → is_Some (entry_sort_key e).

Lemma keyed_below_forest c :
  keyed_below c ↔ entries_keyed (cat_entries c) ∧ forest_keyed (cat_subcategories c).
Proof. split; [by intros [c' H1 H2]|intros [H1 H2]; by constructor]. Qed.

Lemma forest_keyed_empty : forest_keyed ∅.
Proof. intros title c. by rewrite lookup_empty. Qed.

Lemma entries_keyed_empty : entries_keyed ∅.
Proof. intros title e. by rewrite lookup_empty. Qed.

Lemma insert_entries_keyed entries es :
  entries_keyed entries → entries_keyed (foldl insert_entry entries es).
Proof.
  revert entries. induction es as [|e es IH]; intros entries Hkeyed; [done|].
  cbn [foldl]. apply IH. intros title e'. unfold insert_entry.
  destruct (decide (title = ue_title e)) as [->|Hne].
  - rewrite lookup_insert_eq. intros [= <-]. by eexists.
  - rewrite lookup_insert_ne by done. apply Hkeyed.
Qed.

Lemma new_category_keyed level : keyed_below (new_category level).
Proof.
  apply keyed_below_forest. split; [apply entries_keyed_empty|apply forest_keyed_empty].
Qed.

Lemma place_entries_keyed node levels level entries :
  forest_keyed node → forest_keyed (place_entries node levels level entries).
Proof.
  revert node. induction levels as [|l levels IH]; intros node Hnode title c.
  - rewrite place_entries_nil. destruct (decide (title = level)) as [->|Hne].
    + rewrite lookup_insert_eq. intros [= <-].
      rewrite cat_sort_key_set_entries, keyed_below_forest, cat_subcategories_set_entries,
        cat_entries_set_entries.
      destruct (node !! level) as [c|] eqn:Hc; cbn.
      * destruct (Hnode level c Hc) as [? [??]%keyed_below_forest].
        split; [done|]. split; [by apply insert_entries_keyed|done].
      * split; [by eexists|].
        split; [apply insert_entries_keyed, entries_keyed_empty|apply forest_keyed_empty].
    + rewrite lookup_insert_ne by done. apply Hnode.
  - rewrite place_entries_cons. destruct (decide (title = l)) as [->|Hne].
    + rewrite lookup_insert_eq. intros [= <-]. rewrite keyed_below_forest. cbn.
      destruct (node !! l) as [c|] eqn:Hc; cbn.
      * destruct (Hnode l c Hc) as [? [??]%keyed_below_forest].
        split; [done|]. split; [done|]. by apply IH.
      * split; [by eexists|]. split; [apply entries_keyed_empty|].
        apply IH, forest_keyed_empty.
    + rewrite lookup_insert_ne by done. apply Hnode.
Qed.

End UtilsPlacement.

Module UtilsDiscussionSpec.
Import Utils PyFacts PyStrings UtilsTreeFacts UtilsPlacement.

(** What [initialize_discussion_info] reads of a discussion module. *)
Record discussion_module := DiscussionModule {
  d_location : Location;
  d_id : string;
  d_category : string;
  d_title : string;
  d_sort_key : string }.

Definition discussion_record (item : Location * XModule) : option discussion_module :=
  if String.eqb (loc_category item.1) "discussion" then
    id ← metadata item.2 !! "id";
    category ← metadata item.2 !! "discussion_category";
    title ← metadata item.2 !! "for";
    Some (DiscussionModule item.1 id category title (get (metadata item.2) "sort_key" title))
  else None.

Definition discussion_records (items : list (Location * XModule)) : list discussion_module :=
  omap discussion_record items.

(** The path of a module in the category map: its category split on ['/'],
    each segment stripped. *)
Definition d_path (r : discussion_module) : list string :=
  strip <$> split "/" (d_category r).

Definition d_key (r : discussion_module) : string := join " / " (d_path r).

Definition d_entry (r : discussion_module) : unexpanded_entry :=
  UnexpandedEntry (d_title r) (d_id r) (d_sort_key r).

(** Every discussion module has the metadata that the loop indexes. *)
Definition well_formed (items : list (Location * XModule)) : Prop :=
  ∀ item, item ∈ items → loc_category item.1 = "discussion" →
    is_Some (metadata item.2 !! "id")
    ∧ is_Some (metadata item.2 !! "discussion_category")
    ∧ is_Some (metadata item.2 !! "for").

Definition record_module
    (acc : gmap string id_map_entry * gmap string (list unexpanded_entry))
    (r : discussion_module) : gmap string id_map_entry * gmap string (list unexpanded_entry) :=
  (<[d_id r := IdMapEntry (d_location r) (d_title r)]> acc.1,
   defaultdict_append acc.2 (d_key r) (d_entry r)).

Lemma collect_module_record acc item :
  (loc_category item.1 = "discussion" →
     is_Some (metadata item.2 !! "id")
     ∧ is_Some (metadata item.2 !! "discussion_category")
     ∧ is_Some (metadata item.2 !! "for")) →
  collect_module acc item
  = Ok (from_option (record_module acc) acc (discussion_record item)).
Proof.
  destruct acc as [idm un], item as [location module]. unfold collect_module, discussion_record.
  cbn [fst snd]. destruct (String.eqb_spec (loc_category location) "discussion") as [Hd|Hd].
  - intros Hwf. destruct (Hwf Hd) as ([id Hid] & [cat Hcat] & [title Htitle]).
    unfold getitem. rewrite Hid, Hcat, Htitle. reflexivity.
  - done.
Qed.

Lemma for_each_collect_module items acc :
  well_formed items →
  for_each collect_module acc items = Ok (foldl record_module acc (discussion_records items)).
Proof.
  revert acc. induction items as [|item items IH]; intros acc Hwf; [done|].
  cbn [for_each]. rewrite collect_module_record by (apply Hwf; left).
  rewrite bind_Ok, IH by (intros x Hx; apply Hwf; by right).
  unfold discussion_records. cbn [omap list_omap].
  by destruct (discussion_record item).
Qed.

Lemma for_each_collect_module_inv items acc res :
  for_each collect_module acc items = Ok res → well_formed items.
Proof.
  revert acc. induction items as [|item items IH]; intros acc Hres.
  - intros x Hx. by apply elem_of_nil in Hx.
  - cbn [for_each] in Hres. destruct (collect_module acc item) as [acc'|e] eqn:Hitem; [|done].
    rewrite bind_Ok in Hres. intros x [->|Hx]%elem_of_cons; [|by apply (IH acc')].
    intros Hd. destruct acc as [idm un], item as [location module].
    unfold collect_module, getitem in Hitem. cbn [fst snd] in *.
    rewrite Hd in Hitem. cbn in Hitem.
    destruct (metadata module !! "id"); [|done].
    destruct (metadata module !! "discussion_category"); [|done].
    destruct (metadata module !! "for"); [|done]. by repeat split.
Qed.

(** *** The two dicts filled by the first loop *)

Lemma last_filter_snoc {A} (P : A → Prop) `{!∀ x, Decision (P x)} (l : list A) (x : A) :
  last (filter P (l ++ [x])%list) = if decide (P x) then Some x else last (filter P l).
Proof.
  rewrite filter_app, filter_cons, filter_nil.
  destruct (decide (P x)); [by rewrite last_snoc|by rewrite app_nil_r].
Qed.

Lemma id_map_lookup (recs : list discussion_module) (id : string) :
  (foldl record_module (∅, ∅) recs).1 !! id
  = (λ r, IdMapEntry (d_location r) (d_title r)) <$> last (filter (λ r, d_id r = id) recs).
Proof.
  induction recs as [|r recs IH] using rev_ind.
  { cbn [foldl fst]. by rewrite lookup_empty, filter_nil. }
  rewrite foldl_snoc, last_filter_snoc. cbn [record_module fst].
  destruct (decide (d_id r = id)) as [->|Hne].
  - by rewrite lookup_insert_eq.
  - by rewrite lookup_insert_ne.
Qed.

Lemma unexpanded_lookup (recs : list discussion_module) (key : string) :
  get (foldl record_module (∅, ∅) recs).2 key []
  = d_entry <$> filter (λ r, d_key r = key) recs
  ∧ (is_Some ((foldl record_module (∅, ∅) recs).2 !! key)
     ↔ filter (λ r, d_key r = key) recs ≠ []).
Proof.
  unfold get. induction recs as [|r recs [IH1 IH2]] using rev_ind.
  { cbn. rewrite lookup_empty. split; [done|]. split; [by intros []|done]. }
  rewrite foldl_snoc, filter_app, filter_cons, filter_nil. cbn [record_module snd].
  unfold defaultdict_append. destruct (decide (d_key r = key)) as [->|Hne].
  - rewrite lookup_insert_eq. cbn. unfold get. rewrite IH1, fmap_app. split; [done|].
    split; [intros _; apply snoc_ne_nil|by eexists].
  - rewrite lookup_insert_ne, app_nil_r by done. done.
Qed.

Lemma unexpanded_items (recs : list discussion_module) key entries :
  (key, entries) ∈ map_to_list (foldl record_module (∅, ∅) recs).2 →
  entries = d_entry <$> filter (λ r, d_key r = key) recs
  ∧ ∃ r, r ∈ recs ∧ d_key r = key.
Proof.
  intros Hin%elem_of_map_to_list.
  destruct (unexpanded_lookup recs key) as [Hget Hsome]. unfold get in Hget.
  rewrite Hin in Hget. cbn in Hget. split; [done|].
  destruct (filter (λ r, d_key r = key) recs) as [|r rs] eqn:Hf.
  - exfalso. by apply (proj1 Hsome).
  - assert (r ∈ filter (λ r, d_key r = key) recs) as [??]%list_elem_of_filter
      by (rewrite Hf; left).
    by exists r.
Qed.

(** *** The second loop *)

Definition key_path (key : string) : list string := strip <$> split "/" key.

Lemma key_path_d_key r : key_path (d_key r) = d_path r.
Proof.
  unfold key_path, d_key, d_path. rewrite split_join_strip.
  - rewrite <-list_fmap_compose. apply list_fmap_ext. intros _ s _. apply strip_idemp.
  - pose proof (split_nonempty "/" (d_category r)). by destruct (split "/" (d_category r)).
  - apply Forall_fmap. eapply Forall_impl; [apply split_no_char|].
    intros s Hs. by apply strip_no_char.
Qed.

Lemma key_path_nonempty key : key_path key ≠ [].
Proof.
  unfold key_path. pose proof (split_nonempty "/" key). by destruct (split "/" key).
Qed.

Lemma removelast_last {A} (l : list A) (x : A) :
  last l = Some x → l = (removelast l ++ [x])%list.
Proof.
  intros [l' ->]%last_Some. by rewrite removelast_last.
Qed.

Definition place_group (node : gmap string category)
    (item : string * list unexpanded_entry) : gmap string category :=
  place_entries node (removelast (key_path item.1)) (default "" (last (key_path item.1))) item.2.

Lemma expand_category_place node item :
  expand_category node item = Ok (place_group node item).
Proof.
  destruct item as [key entries]. unfold expand_category, place_group, last_item.
  fold (key_path key). cbn [fst snd].
  destruct (last (key_path key)) as [level|] eqn:Hlast; [done|].
  apply last_None in Hlast. by apply key_path_nonempty in Hlast.
Qed.

Lemma for_each_expand_category groups node :
  for_each expand_category node groups = Ok (foldl place_group node groups).
Proof.
  revert node. induction groups as [|g groups IH]; intros node; [done|].
  cbn [for_each foldl]. by rewrite expand_category_place, bind_Ok, IH.
Qed.

Lemma key_path_split key :
  key_path key = (removelast (key_path key) ++ [default "" (last (key_path key))])%list.
Proof.
  destruct (last (key_path key)) as [level|] eqn:Hlast.
  - by apply removelast_last.
  - apply last_None in Hlast. by apply key_path_nonempty in Hlast.
Qed.

Lemma place_group_entries node item path :
  entries_at (place_group node item) path
  = if decide (path = key_path item.1)
    then foldl insert_entry (entries_at node path) item.2
    else entries_at node path.
Proof.
  unfold place_group. rewrite place_entries_entries, <-key_path_split. done.
Qed.

Lemma place_group_exists node item :
  is_Some (node_at (place_group node item) (key_path item.1)).
Proof.
  unfold place_group. rewrite (key_path_split item.1) at 3. apply place_entries_exists.
Qed.

Lemma place_groups_preserves groups node path :
  is_Some (node_at node path) → is_Some (node_at (foldl place_group node groups) path).
Proof.
  revert node. induction groups as [|g groups IH]; intros node H; [done|].
  cbn [foldl]. apply IH. by apply place_entries_preserves.
Qed.

Lemma place_groups_keyed groups node :
  forest_keyed node → forest_keyed (foldl place_group node groups).
Proof.
  revert node. induction groups as [|g groups IH]; intros node H; [done|].
  cbn [foldl]. apply IH. by apply place_entries_keyed.
Qed.

Lemma place_groups_other groups node path :
  path ∉ key_path <$> groups.*1 →
  entries_at (foldl place_group node groups) path = entries_at node path.
Proof.
  revert node. induction groups as [|g groups IH]; intros node Hnin; [done|].
  rewrite !fmap_cons in Hnin. apply not_elem_of_cons in Hnin as [Hne Hnin].
  cbn [foldl]. rewrite IH by done. rewrite place_group_entries.
  by rewrite decide_False.
Qed.

(** Whatever the order in which the groups are visited, as long as no two
    of them have the same path. *)
Lemma place_groups_entries groups node key entries :
  NoDup (key_path <$> groups.*1) →
  (key, entries) ∈ groups →
  is_Some (node_at (foldl place_group node groups) (key_path key))
  ∧ entries_at (foldl place_group node groups) (key_path key)
    = foldl insert_entry (entries_at node (key_path key)) entries.
Proof.
  revert node. induction groups as [|g groups IH]; intros node Hnd Hin.
  { by apply elem_of_nil in Hin. }
  rewrite !fmap_cons in Hnd. apply NoDup_cons in Hnd as [Hg Hnd].
  cbn [foldl]. apply elem_of_cons in Hin as [<-|Hin].
  - cbn [fst] in Hg. split.
    + apply place_groups_preserves, (place_group_exists node (key, entries)).
    + rewrite place_groups_other by done. rewrite place_group_entries.
      cbn [fst snd]. by rewrite decide_True.
  - destruct (IH (place_group node g) Hnd Hin) as [Hex Hent]. split; [done|].
    rewrite Hent, place_group_entries. rewrite decide_False; [done|].
    intros Heq. apply Hg. rewrite <-Heq.
    apply list_elem_of_fmap. exists key. split; [done|].
    apply list_elem_of_fmap. by exists (key, entries).
Qed.

Lemma insert_entries_lookup (rs : list discussion_module) (title : string) :
  foldl insert_entry ∅ (d_entry <$> rs) !! title
  = (λ r, Entry (d_id r) (d_sort_key r)) <$> last (filter (λ r, d_title r = title) rs).
Proof.
  induction rs as [|r rs IH] using rev_ind.
  { rewrite fmap_nil, filter_nil. cbn [foldl]. by rewrite lookup_empty. }
  rewrite fmap_app. change (d_entry <$> [r]) with [d_entry r].
  rewrite foldl_snoc, last_filter_snoc. unfold insert_entry at 1.
  cbn [d_entry ue_title ue_id ue_sort_key].
  destruct (decide (d_title r = title)) as [->|Hne].
  - by rewrite lookup_insert_eq.
  - by rewrite lookup_insert_ne.
Qed.

End UtilsDiscussionSpec.

Module UtilsDiscussionTheorems.
Import Utils PyFacts PyStrings UtilsTreeFacts UtilsPlacement UtilsDiscussionSpec.

Lemma node_at_sorted c c' path n :
  sort_map_entries c = Ok c' →
  node_at (cat_subcategories c) path = Some n →
  ∃ n', node_at (cat_subcategories c') path = Some n' ∧ sort_map_entries n = Ok n'.
Proof.
  revert c c'. induction path as [|level rest IH]; intros c c' Hc; [done|].
  apply sort_map_entries_Ok_inv in Hc as (_ & _ & Hsubs & _).
  cbn [node_at]. destruct (cat_subcategories c !! level) as [m|] eqn:Hm; [|done].
  assert (∃ m', cat_subcategories c' !! level = Some m' ∧ sort_map_entries m = Ok m')
    as (m' & Hm' & Hsort).
  { apply (f_equal (λ x, x !! level)) in Hsubs. rewrite !lookup_fmap, Hm in Hsubs.
    destruct (cat_subcategories c' !! level) as [m'|]; [|done].
    injection Hsubs as Hsubs. by exists m'. }
  rewrite Hm'. cbn. destruct rest as [|level' rest].
  - intros [= <-]. by exists m'.
  - intros Hn. by apply (IH m m').
Qed.

Lemma d_key_path_inj r1 r2 : key_path (d_key r1) = key_path (d_key r2) → d_key r1 = d_key r2.
Proof. rewrite !key_path_d_key. unfold d_key. by intros ->. Qed.

Lemma unexpanded_paths_NoDup (recs : list discussion_module) :
  NoDup (key_path <$> (map_to_list (foldl record_module (∅, ∅) recs).2).*1).
Proof.
  apply NoDup_fmap_2_strong; [|apply NoDup_fst_map_to_list].
  intros k1 k2 Hk1 Hk2 Heq.
  apply list_elem_of_fmap in Hk1 as ([k1' es1] & -> & Hin1).
  apply list_elem_of_fmap in Hk2 as ([k2' es2] & -> & Hin2).
  apply unexpanded_items in Hin1 as (_ & r1 & _ & <-).
  apply unexpanded_items in Hin2 as (_ & r2 & _ & <-).
  by apply d_key_path_inj.
Qed.

(** The modules that compete with [r] for its place in the category map,
    and for its place in the id map. *)
Abbreviation same_place r :=
  (λ r' : discussion_module, d_path r' = d_path r ∧ d_title r' = d_title r).

Abbreviation same_id r := (λ r' : discussion_module, d_id r' = d_id r).

Lemma build_discussion_info_spec items :
  well_formed items →
  ∃ info,
    build_discussion_info items = Ok info
    ∧ (∀ id, id_map info !! id
         = (λ r, IdMapEntry (d_location r) (d_title r))
             <$> last (filter (λ r, d_id r = id) (discussion_records items)))
    ∧ (∀ r, r ∈ discussion_records items →
         ∃ node,
           node_at (cat_subcategories (category_map info)) (d_path r) = Some node
           ∧ ∀ title, cat_entries node !! title
               = (λ r', Entry (d_id r') (d_sort_key r'))
                   <$> last (filter (λ r', d_path r' = d_path r ∧ d_title r' = title)
                               (discussion_records items))).
Proof.
  intros Hwf. unfold build_discussion_info.
  rewrite (for_each_collect_module items (∅, ∅) Hwf), bind_Ok.
  set (recs := discussion_records items).
  pose proof (id_map_lookup recs) as Hid.
  pose proof (unexpanded_items recs) as Hitems.
  pose proof (unexpanded_lookup recs) as Hun.
  pose proof (unexpanded_paths_NoDup recs) as Hnd.
  destruct (foldl record_module (∅, ∅) recs) as [idm un]. cbn [fst snd] in *.
  rewrite for_each_expand_category, bind_Ok.
  set (forest := foldl place_group ∅ (map_to_list un)).
  assert (Hkeyed : keyed_below (Category None ∅ forest None)).
  { apply keyed_below_forest. cbn. split; [apply entries_keyed_empty|].
    apply place_groups_keyed, forest_keyed_empty. }
  destruct (sort_map_entries_total _ Hkeyed) as [root Hroot].
  rewrite Hroot, bind_Ok. eexists. split; [reflexivity|]. cbn [id_map category_map].
  split; [done|]. intros r Hr.
  destruct (Hun (d_key r)) as [Hget Hsome].
  assert (Hne : filter (λ r', d_key r' = d_key r) recs ≠ []).
  { intros Hnil. assert (r ∈ filter (λ r', d_key r' = d_key r) recs) as Hin
      by (by apply list_elem_of_filter).
    rewrite Hnil in Hin. by apply elem_of_nil in Hin. }
  apply Hsome in Hne as [entries Hentries].
  assert (Hin : (d_key r, entries) ∈ map_to_list un) by (by apply elem_of_map_to_list).
  destruct (Hitems _ _ Hin) as [-> _].
  destruct (place_groups_entries (map_to_list un) ∅ _ _ Hnd Hin) as [[n Hn] Hent].
  fold forest in Hn, Hent. rewrite key_path_d_key in Hn, Hent.
  destruct (node_at_sorted _ _ _ _ Hroot Hn) as (n' & Hn' & Hsort).
  exists n'. split; [done|]. intros title.
  apply sort_map_entries_Ok_inv in Hsort as (_ & -> & _).
  unfold entries_at in Hent. rewrite Hn, node_at_empty in Hent. cbn in Hent.
  rewrite Hent, insert_entries_lookup, list_filter_filter. f_equal. f_equal.
  apply list_filter_iff. intros r'. unfold d_key. split.
  - intros [<- Hk]. split; [|done].
    rewrite <-(key_path_d_key r'), <-(key_path_d_key r). unfold d_key. by rewrite Hk.
  - intros [-> <-]. done.
Qed.

(** What [initialize_discussion_info] computes from the modules of the
    course, for each discussion module. *)
Lemma build_discussion_info_places_modules (items : list (Location * XModule)) :
  well_formed items →
  ∃ info,
    build_discussion_info items = Ok info
    ∧ ∀ r, r ∈ discussion_records items →
        (∃ node winner,
           node_at (cat_subcategories (category_map info)) (d_path r) = Some node
           ∧ last (filter (same_place r) (discussion_records items)) = Some winner
           ∧ cat_entries node !! d_title r = Some (Entry (d_id winner) (d_sort_key winner)))
        ∧ (∃ winner,
             last (filter (same_id r) (discussion_records items)) = Some winner
             ∧ id_map info !! d_id r
               = Some (IdMapEntry (d_location winner) (d_title winner))).
Proof.
  intros Hwf. destruct (build_discussion_info_spec items Hwf) as (info & Hinfo & Hid & Hcat).
  exists info. split; [done|]. intros r Hr. split.
  - destruct (Hcat r Hr) as (node & Hnode & Hentries).
    assert (is_Some (last (filter (same_place r) (discussion_records items)))) as [winner Hw].
    { apply last_is_Some. intros Hnil.
      assert (r ∈ filter (same_place r) (discussion_records items)) as Hin
        by (by apply list_elem_of_filter).
      rewrite Hnil in Hin. by apply elem_of_nil in Hin. }
    exists node, winner. split; [done|]. split; [done|].
    rewrite Hentries. by rewrite Hw.
  - assert (is_Some (last (filter (same_id r) (discussion_records items)))) as [winner Hw].
    { apply last_is_Some. intros Hnil.
      assert (r ∈ filter (same_id r) (discussion_records items)) as Hin
        by (by apply list_elem_of_filter).
      rewrite Hnil in Hin. by apply elem_of_nil in Hin. }
    exists winner. split; [done|]. rewrite Hid. by rewrite Hw.
Qed.

(** C1, as amended: when no discussion info is cached yet and the modules
    of the course, as [get_full_modules] gives them, are such that every
    discussion module has the metadata that the loop indexes,
    [initialize_discussion_info] returns with [_DISCUSSIONINFO] set to two
    maps, and for each discussion module of the course the category map has
    a node at the path obtained by splitting its ['discussion_category'] on
    ['/'] and stripping every segment. Under the module's ['for'] title this
    node holds the id and the sort key (the title when ['sort_key'] is
    absent) of the last discussion module, in iteration order, that has the
    same path and title; and under the module's id the id map holds the
    location and title of the last discussion module with that id. *)
Theorem initialize_discussion_info_places_modules (store : modules) (course : Course)
    (g : Globals) (items : list (Location * XModule)) :
  _DISCUSSIONINFO g = None →
  (get_full_modules store g).1 !! course_id course = Some items →
  well_formed items →
  ∃ info,
    initialize_discussion_info store course g
    = (Ok (), mkGlobals (_FULLMODULES (get_full_modules store g).2) (Some info))
    ∧ ∀ r, r ∈ discussion_records items →
        (∃ node winner,
           node_at (cat_subcategories (category_map info)) (d_path r) = Some node
           ∧ last (filter (same_place r) (discussion_records items)) = Some winner
           ∧ cat_entries node !! d_title r = Some (Entry (d_id winner) (d_sort_key winner)))
        ∧ (∃ winner,
             last (filter (same_id r) (discussion_records items)) = Some winner
             ∧ id_map info !! d_id r
               = Some (IdMapEntry (d_location winner) (d_title winner))).
Proof.
  intros Hnone Hitems Hwf.
  destruct (build_discussion_info_places_modules items Hwf) as (info & Hinfo & Hall).
  exists info. split; [|done].
  unfold initialize_discussion_info. rewrite Hnone.
  destruct (get_full_modules store g) as [full g1]. cbn [fst snd] in *.
  unfold getitem. by rewrite Hitems, Hinfo.
Qed.

(** The property in its first wording: every discussion module is found in both
    maps with its own id, sort key, location and title. *)
Definition records_every_module (items : list (Location * XModule)) (info : DiscussionInfo)
    : Prop :=
  ∀ r, r ∈ discussion_records items →
    (∃ node,
       node_at (cat_subcategories (category_map info)) (d_path r) = Some node
       ∧ cat_entries node !! d_title r = Some (Entry (d_id r) (d_sort_key r)))
    ∧ id_map info !! d_id r = Some (IdMapEntry (d_location r) (d_title r)).

(** It holds for the courses in which no two discussion modules share a
    category path and title, or an id. *)
Lemma records_every_module_when_distinct items :
  well_formed items →
  (∀ r r', r ∈ discussion_records items → r' ∈ discussion_records items →
           same_place r r' ∨ same_id r r' → r' = r) →
  ∃ info, build_discussion_info items = Ok info ∧ records_every_module items info.
Proof.
  intros Hwf Hdistinct.
  destruct (build_discussion_info_spec items Hwf) as (info & Hinfo & Hid & Hcat).
  exists info. split; [done|]. intros r Hr. split.
  - destruct (Hcat r Hr) as (node & Hnode & Hentries). exists node. split; [done|].
    rewrite Hentries.
    destruct (last (filter (same_place r) (discussion_records items))) as [w|] eqn:Hw.
    + apply last_Some_elem_of, list_elem_of_filter in Hw as [Hp Hin].
      by rewrite (Hdistinct r w Hr Hin (or_introl Hp)).
    + apply last_None in Hw.
      assert (r ∈ filter (same_place r) (discussion_records items)) as Hin
        by (by apply list_elem_of_filter).
      rewrite Hw in Hin. by apply elem_of_nil in Hin.
  - rewrite Hid.
    destruct (last (filter (same_id r) (discussion_records items))) as [w|] eqn:Hw.
    + apply last_Some_elem_of, list_elem_of_filter in Hw as [Hp Hin].
      by rewrite (Hdistinct r w Hr Hin (or_intror Hp)).
    + apply last_None in Hw.
      assert (r ∈ filter (same_id r) (discussion_records items)) as Hin
        by (by apply list_elem_of_filter).
      rewrite Hw in Hin. by apply elem_of_nil in Hin.
Qed.

Definition discussion_at (name id category title : string) : Location * XModule :=
  (mkLocation "org" "course" "discussion" name,
   mkXModule (<["id" := id]> (<["discussion_category" := category]> {[ "for" := title ]}))).

(** Two discussion modules with the same category and the same title. *)
Definition first_module : Location * XModule :=
  discussion_at "d1" "id1" "General" "Welcome".
Definition second_module : Location * XModule :=
  discussion_at "d2" "id2" "General" "Welcome".
(** A third one, alone at its place; its category is written with blanks. *)
Definition third_module : Location * XModule :=
  discussion_at "d3" "id3" " Week 1 /Lecture " "Questions".

Lemma discussion_at_well_formed (items : list (Location * XModule)) :
  Forall (λ item, ∃ name id category title, item = discussion_at name id category title) items →
  well_formed items.
Proof.
  intros Hall item Hin _. rewrite Forall_forall in Hall.
  destruct (Hall item Hin) as (name & id & category & title & ->).
  unfold discussion_at. cbn [snd metadata]. repeat split.
  - rewrite lookup_insert_eq. by eexists.
  - rewrite lookup_insert_ne, lookup_insert_eq by done. by eexists.
  - rewrite lookup_insert_ne, lookup_insert_ne, lookup_singleton_eq by done. by eexists.
Qed.

(** The module store with one course, whose modules are [items]. *)
Definition store_of (items : list (Location * XModule)) : modules :=
  {[ "org/course/run" := items ]}.

(** The third module is found under ["Week 1"], then ["Lecture"]. *)
Lemma initialize_discussion_info_places_modules_witness :
  ∃ info node,
    initialize_discussion_info (store_of [first_module; second_module; third_module])
      (mkCourse "org/course/run") (mkGlobals None None)
    = (Ok (), mkGlobals (Some (store_of [first_module; second_module; third_module]))
                (Some info))
    ∧ node_at (cat_subcategories (category_map info)) ["Week 1"; "Lecture"] = Some node
    ∧ cat_entries node !! "Questions" = Some (Entry "id3" "Questions")
    ∧ id_map info !! "id3"
      = Some (IdMapEntry (mkLocation "org" "course" "discussion" "d3") "Questions").
Proof.
  destruct (initialize_discussion_info_places_modules
              (store_of [first_module; second_module; third_module])
              (mkCourse "org/course/run") (mkGlobals None None)
              [first_module; second_module; third_module] eq_refl)
    as (info & Hinfo & Hall).
  - vm_compute. reflexivity.
  - apply discussion_at_well_formed. repeat constructor; by eexists _, _, _, _.
  - set (r := DiscussionModule (mkLocation "org" "course" "discussion" "d3")
                "id3" " Week 1 /Lecture " "Questions" "Questions").
    destruct (Hall r) as [(node & w1 & Hnode & Hw1 & He) (w2 & Hw2 & Hi)].
    { vm_compute. right. right. left. }
    assert (w1 = r) as -> by (vm_compute in Hw1; injection Hw1 as <-; reflexivity).
    assert (w2 = r) as -> by (vm_compute in Hw2; injection Hw2 as <-; reflexivity).
    exists info, node. split; [exact Hinfo|]. split; [exact Hnode|]. split; [exact He|exact Hi].
Defined.

(** Of two modules with the same category and title, in either order, one
    is not found under its title with its own id in the maps that
    [initialize_discussion_info] stores: the property in its first wording
    fails. *)
Lemma initialize_discussion_info_overwrites_same_title :
  (∃ info, build_discussion_info [first_module; second_module] = Ok info
           ∧ initialize_discussion_info (store_of [first_module; second_module])
               (mkCourse "org/course/run") (mkGlobals None None)
             = (Ok (), mkGlobals (Some (store_of [first_module; second_module])) (Some info))
           ∧ ¬ records_every_module [first_module; second_module] info)
  ∧ (∃ info, build_discussion_info [second_module; first_module] = Ok info
             ∧ initialize_discussion_info (store_of [second_module; first_module])
                 (mkCourse "org/course/run") (mkGlobals None None)
               = (Ok (), mkGlobals (Some (store_of [second_module; first_module])) (Some info))
             ∧ ¬ records_every_module [second_module; first_module] info).
Proof.
  split.
  - eexists. split; [vm_compute; reflexivity|]. split; [vm_compute; reflexivity|].
    intros Hall.
    destruct (Hall (DiscussionModule (mkLocation "org" "course" "discussion" "d1")
                      "id1" "General" "Welcome" "Welcome")) as [(node & Hnode & He) _].
    { vm_compute. left. }
    vm_compute in Hnode. injection Hnode as <-. vm_compute in He. discriminate He.
  - eexists. split; [vm_compute; reflexivity|]. split; [vm_compute; reflexivity|].
    intros Hall.
    destruct (Hall (DiscussionModule (mkLocation "org" "course" "discussion" "d2")
                      "id2" "General" "Welcome" "Welcome")) as [(node & Hnode & He) _].
    { vm_compute. left. }
    vm_compute in Hnode. injection Hnode as <-. vm_compute in He. discriminate He.
Qed.

End UtilsDiscussionTheorems.

(** * saml.py: properties *)

Module SamlAuthSpec.
Import Saml.

Section Wrapping.
Context {St LoginArgs LoginRes RespArgs RespRes : Type}.
Variable super_create :
  SAMLIdentityProvider → OneLogin_Saml2_Auth St LoginArgs LoginRes RespArgs RespRes.
Variable current : string → SAMLProviderConfig.

(** What "only adds logging" means for a handler [wrapped] that stands for
    [original]: same result, same instance state, and the same log followed
    by at most one INFO record. *)
Definition only_adds_logging {Args Res}
    (original wrapped : Args → St * list log_record → result Res * (St * list log_record))
    : Prop :=
  ∀ args w,
    (wrapped args w).1 = (original args w).1
    ∧ (wrapped args w).2.1 = (original args w).2.1
    ∧ ∃ extra, (wrapped args w).2.2 = ((original args w).2.2 ++ extra)%list
               ∧ Forall (λ r, log_lvl r = INFO) extra
               ∧ (length extra ≤ 1)%nat.

Lemma wrapped_method_only_adds_logging {Args Res} idp
    (method : Args → St * list log_record → result Res * (St * list log_record))
    action xml_getter :
  only_adds_logging method (wrapped_method idp method action xml_getter).
Proof.
  intros args w. unfold wrapped_method.
  destruct (method args w) as [[result|e] [st log]]; simpl.
  - split; [done|]. split; [done|]. eexists. split; [reflexivity|].
    split; [by repeat constructor|simpl; lia].
  - split; [done|]. split; [done|]. exists []. rewrite app_nil_r. 
    split; [done|]. split; [constructor|simpl; lia].
Qed.

(** C4: when the current configuration of the provider has [debug_mode]
    set, [login] and [process_response] of the instance that
    [_create_saml_auth] returns give, for the same arguments and from the
    same state, the same result and the same instance state as the methods
    of the instance made by the superclass, and the same log followed by at
    most one INFO record; the two getters are unchanged. When [debug_mode]
    is unset the instance of the superclass is returned as it is. *)
Theorem create_saml_auth_debug_wrapping (idp : SAMLIdentityProvider) :
  let original := super_create idp in
  let auth_inst := _create_saml_auth super_create current idp in
  if debug_mode (current (idp_name idp)) then
    only_adds_logging (login original) (login auth_inst)
    ∧ only_adds_logging (process_response original) (process_response auth_inst)
    ∧ get_last_request_xml auth_inst = get_last_request_xml original
    ∧ get_last_response_xml auth_inst = get_last_response_xml original
  else auth_inst = original.
Proof.
  intros original auth_inst. subst original auth_inst. unfold _create_saml_auth.
  destruct (debug_mode (current (idp_name idp))); [|done].
  simpl. repeat split; try apply wrapped_method_only_adds_logging; done.
Qed.

End Wrapping.
(** An auth instance whose state counts the requests it has handled. *)
Definition counting_auth (idp : SAMLIdentityProvider)
    : OneLogin_Saml2_Auth nat string string string string :=
  mkAuth (λ args w, (Ok ("redirect:" ++ args), (S w.1, w.2)))
         (λ args w, (Raise ValueError, w))
         (λ st, "<AuthnRequest/>") (λ st, "<Response/>").

(** In debug mode [login] answers as before and logs the request XML; out
    of debug mode the instance is the one of the superclass. *)
Lemma create_saml_auth_debug_wrapping_witness :
  let auth_inst := _create_saml_auth counting_auth (λ _, mkSAMLProviderConfig true)
                     (mkIdp "idp") in
  login auth_inst "next" (0, [])
  = (Ok "redirect:next",
     (1, [LogRecord INFO ("SAML login %s for IdP %s. XML is:" ++ line_feed ++ "%s")
            [ArgStr "request"; ArgStr "idp"; ArgStr "<AuthnRequest/>"]]))
  ∧ (∀ args w, (login auth_inst args w).1 = (login (counting_auth (mkIdp "idp")) args w).1)
  ∧ _create_saml_auth counting_auth (λ _, mkSAMLProviderConfig false) (mkIdp "idp")
    = counting_auth (mkIdp "idp").
Proof.
  pose proof (create_saml_auth_debug_wrapping counting_auth
                (λ _, mkSAMLProviderConfig true) (mkIdp "idp")) as Hdebug.
  pose proof (create_saml_auth_debug_wrapping counting_auth
                (λ _, mkSAMLProviderConfig false) (mkIdp "idp")) as Hplain.
  cbv zeta in Hdebug, Hplain. cbn [debug_mode] in Hdebug, Hplain.
  destruct Hdebug as (Hlogin & _).
  intros auth_inst. split; [reflexivity|]. split; [|exact Hplain].
  intros args w. apply Hlogin.
Defined.

End SamlAuthSpec.

Module SamlMappingSpec.
Import Saml PyFacts.

Section Mappings.
Variable countries : list (string * string).

(** What one override does to the field it names, given the mappings
    [base] that the loop of [value_mappings] has reached. *)
Definition override_field (base : gmap string jval) (field : string)
    (override : gmap string jval) : result jval :=
  match base !! field with
  | Some (JDict d) => Ok (JDict (override ∪ d))
  | Some _ => Raise (AttributeError "update")
  | None => getitem override field
  end.

Lemma apply_override_field base field override :
  apply_override base (field, override)
  = v ← override_field base field override; Ok (<[field := v]> base).
Proof.
  unfold apply_override, override_field.
  destruct (base !! field) as [[]|]; try done.
Qed.

Lemma override_field_insert_ne base f v field override :
  f ≠ field →
  override_field (<[f := v]> base) field override = override_field base field override.
Proof. intros Hne. unfold override_field. by rewrite lookup_insert_ne. Qed.

Lemma for_each_override_Ok (l : list (string * gmap string jval)) (base : gmap string jval) :
  NoDup l.*1 →
  (∀ f o, (f, o) ∈ l → ∃ v, override_field base f o = Ok v) →
  ∃ res, for_each apply_override base l = Ok res
    ∧ ∀ f, res !! f =
        match (list_to_map l : gmap string (gmap string jval)) !! f with
        | Some o => result_value (override_field base f o)
        | None => base !! f
        end.
Proof.
  revert base. induction l as [|[f o] l IH]; intros base Hnd Hok.
  - exists base. split; [done|]. intros f. cbn [list_to_map foldr]. by rewrite lookup_empty.
  - rewrite fmap_cons in Hnd. apply NoDup_cons in Hnd as [Hf Hnd]. cbn [fst] in Hf.
    cbn [for_each]. rewrite apply_override_field.
    destruct (Hok f o) as [v Hv]; [left|]. rewrite Hv.
    rewrite !bind_Ok.
    destruct (IH (<[f := v]> base) Hnd) as (res & Hres & Hlook).
    { intros f' o' Hin. rewrite override_field_insert_ne.
      - apply Hok. by right.
      - intros ->. apply Hf. apply list_elem_of_fmap. by exists (f', o'). }
    exists res. split; [done|]. intros f'. rewrite Hlook, list_to_map_cons. cbn [fst snd].
    destruct (decide (f = f')) as [<-|Hne].
    + rewrite lookup_insert_eq.
      rewrite (not_elem_of_list_to_map_1 l f) by done.
      by rewrite lookup_insert_eq, Hv.
    + rewrite (lookup_insert_ne (list_to_map l) f f') by done.
      rewrite (lookup_insert_ne base f f') by done.
      destruct (list_to_map l !! f') as [o'|] eqn:Ho'; [|done].
      by rewrite override_field_insert_ne.
Qed.

Lemma for_each_override_Raise (l : list (string * gmap string jval)) (base : gmap string jval)
    f o e :
  NoDup l.*1 → (f, o) ∈ l → override_field base f o = Raise e →
  ∃ e', for_each apply_override base l = Raise e'.
Proof.
  revert base. induction l as [|[f' o'] l IH]; intros base Hnd Hin He.
  - by apply elem_of_nil in Hin.
  - rewrite fmap_cons in Hnd. apply NoDup_cons in Hnd as [Hf Hnd]. cbn [fst] in Hf.
    cbn [for_each]. rewrite apply_override_field.
    apply elem_of_cons in Hin as [[= <- <-]|Hin].
    + rewrite He. by eexists.
    + destruct (override_field base f' o') as [v|e0] eqn:Hv; [|by eexists].
      rewrite !bind_Ok.
      apply (IH (<[f' := v]> base) Hnd Hin).
      rewrite override_field_insert_ne; [done|].
      intros ->. apply Hf. apply list_elem_of_fmap. by exists (f, o).
Qed.

Lemma default_value_mapping_lookup f :
  default_value_mapping countries !! f =
    if decide (f = "United States") then Some (JStr "US")
    else if decide (f = "country") then Some (JDict (country_codes countries))
    else None.
Proof.
  unfold default_value_mapping.
  destruct (decide (f = "United States")) as [->|Hus]; [by rewrite lookup_insert_eq|].
  rewrite lookup_insert_ne by done.
  destruct (decide (f = "country")) as [->|Hc]; [by rewrite lookup_insert_eq|].
  by rewrite lookup_insert_ne, lookup_empty.
Qed.

(** The behaviour described for [value_mappings], on the configurations that do
    not override the field ['United States']. *)
Lemma value_mappings_merges (conf : Conf) :
  let overrides := default ∅ (sapsf_value_mappings conf) in
  overrides !! "United States" = None →
  (∀ f o, overrides !! f = Some o → f ≠ "country" → is_Some (o !! f)) →
  ∃ mappings,
    value_mappings countries conf = Ok mappings
    ∧ ∀ f, mappings !! f =
        match overrides !! f with
        | Some o =>
            if decide (f = "country") then Some (JDict (o ∪ country_codes countries))
            else o !! f
        | None => default_value_mapping countries !! f
        end.
Proof.
  intros overrides Hus Hown. unfold value_mappings. fold overrides.
  destruct (for_each_override_Ok (map_to_list overrides) (default_value_mapping countries))
    as (res & Hres & Hlook).
  - apply NoDup_fst_map_to_list.
  - intros f o Hin%elem_of_map_to_list. unfold override_field.
    rewrite default_value_mapping_lookup.
    destruct (decide (f = "United States")) as [->|_]; [congruence|].
    destruct (decide (f = "country")) as [->|Hc]; [by eexists|].
    destruct (Hown f o Hin Hc) as [v Hv]. exists v. unfold getitem. by rewrite Hv.
  - exists res. split; [done|]. intros f. rewrite Hlook, list_to_map_to_list.
    destruct (overrides !! f) as [o|] eqn:Ho; [|done].
    unfold override_field. rewrite default_value_mapping_lookup.
    destruct (decide (f = "United States")) as [->|_]; [congruence|].
    destruct (decide (f = "country")) as [->|Hc]; [done|].
    unfold getitem. by destruct (o !! f).
Qed.

Lemma value_mappings_KeyError (conf : Conf) f o :
  default ∅ (sapsf_value_mappings conf) !! f = Some o →
  f ≠ "country" → f ≠ "United States" → o !! f = None →
  ∃ e, value_mappings countries conf = Raise e.
Proof.
  intros Hf Hc Hus Ho. unfold value_mappings.
  apply (for_each_override_Raise _ _ f o (KeyError f)).
  - apply NoDup_fst_map_to_list.
  - by apply elem_of_map_to_list.
  - unfold override_field. rewrite default_value_mapping_lookup.
    rewrite decide_False, decide_False by done. unfold getitem. by rewrite Ho.
Qed.

(** C10: accessing [value_mappings] with an override for the field
    ['United States'] raises AttributeError, whatever the override. The
    field is present in the default value mapping (line 159 adds it to the
    outer dict), bound to the string ['US'], which has no [update]: the
    override is neither merged nor installed. *)
Theorem value_mappings_united_states_override (override : gmap string jval) :
  value_mappings countries
    (mkConf ∅ None None (Some {[ "United States" := override ]}) None)
  = Raise (AttributeError "update").
Proof.
  unfold value_mappings. simpl. rewrite map_to_list_singleton. reflexivity.
Qed.

End Mappings.

End SamlMappingSpec.

Module SamlFieldsSpec.
Import Saml PyFacts.

Section Fields.
Variable countries : list (string * string).

(** The values that the loop of [get_registration_fields] can look up in
    a mapping. In a dict every value but a dict can be looked up (a dict is
    not hashable). A mapping that is a string (as the one that line 159
    binds to ['United States']) only lets its own non-substrings through:
    [value in mapping] holds of a substring, and [mapping[value]] then
    raises. Nothing can be looked up in [None] or in a number. *)
Definition translatable (mapping value : jval) : Prop :=
  match mapping, value with
  | JDict _, JDict _ => False
  | JDict _, _ => True
  | JStr s, JStr v => contains v s = false
  | _, _ => False
  end.



Lemma translate_value_not_translatable value_mapping field mapping value :
  value_mapping !! field = Some mapping → ¬ translatable mapping value →
  translate_value value_mapping field value = Raise TypeError.
Proof.
  intros Hm Hnot. unfold translate_value. rewrite Hm.
  destruct mapping as [| |s|m], value as [| |v|]; try done; try (by destruct Hnot).
  unfold py_in. rewrite bind_Ok. cbn in Hnot.
  destruct (contains v s); [done|]. by destruct Hnot.
Qed.






End Fields.





End SamlFieldsSpec.

Module SamlDetailsSpec.
Import Saml PyFacts.

Section Details.
Variable saml_details : Conf → gmap string (list string) → SamlDetails.
Variable countries : list (string * string).
Variable session_post : string → list (string * option string) → Z → result Response.
Variable session_get : Session → string → Z → result Response.

#[local] Abbreviation edx_details := (EdXSAMLIdentityProvider_get_user_details saml_details).
#[local] Abbreviation sap_details :=
  (get_user_details saml_details countries session_post session_get).
#[local] Abbreviation exchange := (odata_exchange session_post session_get).

(** All five required variables are keys of [conf]. *)
Definition complete (conf : Conf) : Prop :=
  ∀ var, var ∈ required_variables → is_Some (settings conf !! var).

Lemma in_conf_spec conf var : in_conf conf var = true ↔ is_Some (settings conf !! var).
Proof. unfold in_conf. apply bool_decide_eq_true. Qed.

Lemma complete_forallb conf :
  forallb (in_conf conf) required_variables = true ↔ complete conf.
Proof.
  rewrite forallb_forall. unfold complete. split.
  - intros H var Hin. apply in_conf_spec, H. by apply list_elem_of_In.
  - intros H var Hin. apply in_conf_spec, H. by apply list_elem_of_In.
Qed.

Lemma missing_variables_complete conf log :
  complete conf → missing_variables conf log = (None, log).
Proof.
  intros H%complete_forallb. unfold missing_variables. by rewrite H.
Qed.

Lemma missing_variables_incomplete conf log :
  ¬ complete conf →
  ∃ var missing record,
    missing_variables conf log = (Some (var :: missing), (log ++ [record])%list)
    ∧ log_lvl record = WARNING.
Proof.
  intros H. unfold missing_variables.
  destruct (forallb (in_conf conf) required_variables) eqn:Hall.
  { by apply complete_forallb in Hall. }
  cbn [negb].
  destruct (List.filter (λ var, negb (in_conf conf var)) required_variables)
    as [|var missing] eqn:Hf.
  - exfalso. apply not_true_iff_false in Hall. apply Hall, forallb_forall.
    intros var Hin. destruct (in_conf conf var) eqn:Hv; [done|].
    assert (In var (List.filter (λ var, negb (in_conf conf var)) required_variables)) as Hin'
      by (apply filter_In; by rewrite Hv).
    by rewrite Hf in Hin'.
  - eexists _, _, _. split; reflexivity.
Qed.

Lemma edx_details_username conf attributes details :
  edx_details conf attributes = Ok details → is_Some (details !! "username").
Proof.
  unfold EdXSAMLIdentityProvider_get_user_details.
  destruct (for_each _ ∅ _) as [extra|e]; [|done].
  rewrite bind_Ok. intros [= <-]. apply lookup_union_is_Some. right.
  unfold details_dict. rewrite lookup_insert_ne, lookup_insert_eq by done. by eexists.
Qed.

(** The details of the SAML assertion, as [get_user_details] returns them. *)
Definition saml_assertion_details (details : gmap string (option string)) : gmap string jval :=
  jval_of_detail <$> details.

(** When a required variable is missing, the SAML details are returned. *)
Lemma get_user_details_missing conf attributes log details :
  ¬ complete conf →
  edx_details conf attributes = Ok details →
  (sap_details conf attributes log).1 = Ok (saml_assertion_details details).
Proof.
  intros Hmiss Hd. unfold get_user_details. rewrite Hd.
  destruct (missing_variables_incomplete conf log Hmiss) as (var & missing & record & -> & _).
  done.
Qed.

(** With all variables present, the outcome is decided by the exchange
    with the OData API and, when it fails, by the handler. *)
Lemma get_user_details_complete conf attributes log details :
  complete conf →
  edx_details conf attributes = Ok details →
  ∃ username odata_api_url,
    details !! "username" = Some username
    ∧ sap_details conf attributes log =
        match exchange conf username odata_api_url with
        | Ok response => (get_registration_fields countries conf response, log)
        | Raise (RequestException err) =>
            match log_request_error conf username odata_api_url err with
            | Raise e => (Raise e, log)
            | Ok record => (Ok (saml_assertion_details details), (log ++ [record])%list)
            end
        | Raise e => (Raise e, log)
        end.
Proof.
  intros Hc Hd. unfold get_user_details. rewrite Hd, (missing_variables_complete _ _ Hc).
  destruct (edx_details_username _ _ _ Hd) as [username Hu].
  destruct (Hc "odata_api_root_url") as [root Hroot].
  { unfold required_variables. set_solver. }
  unfold odata_api_root_url, getitem. rewrite Hu, Hroot, !bind_Ok.
  by eexists _, _.
Qed.

Lemma log_request_error_Ok conf username url err msg :
  complete conf → system_message err = Ok msg →
  ∃ record, log_request_error conf username url err = Ok record.
Proof.
  intros Hc Hmsg. unfold log_request_error. rewrite Hmsg, bind_Ok.
  destruct (Hc "odata_company_id") as [company Hcompany].
  { unfold required_variables. set_solver. }
  unfold odata_company_id, getitem. rewrite Hcompany, bind_Ok. by eexists.
Qed.

(** When the exchange raises a RequestException whose system message can be
    read, the SAML details are returned. *)
Lemma get_user_details_request_exception conf attributes log details :
  complete conf →
  edx_details conf attributes = Ok details →
  ∃ username odata_api_url,
    details !! "username" = Some username
    ∧ ∀ err msg,
        exchange conf username odata_api_url = Raise (RequestException err) →
        system_message err = Ok msg →
        (sap_details conf attributes log).1 = Ok (saml_assertion_details details).
Proof.
  intros Hc Hd.
  destruct (get_user_details_complete conf attributes log details Hc Hd)
    as (username & url & Hu & Heq).
  exists username, url. split; [done|]. intros err msg Hex Hmsg.
  rewrite Heq, Hex.
  by destruct (log_request_error_Ok conf username url err msg Hc Hmsg) as [record ->].
Qed.

(** Registration fields are returned only from a successful exchange. *)
Lemma get_user_details_success conf attributes log details :
  complete conf →
  edx_details conf attributes = Ok details →
  ∃ username odata_api_url,
    details !! "username" = Some username
    ∧ ∀ response,
        exchange conf username odata_api_url = Ok response →
        (sap_details conf attributes log).1 = get_registration_fields countries conf response.
Proof.
  intros Hc Hd.
  destruct (get_user_details_complete conf attributes log details Hc Hd)
    as (username & url & Hu & Heq).
  exists username, url. split; [done|]. intros response Hex. by rewrite Heq, Hex.
Qed.

End Details.

(** A complete configuration, and a transport that gives up after too many
    redirects: the exception carries the last redirect response, whose
    status is below 400 and whose body is not JSON. *)
Definition redirect_conf : Conf :=
  mkConf (<["sapsf_oauth_root_url" := "https://sap.example/oauth/"]>
         (<["sapsf_private_key" := "key"]>
         (<["odata_api_root_url" := "https://sap.example/odata/v2/"]>
         (<["odata_company_id" := "acme"]>
         (<["odata_client_id" := "client"]> ∅)))))
         None None None None.

Definition too_many_redirects : RequestError :=
  mkRequestError "Exceeded 30 redirects."
    (Some (mkResponse 302 "Found" "https://sap.example/oauth/idp" "<html></html>" None)).

Definition redirecting_post (url : string) (data : list (string * option string))
    (timeout : Z) : result Response :=
  Raise (RequestException too_many_redirects).

Definition unused_get (client : Session) (url : string) (timeout : Z) : result Response :=
  Raise (RequestException too_many_redirects).

Definition jdoe_details (conf : Conf) (attributes : gmap string (list string)) : SamlDetails :=
  mkSamlDetails None None None (Some "jdoe") None.

(** C3: the handler does not always return the details of the SAML
    assertion when the exchange raises a RequestException. With a complete
    configuration and a transport that raises [too_many_redirects], the
    exchange raises that exception, reading its system message raises
    ValueError inside the handler, and [get_user_details] ends with this
    ValueError instead of returning the details. *)
Theorem get_user_details_handler_raises :
  (∀ username odata_api_url,
     odata_exchange redirecting_post unused_get redirect_conf username odata_api_url
     = Raise (RequestException too_many_redirects))
  ∧ system_message too_many_redirects = Raise ValueError
  ∧ EdXSAMLIdentityProvider_get_user_details jdoe_details redirect_conf ∅
    = Ok (details_dict (jdoe_details redirect_conf ∅))
  ∧ get_user_details jdoe_details [] redirecting_post unused_get redirect_conf ∅ []
    = (Raise ValueError, []).
Proof.
  split; [|split; [|split]].
  - intros username odata_api_url. reflexivity.
  - reflexivity.
  - vm_compute. reflexivity.
  - vm_compute. reflexivity.
Qed.

End SamlDetailsSpec.

(** * video_pipeline: properties *)

Module VideoPipelineSpec.
Import VideoPipeline.

(** C7: [update_3rd_party_transcription_service_credentials] answers
    [False] and posts nothing when the integration is disabled, and when the
    service user is not registered; with the integration enabled and the
    user registered it posts exactly the given payload, answers [True] and
    logs nothing when the request succeeds, and answers [False] after
    logging the error content with [log.exception] when the request raises
    HttpClientError. *)
Theorem update_credentials_outcomes (users : gset string)
    (post : gmap string string → result unit)
    (integration : VideoPipelineIntegration) (payload : gmap string string) :
  let outcome := update_3rd_party_transcription_service_credentials users post integration payload in
  (enabled integration = false → outcome.1 = Ok false ∧ posted outcome.2 = [])
  ∧ (service_username integration ∉ users → outcome.1 = Ok false ∧ posted outcome.2 = [])
  ∧ (enabled integration = true → service_username integration ∈ users →
       post payload = Ok () →
       outcome = (Ok true, mkTrace [payload] []))
  ∧ (enabled integration = true → service_username integration ∈ users →
       ∀ content, post payload = Raise (HttpClientError content) →
       outcome = (Ok false,
                  mkTrace [payload]
                    [LogRecord EXCEPTION
                       "[video-pipeline-service] Unable to update transcript credentials -- response -- %s"
                       [ArgStr content]])).
Proof.
  intros outcome. subst outcome.
  unfold update_3rd_party_transcription_service_credentials, get_service_user.
  split; [|split; [|split]].
  - intros ->. by split.
  - intros Hnin. destruct (enabled integration); [|by split].
    rewrite bool_decide_eq_false_2 by done. by split.
  - intros -> Hin ->. by rewrite bool_decide_eq_true_2.
  - intros -> Hin content ->. by rewrite bool_decide_eq_true_2.
Qed.

Definition sample_integration : VideoPipelineIntegration :=
  mkIntegration true "video_worker" "https://pipeline.example/api".
Definition sample_payload : gmap string string :=
  <["api_key" := "12345678"]> {[ "username" := "Jason_cielo_24" ]}.

(** The four situations of the tests. *)
Lemma update_credentials_outcomes_witness :
  (update_3rd_party_transcription_service_credentials {[ "video_worker" ]}
     (λ _, Ok ()) (mkIntegration false "video_worker" "https://pipeline.example/api")
     sample_payload).1 = Ok false
  ∧ (update_3rd_party_transcription_service_credentials ∅
       (λ _, Ok ()) sample_integration sample_payload).1 = Ok false
  ∧ update_3rd_party_transcription_service_credentials {[ "video_worker" ]}
      (λ _, Ok ()) sample_integration sample_payload
    = (Ok true, mkTrace [sample_payload] [])
  ∧ (update_3rd_party_transcription_service_credentials {[ "video_worker" ]}
       (λ _, Raise (HttpClientError "invalid_credentials")) sample_integration
       sample_payload).1 = Ok false.
Proof.
  pose proof (update_credentials_outcomes {[ "video_worker" ]} (λ _, Ok ())
                (mkIntegration false "video_worker" "https://pipeline.example/api")
                sample_payload) as (Hdisabled & _).
  pose proof (update_credentials_outcomes ∅ (λ _, Ok ()) sample_integration sample_payload)
    as (_ & Hunknown & _).
  pose proof (update_credentials_outcomes {[ "video_worker" ]} (λ _, Ok ())
                sample_integration sample_payload) as (_ & _ & Hposted & _).
  pose proof (update_credentials_outcomes {[ "video_worker" ]}
                (λ _, Raise (HttpClientError "invalid_credentials"))
                sample_integration sample_payload) as (_ & _ & _ & Herror).
  assert (Hregistered : service_username sample_integration ∈ ({[ "video_worker" ]} : gset string))
    by (by apply elem_of_singleton).
  split; [|split; [|split]].
  - apply Hdisabled. reflexivity.
  - apply Hunknown. apply not_elem_of_empty.
  - apply Hposted; [reflexivity|exact Hregistered|reflexivity].
  - rewrite (Herror eq_refl Hregistered "invalid_credentials" eq_refl). reflexivity.
Defined.

End VideoPipelineSpec.

Module UtilsBuildSpec.
Import Utils PyFacts PyStrings UtilsTreeFacts UtilsPlacement UtilsDiscussionSpec
  UtilsDiscussionTheorems.

(** [location.category == 'discussion'] *)
Definition is_discussion (item : Location * XModule) : Prop :=
  loc_category item.1 = "discussion".

#[local] Instance is_discussion_dec item : Decision (is_discussion item).
Proof. unfold is_discussion. apply _. Defined.

Lemma collect_module_other acc item :
  ¬ is_discussion item → collect_module acc item = Ok acc.
Proof.
  destruct acc as [idm un], item as [location module]. unfold is_discussion, collect_module.
  cbn [fst]. intros Hne. by destruct (String.eqb_spec (loc_category location) "discussion").
Qed.

Lemma for_each_collect_module_filter items acc :
  for_each collect_module acc (filter is_discussion items)
  = for_each collect_module acc items.
Proof.
  revert acc. induction items as [|item items IH]; intros acc; [done|].
  rewrite filter_cons. destruct (decide (is_discussion item)) as [Hd|Hd].
  - cbn [for_each]. destruct (collect_module acc item) as [acc'|e]; [|done].
    rewrite !bind_Ok. apply IH.
  - cbn [for_each]. rewrite (collect_module_other _ _ Hd), bind_Ok. apply IH.
Qed.

(** X1: the modules whose category is not ['discussion'] have no part in
    what [initialize_discussion_info] builds: with or without them the
    result, or the exception, is the same. *)
Theorem build_discussion_info_ignores_other_modules (items : list (Location * XModule)) :
  build_discussion_info (filter is_discussion items) = build_discussion_info items.
Proof. unfold build_discussion_info. by rewrite for_each_collect_module_filter. Qed.

Lemma for_each_collect_module_Raise items acc e :
  for_each collect_module acc items = Raise e →
  e = KeyError "id" ∨ e = KeyError "discussion_category" ∨ e = KeyError "for".
Proof.
  revert acc. induction items as [|item items IH]; intros acc; [done|].
  cbn [for_each]. destruct (collect_module acc item) as [acc'|e'] eqn:Hitem.
  - rewrite bind_Ok. apply IH.
  - rewrite bind_Raise. intros [= <-].
    destruct acc as [idm un], item as [location module].
    unfold collect_module, getitem in Hitem.
    destruct (String.eqb (loc_category location) "discussion"); [|done].
    destruct (metadata module !! "id"); [|injection Hitem as <-; by left].
    destruct (metadata module !! "discussion_category");
      [|injection Hitem as <-; right; by left].
    destruct (metadata module !! "for"); [done|injection Hitem as <-; right; by right].
Qed.

Lemma build_discussion_info_collect items :
  build_discussion_info items
  = match for_each collect_module (∅, ∅) items with
    | Ok maps =>
        category_map ← sort_map_entries
          (Category None ∅ (foldl place_group ∅ (map_to_list maps.2)) None);
        Ok (mkDiscussionInfo maps.1 category_map)
    | Raise e => Raise e
    end.
Proof.
  unfold build_discussion_info.
  destruct (for_each collect_module (∅, ∅) items) as [[idm un]|e]; [|done].
  by rewrite bind_Ok, for_each_expand_category, bind_Ok.
Qed.

Lemma build_discussion_info_Ok items :
  well_formed items → ∃ info, build_discussion_info items = Ok info.
Proof.
  intros Hwf. destruct (build_discussion_info_spec items Hwf) as (info & Hinfo & _).
  by exists info.
Qed.

Lemma build_discussion_info_Raise items e :
  build_discussion_info items = Raise e →
  e = KeyError "id" ∨ e = KeyError "discussion_category" ∨ e = KeyError "for".
Proof.
  intros He. pose proof He as He'. rewrite build_discussion_info_collect in He'.
  destruct (for_each collect_module (∅, ∅) items) as [maps|e'] eqn:Hc.
  - apply for_each_collect_module_inv in Hc.
    destruct (build_discussion_info_Ok items Hc) as [info Hinfo]. congruence.
  - injection He' as <-. by apply for_each_collect_module_Raise in Hc.
Qed.

(** X2: [initialize_discussion_info] builds its two maps exactly when every
    discussion module has the metadata ['id'], ['discussion_category'] and
    ['for']; otherwise it raises KeyError for one of these three keys. *)
Theorem build_discussion_info_succeeds_iff (items : list (Location * XModule)) :
  ((∃ info, build_discussion_info items = Ok info) ↔ well_formed items)
  ∧ ∀ e, build_discussion_info items = Raise e →
         e = KeyError "id" ∨ e = KeyError "discussion_category" ∨ e = KeyError "for".
Proof.
  split; [split|].
  - intros [info Hinfo]. rewrite build_discussion_info_collect in Hinfo.
    destruct (for_each collect_module (∅, ∅) items) as [maps|e] eqn:Hc; [|done].
    by apply for_each_collect_module_inv in Hc.
  - apply build_discussion_info_Ok.
  - apply build_discussion_info_Raise.
Qed.

Lemma build_discussion_info_Ok_inv items info :
  build_discussion_info items = Ok info →
  well_formed items
  ∧ id_map info = (foldl record_module (∅, ∅) (discussion_records items)).1
  ∧ sort_map_entries
      (Category None ∅
         (foldl place_group ∅
            (map_to_list (foldl record_module (∅, ∅) (discussion_records items)).2)) None)
    = Ok (category_map info).
Proof.
  intros Hinfo. rewrite build_discussion_info_collect in Hinfo.
  destruct (for_each collect_module (∅, ∅) items) as [maps|e] eqn:Hc; [|done].
  pose proof (for_each_collect_module_inv _ _ _ Hc) as Hwf.
  rewrite (for_each_collect_module items (∅, ∅) Hwf) in Hc. injection Hc as <-.
  destruct (sort_map_entries _) as [root|e] eqn:Hroot; [|done].
  rewrite bind_Ok in Hinfo. injection Hinfo as <-. done.
Qed.

(** X3: the keys of the id map are exactly the ids of the discussion
    modules of the course. *)
Theorem id_map_keys_are_module_ids (items : list (Location * XModule))
    (info : DiscussionInfo) (id : string) :
  build_discussion_info items = Ok info →
  (is_Some (id_map info !! id) ↔ ∃ r, r ∈ discussion_records items ∧ d_id r = id).
Proof.
  intros (_ & -> & _)%build_discussion_info_Ok_inv.
  rewrite id_map_lookup, fmap_is_Some, last_is_Some. split.
  - intros Hne. destruct (filter (λ r, d_id r = id) (discussion_records items))
      as [|r rs] eqn:Hf; [done|].
    assert (r ∈ filter (λ r, d_id r = id) (discussion_records items)) as Hin
      by (rewrite Hf; left).
    apply list_elem_of_filter in Hin as [??]. by exists r.
  - intros (r & Hr & Hid) Hnil.
    assert (r ∈ filter (λ r, d_id r = id) (discussion_records items)) as Hin
      by (by apply list_elem_of_filter).
    rewrite Hnil in Hin. by apply elem_of_nil in Hin.
Qed.

Lemma id_map_keys_are_module_ids_witness :
  ∃ info,
    build_discussion_info [first_module; third_module] = Ok info
    ∧ is_Some (id_map info !! "id3").
Proof.
  eexists. split; [vm_compute; reflexivity|].
  apply (id_map_keys_are_module_ids [first_module; third_module]); [vm_compute; reflexivity|].
  exists (DiscussionModule (mkLocation "org" "course" "discussion" "d3")
            "id3" " Week 1 /Lecture " "Questions" "Questions").
  split; [vm_compute; right; left|reflexivity].
Defined.

(** X4: in the category map that [initialize_discussion_info] stores, the
    root has no entry and no sort key, and ['children'] is in place at every
    node: the titles of its entries and subcategories, by sort key. *)
Theorem built_category_map_is_sorted (items : list (Location * XModule))
    (info : DiscussionInfo) :
  build_discussion_info items = Ok info →
  children_ordered_below (category_map info)
  ∧ cat_entries (category_map info) = ∅
  ∧ cat_sort_key (category_map info) = None.
Proof.
  intros (_ & _ & Hsort)%build_discussion_info_Ok_inv. split.
  - by apply sort_map_entries_children in Hsort.
  - by apply sort_map_entries_Ok_inv in Hsort as (-> & -> & _).
Qed.

Lemma built_category_map_is_sorted_witness :
  ∃ info,
    build_discussion_info [first_module; third_module] = Ok info
    ∧ children_ordered_below (category_map info)
    ∧ cat_entries (category_map info) = ∅
    ∧ cat_sort_key (category_map info) = None.
Proof.
  eexists. split; [vm_compute; reflexivity|].
  apply (built_category_map_is_sorted [first_module; third_module]). vm_compute. reflexivity.
Defined.

End UtilsBuildSpec.

Module UtilsSortSpec.
Import Utils PyFacts PyStrings UtilsTreeFacts.

Lemma mapM_Raise {A B} (f : A → result B) (l : list A) (e : exn) :
  mapM f l = Raise e → ∃ x, x ∈ l ∧ f x = Raise e.
Proof.
  induction l as [|x l IH]; [done|]. cbn [mapM].
  destruct (f x) as [y|e'] eqn:Hx.
  - rewrite bind_Ok. destruct (mapM f l) as [k|e'] eqn:Hl; [done|].
    rewrite bind_Raise. intros [= <-]. destruct (IH eq_refl) as (x' & Hin & Hx').
    exists x'. split; [by right|done].
  - rewrite bind_Raise. intros [= <-]. exists x. split; [left|done].
Qed.

Lemma things_of_Raise {A} (sort_key : A → option string) (d : gmap string A) e :
  things_of sort_key d = Raise e → e = KeyError "sort_key".
Proof.
  unfold things_of. intros ([title a] & _ & Ha)%mapM_Raise. cbn [fst snd] in Ha.
  unfold sort_key_of in Ha. destruct (sort_key a); [done|]. by injection Ha as <-.
Qed.

Lemma sort_map_entries_Raise c e :
  sort_map_entries c = Raise e → e = KeyError "sort_key".
Proof.
  induction c as [c IH] using category_ind. rewrite sort_map_entries_eq.
  destruct (collect _) as [subs'|e'] eqn:Hc.
  - rewrite bind_Ok. destruct (entry_things _) as [entries|e'] eqn:He.
    + rewrite bind_Ok. destruct (category_things _) as [things|e'] eqn:Ht; [done|].
      rewrite bind_Raise. intros [= <-]. by apply things_of_Raise in Ht.
    + rewrite bind_Raise. intros [= <-]. by apply things_of_Raise in He.
  - rewrite bind_Raise. intros [= <-]. apply collect_Raise in Hc as [title Hsub].
    rewrite lookup_fmap in Hsub.
    destruct (cat_subcategories c !! title) as [sub|] eqn:Hlook; [|done].
    injection Hsub as Hsub. by apply (IH title sub Hlook).
Qed.

(** X5: [sort_map_entries] runs to its end exactly when every entry and
    every subcategory of the given node, and of the nodes below it, has a
    ['sort_key']; otherwise it raises KeyError for ['sort_key']. *)
Theorem sort_map_entries_succeeds_iff (c : category) :
  ((∃ sorted_map, sort_map_entries c = Ok sorted_map) ↔ keyed_below c)
  ∧ ∀ e, sort_map_entries c = Raise e → e = KeyError "sort_key".
Proof.
  split; [split|].
  - intros [c' Hc']. by apply sort_map_entries_keyed with c'.
  - apply sort_map_entries_total.
  - apply sort_map_entries_Raise.
Qed.

(** A category map whose only entry has an ['id'] and no ['sort_key']. *)
Definition unkeyed_entry_map : category :=
  Category None {[ "a" := mkEntry (Some "i1") None ]} ∅ None.

Lemma sort_map_entries_succeeds_iff_witness :
  sort_map_entries unkeyed_entry_map = Raise (KeyError "sort_key")
  ∧ ¬ keyed_below unkeyed_entry_map.
Proof.
  destruct (sort_map_entries_succeeds_iff unkeyed_entry_map) as [Hiff _].
  split; [vm_compute; reflexivity|].
  intros Hkeyed. apply Hiff in Hkeyed as [sorted_map Hsorted].
  vm_compute in Hsorted. discriminate Hsorted.
Defined.

(** The sort keys of the entries or of the subcategories, read from the
    pairs of title and optional sort key. *)
Definition keyed_things (pairs : list (string * option string))
    : result (list (string * string)) :=
  mapM (M := result)
    (λ p, match p.2 with Some k => Ok (p.1, k) | None => Raise (KeyError "sort_key") end)
    pairs.

Lemma things_of_keyed_things {A} (sort_key : A → option string) (d : gmap string A) :
  things_of sort_key d
  = keyed_things ((λ ta : string * A, (ta.1, sort_key ta.2)) <$> map_to_list d).
Proof.
  unfold things_of, keyed_things.
  induction (map_to_list d) as [|[title a] l IH]; [done|].
  rewrite fmap_cons. cbn [mapM fst snd]. rewrite IH. unfold sort_key_of.
  by destruct (sort_key a).
Qed.

Lemma category_things_keyed_things subs :
  category_things subs
  = keyed_things ((λ tc : string * category, (tc.1, cat_sort_key tc.2)) <$> map_to_list subs).
Proof. apply things_of_keyed_things. Qed.

(** X6: sorting a category map that [sort_map_entries] has sorted gives the
    same map again. *)
Theorem sort_map_entries_idempotent (c c' : category) :
  sort_map_entries c = Ok c' → sort_map_entries c' = Ok c'.
Proof.
  revert c'. induction c as [c IH] using category_ind. intros c' Hc.
  pose proof Hc
    as (Hsk & Hes & Hsubs & entries & things & Hentries & Hthings & Hch)%sort_map_entries_Ok_inv.
  rewrite sort_map_entries_eq.
  assert (collect (sort_map_entries <$> cat_subcategories c') = Ok (cat_subcategories c'))
    as ->.
  { apply collect_Ok, map_eq. intros title. rewrite !lookup_fmap.
    destruct (cat_subcategories c' !! title) as [sub'|] eqn:Hsub'; [|done]. cbn.
    apply (sorted_subcategory c c' title Hsubs) in Hsub' as (sub & Hsub & Hsort).
    f_equal. by apply (IH title sub Hsub). }
  rewrite bind_Ok, Hes, Hentries, bind_Ok.
  rewrite category_things_keyed_things, (sorted_subcategory_things c c' Hsubs).
  rewrite <-category_things_keyed_things, Hthings, bind_Ok, <-Hch.
  rewrite <-Hes. by destruct c'.
Qed.

(** A root with one entry and one subcategory, not sorted yet. *)
Definition unsorted_category_map : category :=
  Category None {[ "Welcome" := Entry "i1" "b" ]}
           {[ "General" := Category (Some "a") ∅ ∅ None ]} None.

Lemma sort_map_entries_idempotent_witness :
  sort_map_entries
    (Category None {[ "Welcome" := Entry "i1" "b" ]}
       {[ "General" := Category (Some "a") ∅ ∅ (Some []) ]} (Some ["General"; "Welcome"]))
  = Ok (Category None {[ "Welcome" := Entry "i1" "b" ]}
          {[ "General" := Category (Some "a") ∅ ∅ (Some []) ]} (Some ["General"; "Welcome"])).
Proof.
  apply (sort_map_entries_idempotent unsorted_category_map). vm_compute. reflexivity.
Defined.

(** X7: the key under which a category is filed and the path that is read
    back from this key agree: joining the stripped segments with [' / '],
    splitting the result on ['/'] and stripping again gives the stripped
    segments of the category. *)
Theorem category_key_round_trip (category : string) :
  strip <$> split "/" (join " / " (strip <$> split "/" category))
  = strip <$> split "/" category.
Proof.
  rewrite split_join_strip.
  - rewrite <-list_fmap_compose. apply list_fmap_ext. intros _ s _. apply strip_idemp.
  - pose proof (split_nonempty "/" category). by destruct (split "/" category).
  - apply Forall_fmap. eapply Forall_impl; [apply split_no_char|].
    intros s Hs. by apply strip_no_char.
Qed.

End UtilsSortSpec.

Module UtilsContentMore.
Import Utils PyFacts UtilsContentSpec.

(** X8: [safe_content] only keeps pairs of [content], and applying it to
    its own result changes nothing. *)
Theorem safe_content_idempotent (content : gmap string pyval) :
  safe_content content ⊆ content
  ∧ safe_content (safe_content content) = safe_content content.
Proof.
  split.
  - apply map_subseteq_spec. intros k v Hk. by apply safe_content_lookup in Hk as (_ & ? & _).
  - apply map_eq. intros k. apply option_eq. intros v. rewrite safe_content_lookup. split.
    + by intros (_ & ? & _).
    + intros Hk. split; [|split; [done|]].
      * pose proof Hk as (Hin & Hc & Hv)%safe_content_lookup.
        unfold extracted_fields in *.
        destruct (anonymous_is_False content) eqn:Hanon.
        -- assert (anonymous_is_False (safe_content content) = true) as ->; [|done].
           apply anonymous_is_False_spec. apply anonymous_is_False_spec in Hanon.
           apply safe_content_lookup. split; [|split; [done|discriminate]].
           unfold extracted_fields. apply anonymous_is_False_spec in Hanon. rewrite Hanon.
           apply elem_of_app. left. unfold safe_content_fields. do 4 right. left.
        -- destruct (anonymous_is_False (safe_content content)); [|done].
           apply elem_of_app. by left.
      * by apply safe_content_lookup in Hk as (_ & _ & ?).
Qed.

Section Ability.
Context {User : Type}.
Variable check : User → string → gmap string pyval → string → bool.

(** X9: whatever the permissions, [get_ability] never grants both
    ['can_endorse'] and ['can_openclose'] for one content. *)
Theorem get_ability_endorse_or_openclose (course_id : string) (content : gmap string pyval)
    (user : User) (ability : gmap string bool) :
  get_ability check course_id content user = Ok ability →
  ¬ (ability !! "can_endorse" = Some true ∧ ability !! "can_openclose" = Some true).
Proof.
  unfold get_ability, getitem. destruct (content !! "type") as [type|]; [|done].
  rewrite bind_Ok. intros [= <-] [He Ho].
  rewrite !lookup_insert_ne, lookup_insert_eq in He by done.
  rewrite lookup_insert_ne, lookup_insert_eq in Ho by done.
  destruct type as [|b|n|s|l]; cbn [is_type] in *; try done.
  destruct (String.eqb s "comment") eqn:Hs; [|done]. apply String.eqb_eq in Hs. subst s. done.
Qed.

End Ability.

Lemma get_ability_endorse_or_openclose_witness :
  ∃ ability,
    get_ability (λ (_ : unit) _ _ _, true) "course" {[ "type" := PStr "thread" ]} () = Ok ability
    ∧ ability !! "can_openclose" = Some true
    ∧ ¬ (ability !! "can_endorse" = Some true ∧ ability !! "can_openclose" = Some true).
Proof.
  eexists. split; [reflexivity|]. split; [reflexivity|].
  eapply (get_ability_endorse_or_openclose (λ (_ : unit) _ _ _, true) "course"
            {[ "type" := PStr "thread" ]} ()).
  reflexivity.
Defined.

End UtilsContentMore.

Module UtilsMapSpec.
Import Utils PyFacts PyStrings UtilsTreeFacts UtilsPlacement UtilsDiscussionSpec
  UtilsDiscussionTheorems UtilsCacheSpec UtilsBuildSpec.

Lemma node_at_sorted_inv c c' path n' :
  sort_map_entries c = Ok c' →
  node_at (cat_subcategories c') path = Some n' →
  ∃ n, node_at (cat_subcategories c) path = Some n ∧ sort_map_entries n = Ok n'.
Proof.
  revert c c'. induction path as [|level rest IH]; intros c c' Hc; [done|].
  pose proof Hc as (_ & _ & Hsubs & _)%sort_map_entries_Ok_inv.
  cbn [node_at].
  destruct (cat_subcategories c' !! level) as [sub'|] eqn:Hsub'; [|done].
  apply (sorted_subcategory c c' level Hsubs) in Hsub' as (sub & Hsub & Hsort).
  rewrite Hsub. cbn. destruct rest as [|l rest].
  - intros [= <-]. by exists sub.
  - intros Hn'. by apply (IH sub sub').
Qed.

(** X10: every entry of the category map that [initialize_discussion_info]
    stores is the entry of a discussion module of the course: the node that
    holds it is at the path of the module's category, the entry is under the
    module's title and it carries the module's id and sort key. *)
Theorem category_map_entries_are_modules (items : list (Location * XModule))
    (info : DiscussionInfo) (path : list string) (node : category) (title : string)
    (e : entry) :
  build_discussion_info items = Ok info →
  node_at (cat_subcategories (category_map info)) path = Some node →
  cat_entries node !! title = Some e →
  ∃ r, r ∈ discussion_records items
       ∧ d_path r = path ∧ d_title r = title ∧ e = Entry (d_id r) (d_sort_key r).
Proof.
  intros (_ & _ & Hsort)%build_discussion_info_Ok_inv Hnode He.
  set (recs := discussion_records items) in *.
  pose proof (unexpanded_items recs) as Hitems.
  pose proof (unexpanded_paths_NoDup recs) as Hnd.
  destruct (foldl record_module (∅, ∅) recs) as [idm un]. cbn [fst snd] in *.
  set (groups := map_to_list un) in *.
  destruct (node_at_sorted_inv _ _ _ _ Hsort Hnode) as (n & Hn & Hsorted).
  apply sort_map_entries_Ok_inv in Hsorted as (_ & Hes & _). rewrite Hes in He.
  cbn [cat_subcategories] in Hn.
  assert (Hat : entries_at (foldl place_group ∅ groups) path !! title = Some e).
  { unfold entries_at. by rewrite Hn. }
  destruct (decide (path ∈ key_path <$> groups.*1)) as [Hin|Hnin].
  - apply list_elem_of_fmap in Hin as (key & -> & Hkey).
    apply list_elem_of_fmap in Hkey as ([key' entries] & -> & Hgroup). cbn [fst] in *.
    destruct (place_groups_entries groups ∅ _ _ Hnd Hgroup) as [_ Hent].
    rewrite Hent, entries_at_empty in Hat.
    destruct (Hitems _ _ Hgroup) as [-> _].
    rewrite insert_entries_lookup in Hat.
    destruct (last _) as [r|] eqn:Hlast; [|done]. injection Hat as <-.
    apply last_Some_elem_of, list_elem_of_filter in Hlast as [Htitle Hr].
    apply list_elem_of_filter in Hr as [Hk Hr].
    exists r. split; [done|]. split; [|done]. by rewrite <-Hk, key_path_d_key.
  - rewrite place_groups_other, entries_at_empty in Hat by done. by rewrite lookup_empty in Hat.
Qed.

Lemma category_map_entries_are_modules_witness :
  ∃ r, r ∈ discussion_records [first_module; third_module]
       ∧ d_path r = ["Week 1"; "Lecture"] ∧ d_title r = "Questions"
       ∧ Entry "id3" "Questions" = Entry (d_id r) (d_sort_key r).
Proof.
  eapply (category_map_entries_are_modules [first_module; third_module]);
    vm_compute; reflexivity.
Defined.

(** The sort key of every node below [c] is the title it is filed under. *)
Inductive titled_below : category → Prop :=
| titled_below_intro c :
    (∀ title sub, cat_subcategories c !! title = Some sub →
                  cat_sort_key sub = Some title ∧ titled_below sub) →
    titled_below c.

Definition forest_titled (node : gmap string category) : Prop :=
  ∀ title c, node !! title = Some c → cat_sort_key c = Some title ∧ titled_below c.

Lemma titled_below_forest c : titled_below c ↔ forest_titled (cat_subcategories c).
Proof. split; [by intros [c' H]|by constructor]. Qed.

Lemma forest_titled_empty : forest_titled ∅.
Proof. intros title c. by rewrite lookup_empty. Qed.

Lemma place_entries_titled node levels level entries :
  forest_titled node → forest_titled (place_entries node levels level entries).
Proof.
  revert node. induction levels as [|l levels IH]; intros node Hnode title c.
  - rewrite place_entries_nil. destruct (decide (title = level)) as [->|Hne].
    + rewrite lookup_insert_eq. intros [= <-].
      rewrite cat_sort_key_set_entries, titled_below_forest, cat_subcategories_set_entries.
      destruct (node !! level) as [c|] eqn:Hc; cbn.
      * destruct (Hnode level c Hc) as [? ?%titled_below_forest]. done.
      * split; [done|apply forest_titled_empty].
    + rewrite lookup_insert_ne by done. apply Hnode.
  - rewrite place_entries_cons. destruct (decide (title = l)) as [->|Hne].
    + rewrite lookup_insert_eq. intros [= <-]. rewrite titled_below_forest. cbn.
      destruct (node !! l) as [c|] eqn:Hc; cbn.
      * destruct (Hnode l c Hc) as [? ?%titled_below_forest]. split; [done|]. by apply IH.
      * split; [done|]. apply IH, forest_titled_empty.
    + rewrite lookup_insert_ne by done. apply Hnode.
Qed.

Lemma place_groups_titled groups node :
  forest_titled node → forest_titled (foldl place_group node groups).
Proof.
  revert node. induction groups as [|g groups IH]; intros node H; [done|].
  cbn [foldl]. apply IH. by apply place_entries_titled.
Qed.

Lemma sort_map_entries_titled c c' :
  sort_map_entries c = Ok c' → titled_below c → titled_below c'.
Proof.
  revert c'. induction c as [c IH] using category_ind. intros c' Hc Ht.
  pose proof Hc as (_ & _ & Hsubs & _)%sort_map_entries_Ok_inv.
  constructor. intros title sub' Hsub'.
  apply (sorted_subcategory c c' title Hsubs) in Hsub' as (sub & Hsub & Hsort).
  apply titled_below_forest in Ht. destruct (Ht title sub Hsub) as [Hk Hb].
  split.
  - apply sort_map_entries_Ok_inv in Hsort as (-> & _). done.
  - by apply (IH title sub Hsub).
Qed.

Lemma titled_node_at c path n :
  titled_below c → node_at (cat_subcategories c) path = Some n → cat_sort_key n = last path.
Proof.
  revert c. induction path as [|level rest IH]; intros c Ht; [done|].
  apply titled_below_forest in Ht. cbn [node_at].
  destruct (cat_subcategories c !! level) as [sub|] eqn:Hsub; [|done]. cbn.
  destruct (Ht level sub Hsub) as [Hk Hb]. destruct rest as [|l rest].
  - by intros [= <-].
  - intros Hn. rewrite last_cons_cons. by apply (IH sub).
Qed.

(** X11: in the category map that [initialize_discussion_info] stores, the
    sort key of every subcategory is its own title, the last segment of its
    path: subcategories are ordered by name. *)
Theorem subcategories_sort_by_title (items : list (Location * XModule))
    (info : DiscussionInfo) (path : list string) (node : category) :
  build_discussion_info items = Ok info →
  node_at (cat_subcategories (category_map info)) path = Some node →
  cat_sort_key node = last path.
Proof.
  intros (_ & _ & Hsort)%build_discussion_info_Ok_inv. apply titled_node_at.
  apply (sort_map_entries_titled _ _ Hsort), titled_below_forest. cbn.
  apply place_groups_titled, forest_titled_empty.
Qed.

Lemma subcategories_sort_by_title_witness :
  ∃ info node,
    build_discussion_info [first_module; third_module] = Ok info
    ∧ node_at (cat_subcategories (category_map info)) ["Week 1"; "Lecture"] = Some node
    ∧ cat_sort_key node = Some "Lecture".
Proof.
  eexists _, _. split; [vm_compute; reflexivity|]. split; [vm_compute; reflexivity|].
  eapply (subcategories_sort_by_title [first_module; third_module] _ ["Week 1"; "Lecture"]);
    vm_compute; reflexivity.
Defined.

(** X12: on the first call for a course whose discussion modules have the
    metadata that the loop indexes, [get_discussion_title] answers with the
    title of the last discussion module that has the given id, and with
    ['(no title)'] when no module has it. *)
Theorem get_discussion_title_of_last_module {Request} (store : modules) (request : Request)
    (course : Course) (discussion_id : string) (g : Globals)
    (items : list (Location * XModule)) :
  _FULLMODULES g = None → _DISCUSSIONINFO g = None →
  store !! course_id course = Some items →
  well_formed items →
  (get_discussion_title store request course discussion_id g).1
  = Ok (default "(no title)"
          (d_title <$> last (filter (λ r, d_id r = discussion_id) (discussion_records items)))).
Proof.
  intros Hfull Hinfo Hstore Hwf.
  destruct (build_discussion_info_Ok items Hwf) as [info Hbuild].
  pose proof Hbuild as (_ & Hid & _)%build_discussion_info_Ok_inv.
  unfold get_discussion_title, with_discussion_info, initialize_discussion_info,
    get_full_modules, getitem.
  rewrite Hinfo, Hfull, Hstore, Hbuild. cbn.
  rewrite Hid, id_map_lookup. by destruct (last _).
Qed.

Lemma get_discussion_title_of_last_module_witness :
  (get_discussion_title {[ "org/course/run" := [first_module; third_module] ]} ()
     sample_course "id3" empty_globals).1
  = Ok "Questions".
Proof.
  refine (eq_trans
            (get_discussion_title_of_last_module
               {[ "org/course/run" := [first_module; third_module] ]} () sample_course "id3"
               empty_globals [first_module; third_module] eq_refl eq_refl _ _) _).
  - vm_compute. reflexivity.
  - apply discussion_at_well_formed. repeat constructor; by eexists _, _, _, _.
  - vm_compute. reflexivity.
Defined.

(** X13: when [initialize_discussion_info] raises, the exception is a
    KeyError, for the course id that the module store does not have or for
    the metadata key that a discussion module lacks, and no discussion info
    is cached: the next call starts again. *)
Theorem initialize_discussion_info_failure (store : modules) (course : Course)
    (g g' : Globals) (e : exn) :
  initialize_discussion_info store course g = (Raise e, g') →
  _DISCUSSIONINFO g' = None
  ∧ (e = KeyError (course_id course) ∨ e = KeyError "id"
     ∨ e = KeyError "discussion_category" ∨ e = KeyError "for").
Proof.
  unfold initialize_discussion_info.
  destruct (_DISCUSSIONINFO g) as [info|] eqn:Hg; [done|].
  destruct (get_full_modules store g) as [full g1] eqn:Hfull.
  assert (_DISCUSSIONINFO g1 = None) as Hg1.
  { unfold get_full_modules in Hfull. destruct (_FULLMODULES g) as [d|].
    - destruct (bool_decide (d = ∅)); injection Hfull as <- <-; done.
    - by injection Hfull as <- <-. }
  unfold getitem. destruct (full !! course_id course) as [all_modules|].
  - destruct (build_discussion_info all_modules) as [info|e'] eqn:Hb; [done|].
    intros [= <- <-]. split; [done|]. right. by apply (build_discussion_info_Raise all_modules).
  - intros [= <- <-]. split; [done|]. by left.
Qed.

(** A discussion module without ['for']. *)
Definition untitled_module : Location * XModule :=
  (mkLocation "org" "course" "discussion" "d4",
   mkXModule (<["id" := "id4"]> {[ "discussion_category" := "General" ]})).

Lemma initialize_discussion_info_failure_witness :
  ∃ g',
    initialize_discussion_info {[ "org/course/run" := [first_module; untitled_module] ]}
      sample_course empty_globals
    = (Raise (KeyError "for"), g')
    ∧ _DISCUSSIONINFO g' = None.
Proof.
  eexists. split; [vm_compute; reflexivity|].
  eapply (initialize_discussion_info_failure
            {[ "org/course/run" := [first_module; untitled_module] ]} sample_course
            empty_globals _ (KeyError "for")).
  vm_compute. reflexivity.
Defined.

End UtilsMapSpec.

Module UtilsDictSpec.
Import Utils PyFacts UtilsContent.

Lemma insert_all_union {V} (l : list (string * V)) (acc : gmap string V) :
  NoDup l.*1 →
  foldl (λ acc kv, <[kv.1 := kv.2]> acc) acc l = list_to_map l ∪ acc.
Proof.
  revert acc. induction l as [|[k v] l IH]; intros acc Hnd.
  - cbn [foldl list_to_map foldr]. by rewrite (left_id_L ∅ (∪)).
  - rewrite fmap_cons in Hnd. apply NoDup_cons in Hnd as [Hk Hnd]. cbn [foldl fst snd].
    rewrite (IH _ Hnd). cbn [list_to_map foldr uncurry fst snd].
    rewrite <-insert_union_r by (by apply not_elem_of_list_to_map_1).
    by rewrite insert_union_l.
Qed.

Lemma merge_dict_union {V} (dic1 dic2 : gmap string V) : merge_dict dic1 dic2 = dic2 ∪ dic1.
Proof.
  unfold merge_dict. rewrite foldl_app.
  rewrite !insert_all_union by apply NoDup_fst_map_to_list.
  rewrite !list_to_map_to_list. by rewrite (right_id_L ∅ (∪)).
Qed.

(** X14: [merge_dict] has the keys of both dicts; a key of both is bound
    as in the second. *)
Theorem merge_dict_second_wins {V} (dic1 dic2 : gmap string V) (k : string) :
  merge_dict dic1 dic2 !! k
  = match dic2 !! k with
    | Some v => Some v
    | None => dic1 !! k
    end.
Proof. rewrite merge_dict_union, lookup_union. by destruct (dic2 !! k), (dic1 !! k). Qed.

(** Every character of [s] is white space. *)
Fixpoint all_space (s : string) : bool :=
  match s with
  | EmptyString => true
  | String c s' => is_space c && all_space s'
  end.

Lemma rstrip_empty s : rstrip s = "" ↔ all_space s = true.
Proof.
  induction s as [|c s IH]; cbn [rstrip all_space]; [done|].
  destruct (rstrip s) as [|c' r].
  - destruct (is_space c); cbn; [|split; done].
    split; [intros _; by apply IH|done].
  - split; [done|]. intros [_ Hs]%andb_true_iff. by apply IH in Hs.
Qed.

Lemma lstrip_all_space s : all_space (lstrip s) = all_space s.
Proof.
  induction s as [|c s IH]; cbn [lstrip all_space]; [done|].
  destruct (is_space c) eqn:Hc; [done|]. cbn [all_space]. by rewrite Hc.
Qed.

Lemma strip_empty s : strip s = "" ↔ all_space s = true.
Proof. unfold strip. by rewrite rstrip_empty, lstrip_all_space. Qed.

(** X15: [strip_blank] removes the pairs whose value is a string of white
    space only (the empty string among them) and keeps every other pair,
    None values included. *)
Theorem strip_blank_removes_blank_strings (dic : gmap string pyval) (k : string) (v : pyval) :
  strip_blank dic !! k = Some v
  ↔ dic !! k = Some v ∧ ∀ s, v = PStr s → all_space s = false.
Proof.
  unfold strip_blank. rewrite map_lookup_filter_Some. cbn [snd]. unfold _is_blank.
  split; intros [Hk Hv]; (split; [done|]).
  - intros s ->. apply not_true_iff_false. intros Hs%strip_empty.
    rewrite Hs in Hv. done.
  - destruct v as [| | |s|]; try done. apply not_true_iff_false.
    intros Hs%String.eqb_eq%strip_empty. by rewrite (Hv s eq_refl) in Hs.
Qed.

End UtilsDictSpec.

Module UtilsViewsSpec.
Import Utils PyFacts UtilsContent UtilsDictSpec UtilsCacheSpec UtilsDiscussionTheorems.

Section Views.
Context {User : Type}.
Variable reverse : string → list pyval → string.
Variable location_url : Location → string.
Variable py_str : pyval → string.

Lemma getitem_Some {V} (d : gmap string V) k v : d !! k = Some v → getitem d k = Ok v.
Proof. unfold getitem. by intros ->. Qed.

Lemma getitem_insert_eq {V} (d : gmap string V) k v : getitem (<[k := v]> d) k = Ok v.
Proof. unfold getitem. by rewrite lookup_insert_eq. Qed.

Lemma getitem_insert_ne {V} (d : gmap string V) k k' v :
  k ≠ k' → getitem (<[k := v]> d) k' = getitem d k'.
Proof. intros H. unfold getitem. by rewrite lookup_insert_ne. Qed.

(** X16: the permalink of a comment is the permalink of its thread,
    followed by ['#'] and the id of the comment. *)
Theorem permalink_of_comment (content : gmap string pyval) (type thread_id : pyval)
    (id : string) :
  content !! "type" = Some type → is_type type "thread" = false →
  content !! "thread_id" = Some thread_id →
  content !! "id" = Some (PStr id) →
  permalink reverse content
  = (url ← permalink reverse (<["id" := thread_id]> (<["type" := PStr "thread"]> content));
     Ok ((url ++ "#") ++ id)).
Proof.
  intros Htype Hnot Hthread Hid. unfold permalink.
  rewrite (getitem_insert_ne _ "id" "type"), (getitem_insert_eq _ "type") by done.
  rewrite (getitem_insert_ne _ "id" "course_id"), (getitem_insert_ne _ "type" "course_id")
    by done.
  rewrite (getitem_insert_ne _ "id" "commentable_id"),
    (getitem_insert_ne _ "type" "commentable_id") by done.
  rewrite (getitem_insert_eq _ "id").
  rewrite (getitem_Some _ _ _ Htype), (getitem_Some _ _ _ Hthread), (getitem_Some _ _ _ Hid).
  rewrite !bind_Ok, Hnot.
  destruct (getitem content "course_id") as [course_id|e]; [|done]. rewrite !bind_Ok.
  destruct (getitem content "commentable_id") as [commentable_id|e]; [|done].
  rewrite !bind_Ok. done.
Qed.

(** The four keys that [extend_content] sets. *)
Definition content_info_keys : list string :=
  ["displayed_title"; "displayed_body"; "raw_tags"; "permalink"].

(** X17: [extend_content] returns the content dict with four keys set and
    every other pair as it was. The displayed title is the highlighted
    title when there is one that is not empty, otherwise the title, or the
    empty string; the same for the body. It raises, as [','.join] or
    [permalink] does, when the tags are not strings or when a key of the
    permalink is missing. *)
Theorem extend_content_sets_four_keys (content : gmap string pyval) :
  match join_tags (get content "tags" (PList [])), permalink reverse content with
  | Ok raw_tags, Ok url =>
      ∃ extended,
        extend_content reverse content = Ok extended
        ∧ (∀ k, k ∉ content_info_keys → extended !! k = content !! k)
        ∧ extended !! "displayed_title"
          = Some (match content !! "highlighted_title" with
                  | Some t => if truthy t then t else get content "title" (PStr "")
                  | None => get content "title" (PStr "")
                  end)
        ∧ extended !! "displayed_body"
          = Some (match content !! "highlighted_body" with
                  | Some t => if truthy t then t else get content "body" (PStr "")
                  | None => get content "body" (PStr "")
                  end)
        ∧ extended !! "raw_tags" = Some (PStr raw_tags)
        ∧ extended !! "permalink" = Some (PStr url)
  | Raise e, _ => extend_content reverse content = Raise e
  | Ok _, Raise e => extend_content reverse content = Raise e
  end.
Proof.
  unfold extend_content.
  destruct (join_tags _) as [raw_tags|e]; [|done]. rewrite bind_Ok.
  destruct (permalink reverse content) as [url|e]; [|done]. rewrite bind_Ok.
  eexists. split; [reflexivity|]. rewrite merge_dict_union.
  split; [|split; [|split; [|split]]].
  - intros k Hk. unfold content_info_keys in Hk. rewrite !not_elem_of_cons in Hk.
    destruct Hk as (? & ? & ? & ? & _). apply lookup_union_r.
    by rewrite !lookup_insert_ne, lookup_empty by done.
  - rewrite lookup_union_l'; rewrite !lookup_insert_ne, lookup_insert_eq by done; [|done].
    unfold py_or, get. by destruct (content !! "highlighted_title").
  - rewrite lookup_union_l'; rewrite !lookup_insert_ne, lookup_insert_eq by done; [|done].
    unfold py_or, get. by destruct (content !! "highlighted_body").
  - by rewrite lookup_union_l'; rewrite !lookup_insert_ne, lookup_insert_eq by done.
  - by rewrite lookup_union_l'; rewrite lookup_insert_eq.
Qed.

(** *** [get_annotated_content_infos] *)

Variable check_permissions_by_view : User → string → thread_content → string → bool.

#[local] Abbreviation annotation := (get_annotated_content_info check_permissions_by_view).
#[local] Abbreviation annotate_thread := (annotate py_str check_permissions_by_view).

(** The content dicts of a thread: the thread, then its children and
    theirs, in the order in which [annotate] visits them. *)
Fixpoint contents (content : thread_content) : list thread_content :=
  content ::
  match content with
  | ThreadContent _ None => []
  | ThreadContent _ (Some children) => flat_map contents children
  end.

Lemma thread_content_nested_ind (P : thread_content → Prop) :
  (∀ fields, P (ThreadContent fields None)) →
  (∀ fields children, Forall P children → P (ThreadContent fields (Some children))) →
  ∀ content, P content.
Proof.
  intros Hleaf Hnode. fix IH 1. intros [fields [children|]]; [|apply Hleaf].
  apply Hnode. induction children as [|child children IHchildren]; constructor.
  - apply IH.
  - apply IHchildren.
Qed.

Lemma annotate_eq course_id user user_info content infos :
  annotate_thread course_id user user_info content infos
  = (info ← annotation course_id content user user_info;
     id ← getitem (tc_fields content) "id";
     for_each (λ infos child, annotate_thread course_id user user_info child infos)
       (<[py_str id := info]> infos) (default [] (tc_children content))).
Proof.
  destruct content as [fields [children|]]; cbn [annotate tc_fields tc_children default from_option id].
  - destruct (annotation _ _ _ _) as [info|e]; [|done]. rewrite !bind_Ok.
    destruct (getitem fields "id") as [id|e]; [|done]. rewrite !bind_Ok.
    generalize (<[py_str id := info]> infos). clear.
    induction children as [|child children IH]; intros infos; [done|].
    cbn [for_each]. destruct (annotate_thread _ _ _ child infos) as [infos'|e]; [|reflexivity].
    rewrite !bind_Ok. apply IH.
  - destruct (annotation _ _ _ _) as [info|e]; [|done]. rewrite !bind_Ok.
    by destruct (getitem fields "id") as [id|e].
Qed.

(** What a run of [annotate] adds to [infos]. *)
Definition annotated (course_id : string) (user : User) (user_info : UserInfo)
    (visited : list thread_content) (infos infos' : gmap string AnnotatedInfo) : Prop :=
  (∀ content, content ∈ visited →
     ∃ id, tc_fields content !! "id" = Some id ∧ is_Some (infos' !! py_str id))
  ∧ (∀ k, is_Some (infos !! k) → is_Some (infos' !! k))
  ∧ (∀ k info, infos' !! k = Some info →
       infos !! k = Some info
       ∨ ∃ content id,
           content ∈ visited ∧ tc_fields content !! "id" = Some id ∧ py_str id = k
           ∧ annotation course_id content user user_info = Ok info).

Lemma annotated_nil course_id user user_info infos :
  annotated course_id user user_info [] infos infos.
Proof.
  split; [|split].
  - intros content Hin. by apply elem_of_nil in Hin.
  - done.
  - intros k info Hk. by left.
Qed.

Lemma annotated_app course_id user user_info visited1 visited2 infos1 infos2 infos3 :
  annotated course_id user user_info visited1 infos1 infos2 →
  annotated course_id user user_info visited2 infos2 infos3 →
  annotated course_id user user_info (visited1 ++ visited2)%list infos1 infos3.
Proof.
  intros (Hv1 & Hm1 & Hs1) (Hv2 & Hm2 & Hs2). split; [|split].
  - intros content [Hin|Hin]%elem_of_app.
    + destruct (Hv1 content Hin) as (id & Hid & Hsome). exists id. split; [done|]. by apply Hm2.
    + by apply Hv2.
  - intros k Hk. by apply Hm2, Hm1.
  - intros k info [Hk|(content & id & Hin & Hid & Hkey & Hinfo)]%Hs2.
    + apply Hs1 in Hk as [Hk|(content & id & Hin & Hid & Hkey & Hinfo)]; [by left|].
      right. exists content, id. split; [|done]. apply elem_of_app. by left.
    + right. exists content, id. split; [|done]. apply elem_of_app. by right.
Qed.

Lemma annotate_annotated course_id user user_info content infos infos' :
  annotate_thread course_id user user_info content infos = Ok infos' →
  annotated course_id user user_info (contents content) infos infos'.
Proof.
  revert infos infos'.
  induction content as [fields|fields children IH] using thread_content_nested_ind;
    intros infos infos'; rewrite annotate_eq; cbn [tc_fields tc_children default from_option id];
    destruct (annotation _ _ _ _) as [info|e] eqn:Hinfo; try done; rewrite bind_Ok;
    unfold getitem; destruct (fields !! "id") as [id|] eqn:Hid; try done; rewrite bind_Ok.
  - cbn [for_each]. intros [= <-]. split; [|split].
    + intros content [->|Hin%elem_of_nil]%elem_of_cons; [|done].
      exists id. split; [done|]. rewrite lookup_insert_eq. by eexists.
    + intros k Hk. destruct (decide (py_str id = k)) as [<-|Hne].
      * rewrite lookup_insert_eq. by eexists.
      * by rewrite lookup_insert_ne.
    + intros k info' Hk. destruct (decide (py_str id = k)) as [<-|Hne].
      * rewrite lookup_insert_eq in Hk. injection Hk as <-. right.
        exists (ThreadContent fields None), id. split; [left|done].
      * rewrite lookup_insert_ne in Hk by done. by left.
  - intros Hloop. cbn [contents].
    apply (annotated_app _ _ _ [ThreadContent fields (Some children)] _ _
             (<[py_str id := info]> infos)).
    + split; [|split].
      * intros content [->|Hin%elem_of_nil]%elem_of_cons; [|done].
        exists id. split; [done|]. rewrite lookup_insert_eq. by eexists.
      * intros k Hk. destruct (decide (py_str id = k)) as [<-|Hne].
        -- rewrite lookup_insert_eq. by eexists.
        -- by rewrite lookup_insert_ne.
      * intros k info' Hk. destruct (decide (py_str id = k)) as [<-|Hne].
        -- rewrite lookup_insert_eq in Hk. injection Hk as <-. right.
           exists (ThreadContent fields (Some children)), id. split; [left|done].
        -- rewrite lookup_insert_ne in Hk by done. by left.
    + revert Hloop. generalize (<[py_str id := info]> infos). clear Hinfo Hid.
      induction children as [|child children IHchildren]; intros infos1.
      * cbn [for_each flat_map]. intros [= <-]. apply annotated_nil.
      * apply Forall_cons in IH as [IHchild IH]. cbn [for_each flat_map].
        destruct (annotate_thread _ _ _ child infos1) as [infos2|e] eqn:Hchild; [|done].
        rewrite bind_Ok. intros Hrest.
        apply (annotated_app _ _ _ _ _ _ infos2); [by apply IHchild|by apply IHchildren].
Qed.

(** X18: when [get_annotated_content_infos] returns, every content dict of
    the thread, at any depth, has an ['id'] and the result has an entry
    under [str(id)]; and every entry of the result is what
    [get_annotated_content_info] gives for a content dict of the thread
    with that [str(id)]. *)
Theorem get_annotated_content_infos_covers_thread (course_id : string)
    (thread : thread_content) (user : User) (user_info : UserInfo)
    (infos : gmap string AnnotatedInfo) :
  get_annotated_content_infos py_str check_permissions_by_view course_id thread user user_info
  = Ok infos →
  (∀ content, content ∈ contents thread →
     ∃ id, tc_fields content !! "id" = Some id ∧ is_Some (infos !! py_str id))
  ∧ (∀ k info, infos !! k = Some info →
       ∃ content id,
         content ∈ contents thread ∧ tc_fields content !! "id" = Some id ∧ py_str id = k
         ∧ annotation course_id content user user_info = Ok info).
Proof.
  intros (Hv & _ & Hs)%annotate_annotated. split; [done|].
  intros k info [Hk|?]%Hs; [|done]. by rewrite lookup_empty in Hk.
Qed.

(** *** [get_courseware_context] *)

Lemma with_discussion_info_read {A} store course (read : DiscussionInfo → A) g :
  with_discussion_info store course read g
  = let '(r, g') := with_discussion_info store course (λ info, info) g in (read <$> r, g').
Proof.
  unfold with_discussion_info.
  destruct (_DISCUSSIONINFO g) as [info|] eqn:Hg.
  - by rewrite Hg.
  - destruct (initialize_discussion_info store course g) as [[[]|e] g1]; [|done].
    by destruct (_DISCUSSIONINFO g1).
Qed.

(** X19: [get_courseware_context] and [get_discussion_title] agree: for a
    content whose ['commentable_id'] is a string, the context that the
    first returns carries the title that the second gives for this id, and
    when the first returns None the second gives ['(no title)']. *)
Theorem get_courseware_context_title {Request} (store : modules) (request : Request)
    (content : gmap string pyval) (course : Course) (g g' : Globals) (id : string)
    (context : option CoursewareContext) :
  content !! "commentable_id" = Some (PStr id) →
  get_courseware_context location_url store content course g = (Ok context, g') →
  get_discussion_title store request course id g
  = (Ok (default "(no title)" (courseware_title <$> context)), g').
Proof.
  intros Hid. unfold get_courseware_context, get_discussion_title, get_discussion_id_map.
  rewrite (with_discussion_info_read _ _ id_map),
    (with_discussion_info_read _ _ (λ info, default "(no title)" _)).
  destruct (with_discussion_info store course (λ info, info) g) as [[info|e] g1]; [|done].
  cbn. unfold getitem. rewrite Hid, bind_Ok. cbn [lookup_id].
  destruct (id_map info !! id) as [entry|]; by intros [= <- <-].
Qed.

End Views.

(** A comment of the thread ["t1"]. *)
Definition sample_comment : gmap string pyval :=
  <["type" := PStr "comment"]> (<["id" := PStr "c1"]> (<["thread_id" := PStr "t1"]>
  (<["course_id" := PStr "org/course/run"]> {[ "commentable_id" := PStr "id3" ]}))).

(** The URL of a view, written with its arguments. *)
Definition sample_reverse (view : string) (args : list pyval) : string :=
  "/" ++ join "/" ((λ arg, match arg with PStr s => s | _ => "" end) <$> args).

Lemma permalink_of_comment_witness :
  permalink sample_reverse sample_comment = Ok "/org/course/run/id3/t1#c1".
Proof.
  refine (eq_trans
            (permalink_of_comment sample_reverse sample_comment (PStr "comment") (PStr "t1")
               "c1" _ _ _ _) _);
    vm_compute; reflexivity.
Defined.

(** [str] of an id. *)
Definition sample_str (v : pyval) : string :=
  match v with
  | PStr s => s
  | _ => ""
  end.

(** A thread with one comment, which has one answer. *)
Definition sample_answer : thread_content :=
  ThreadContent (<["id" := PStr "c2"]> {[ "type" := PStr "comment" ]}) None.
Definition sample_thread : thread_content :=
  ThreadContent (<["id" := PStr "t1"]> {[ "type" := PStr "thread" ]})
    (Some [ThreadContent (<["id" := PStr "c1"]> {[ "type" := PStr "comment" ]})
             (Some [sample_answer])]).

Lemma get_annotated_content_infos_covers_thread_witness :
  ∃ infos,
    get_annotated_content_infos sample_str (λ (_ : unit) _ _ _, true) "org/course/run"
      sample_thread () (mkUserInfo ["c2"] [] [])
    = Ok infos
    ∧ is_Some (infos !! "c2").
Proof.
  destruct (get_annotated_content_infos sample_str (λ (_ : unit) _ _ _, true) "org/course/run"
              sample_thread () (mkUserInfo ["c2"] [] [])) as [infos|e] eqn:Hinfos;
    [|vm_compute in Hinfos; discriminate Hinfos].
  exists infos. split; [reflexivity|].
  destruct (get_annotated_content_infos_covers_thread sample_str (λ (_ : unit) _ _ _, true)
              "org/course/run" sample_thread () (mkUserInfo ["c2"] [] []) infos Hinfos)
    as [Hcovers _].
  destruct (Hcovers sample_answer) as (id & Hid & Hsome).
  - unfold sample_thread. cbn [contents flat_map app]. right. right. left.
  - assert (id = PStr "c2") as -> by (vm_compute in Hid; congruence).
    exact Hsome.
Defined.

Lemma get_courseware_context_title_witness :
  ∃ g',
    get_discussion_title {[ "org/course/run" := [first_module; third_module] ]} ()
      sample_course "id3" empty_globals
    = (Ok "Questions", g').
Proof.
  eexists.
  refine (eq_trans
            (get_courseware_context_title loc_name
               {[ "org/course/run" := [first_module; third_module] ]} () sample_comment
               sample_course empty_globals _ "id3" _ eq_refl _) _).
  - vm_compute. reflexivity.
  - reflexivity.
Defined.

End UtilsViewsSpec.

Module SamlProviderSpec.
Import Saml PyFacts SamlMappingSpec SamlDetailsSpec.

Section Provider.
Variable saml_details : Conf → gmap string (list string) → SamlDetails.
Variable countries : list (string * string).

#[local] Abbreviation edx_details := (EdXSAMLIdentityProvider_get_user_details saml_details).

(** *** The extra fields of [EdXSAMLIdentityProvider.get_user_details] *)

(** One round of the dict comprehension. *)
Definition add_extra_field (attributes : gmap string (list string))
    (acc : gmap string (option string)) (field : ExtraField)
    : result (gmap string (option string)) :=
  v ← extra_field_value attributes field; Ok (<[field_name field := v]> acc).

(** The fields whose value cannot be read: the attribute is there, with an
    empty list of values. *)
Definition unreadable (attributes : gmap string (list string)) (field : ExtraField) : Prop :=
  attributes !! field_urn field = Some [].

#[local] Instance unreadable_dec attributes field : Decision (unreadable attributes field).
Proof. unfold unreadable. apply _. Defined.

Lemma extra_field_value_Ok attributes field :
  ¬ unreadable attributes field →
  extra_field_value attributes field = Ok (attributes !! field_urn field ≫= head).
Proof.
  unfold unreadable, extra_field_value. by destruct (attributes !! field_urn field) as [[|v vs]|].
Qed.

Lemma extra_field_value_Raise attributes field :
  unreadable attributes field → extra_field_value attributes field = Raise IndexError.
Proof. unfold unreadable, extra_field_value. by intros ->. Qed.

Lemma add_extra_field_Ok attributes acc field :
  ¬ unreadable attributes field →
  add_extra_field attributes acc field
  = Ok (<[field_name field := attributes !! field_urn field ≫= head]> acc).
Proof. intros H. unfold add_extra_field. by rewrite (extra_field_value_Ok _ _ H). Qed.

Lemma add_extra_field_Raise attributes acc field :
  unreadable attributes field → add_extra_field attributes acc field = Raise IndexError.
Proof. intros H. unfold add_extra_field. by rewrite (extra_field_value_Raise _ _ H). Qed.

Lemma extra_fields_Ok attributes fields acc :
  Forall (λ field, ¬ unreadable attributes field) fields →
  ∃ res, for_each (add_extra_field attributes) acc fields = Ok res
    ∧ ∀ name, res !! name =
        match last (filter (λ field, field_name field = name) fields) with
        | Some field => Some (attributes !! field_urn field ≫= head)
        | None => acc !! name
        end.
Proof.
  revert acc. induction fields as [|field fields IH]; intros acc Hall.
  - exists acc. split; [done|]. intros name. done.
  - apply Forall_cons in Hall as [Hfield Hall]. cbn [for_each].
    rewrite (add_extra_field_Ok _ _ _ Hfield), bind_Ok.
    destruct (IH (<[field_name field := attributes !! field_urn field ≫= head]> acc) Hall)
      as (res & Hres & Hlook).
    exists res. split; [done|]. intros name. rewrite Hlook, filter_cons.
    destruct (decide (field_name field = name)) as [<-|Hne].
    + destruct (filter _ fields) as [|f fs] eqn:Hf.
      * cbn. by rewrite lookup_insert_eq.
      * rewrite (last_cons_cons field f fs). destruct (last (f :: fs)) eqn:Hl; [done|]. by apply last_None in Hl.
    + destruct (last _); [done|]. by rewrite lookup_insert_ne.
Qed.

Lemma extra_fields_Raise attributes fields acc :
  Exists (unreadable attributes) fields →
  for_each (add_extra_field attributes) acc fields = Raise IndexError.
Proof.
  revert acc. induction fields as [|field fields IH]; intros acc Hex.
  - by apply Exists_nil in Hex.
  - cbn [for_each]. destruct (decide (unreadable attributes field)) as [Hu|Hu].
    + by rewrite (add_extra_field_Raise _ _ _ Hu).
    + rewrite (add_extra_field_Ok _ _ _ Hu), bind_Ok.
      apply Exists_cons in Hex as [?|Hex]; [done|]. by apply IH.
Qed.

(** X20: [EdXSAMLIdentityProvider.get_user_details] raises IndexError
    exactly when an extra field names an attribute that is present with no
    value. Otherwise it returns the details of the base class with every
    extra field added under its name: the first value of its attribute, or
    None when the attribute is absent; an extra field replaces a standard
    detail of the same name, and of two extra fields with one name the later
    one counts. *)
Theorem edx_user_details_extra_fields (conf : Conf) (attributes : gmap string (list string)) :
  let fields := default [] (extra_field_definitions conf) in
  if decide (Exists (unreadable attributes) fields) then
    edx_details conf attributes = Raise IndexError
  else
    ∃ details,
      edx_details conf attributes = Ok details
      ∧ ∀ name, details !! name =
          match last (filter (λ field, field_name field = name) fields) with
          | Some field => Some (attributes !! field_urn field ≫= head)
          | None => details_dict (saml_details conf attributes) !! name
          end.
Proof.
  intros fields. unfold EdXSAMLIdentityProvider_get_user_details. fold fields.
  change (λ acc field, v ← extra_field_value attributes field; Ok (<[field_name field := v]> acc))
    with (add_extra_field attributes).
  destruct (decide _) as [Hex|Hall].
  - by rewrite (extra_fields_Raise _ _ _ Hex).
  - apply not_Exists_Forall in Hall; [|intros field; apply _].
    destruct (extra_fields_Ok attributes fields ∅ Hall) as (res & Hres & Hlook).
    rewrite Hres, bind_Ok. eexists. split; [done|]. intros name.
    rewrite lookup_union, Hlook. destruct (last _) as [field|]; [|rewrite lookup_empty; by destruct (details_dict _ !! name)].
    by destruct (details_dict _ !! name).
Qed.

(** *** [missing_variables] *)

(** The warning that lists the missing variables. *)
Definition missing_warning (missing : list string) : log_record :=
  LogRecord WARNING
    "To retrieve rich user data for an SAP SuccessFactors identity provider, the following keys in 'other_settings' are required, but were missing: %s"
    [ArgStrs missing].

(** X21: [missing_variables] returns None and logs nothing when the
    configuration has the five required variables; otherwise it returns the
    required variables that the configuration lacks, at least one, and logs
    one warning that lists them. *)
Theorem missing_variables_lists_absent (conf : Conf) (log : list log_record) :
  match missing_variables conf log with
  | (None, log') => complete conf ∧ log' = log
  | (Some missing, log') =>
      missing ≠ []
      ∧ (∀ var, var ∈ missing ↔ var ∈ required_variables ∧ settings conf !! var = None)
      ∧ log' = (log ++ [missing_warning missing])%list
  end.
Proof.
  unfold missing_variables.
  destruct (forallb (in_conf conf) required_variables) eqn:Hall; cbn [negb].
  - split; [by apply complete_forallb|done].
  - assert (Hin : ∀ var, var ∈ List.filter (λ var, negb (in_conf conf var)) required_variables
                         ↔ var ∈ required_variables ∧ settings conf !! var = None).
    { intros var. rewrite list_elem_of_In, filter_In, <-list_elem_of_In.
      rewrite negb_true_iff, <-not_true_iff_false, in_conf_spec, <-eq_None_not_Some. done. }
    split; [|split; done].
    intros Hnil. apply not_true_iff_false in Hall. apply Hall, complete_forallb.
    intros var Hvar. destruct (settings conf !! var) eqn:Hs; [by eexists|].
    assert (var ∈ List.filter (λ var, negb (in_conf conf var)) required_variables) as Hv
      by (by apply Hin).
    rewrite Hnil in Hv. by apply elem_of_nil in Hv.
Qed.

(** *** [SapSuccessFactorsIdentityProvider.get_user_details] *)

Section Transport.
Variable session_post : string → list (string * option string) → Z → result Response.
Variable session_get : Session → string → Z → result Response.

#[local] Abbreviation sap_details :=
  (get_user_details saml_details countries session_post session_get).
#[local] Abbreviation exchange := (odata_exchange session_post session_get).

(** X22: when the configuration lacks a required variable,
    [get_user_details] returns the details of the SAML assertion and logs
    the warning of [missing_variables], whatever the transport would
    answer. *)
Theorem get_user_details_without_settings (conf : Conf)
    (attributes : gmap string (list string)) (log : list log_record)
    (details : gmap string (option string)) :
  ¬ complete conf →
  edx_details conf attributes = Ok details →
  ∃ missing,
    sap_details conf attributes log
    = (Ok (saml_assertion_details details), (log ++ [missing_warning missing])%list)
    ∧ missing ≠ [] ∧ missing ⊆ required_variables.
Proof.
  intros Hmiss Hd. unfold get_user_details. rewrite Hd. unfold missing_variables.
  destruct (forallb (in_conf conf) required_variables) eqn:Hall.
  { by apply complete_forallb in Hall. }
  cbn [negb].
  destruct (List.filter (λ var, negb (in_conf conf var)) required_variables)
    as [|var missing] eqn:Hf.
  - exfalso. apply not_true_iff_false in Hall. apply Hall, forallb_forall.
    intros var Hin. destruct (in_conf conf var) eqn:Hv; [done|].
    assert (In var (List.filter (λ var, negb (in_conf conf var)) required_variables)) as Hin'
      by (apply filter_In; by rewrite Hv).
    by rewrite Hf in Hin'.
  - exists (var :: missing). split; [done|]. split; [done|].
    intros v Hv. rewrite <-Hf in Hv. by apply list_elem_of_In, filter_In in Hv as [?%list_elem_of_In _].
Qed.

Lemma raise_for_status_Raise r e :
  raise_for_status r = Raise e →
  e = RequestException (mkRequestError (http_error_msg r) (Some r))
  ∧ is_error_status r = true.
Proof. unfold raise_for_status. destruct (is_error_status r); [by intros [= <-]|done]. Qed.

Lemma system_message_error_status err :
  (∀ r, exc_response err = Some r → is_error_status r = true) →
  system_message err = Ok (ArgStr "Not available").
Proof.
  intros H. unfold system_message, response_truthy.
  destruct (exc_response err) as [r|]; [|done]. by rewrite (H r eq_refl).
Qed.

(** X23: with a complete configuration, when the exchange with SAP
    SuccessFactors ends with a RequestException that carries no response, or
    a response with an error status (as [raise_for_status] raises it),
    [get_user_details] returns the details of the SAML assertion and logs one
    warning, whose system message is ['Not available']: the body of an error
    response is not read. *)
Theorem get_user_details_falls_back_on_http_error (conf : Conf)
    (attributes : gmap string (list string)) (log : list log_record)
    (details : gmap string (option string)) :
  complete conf →
  edx_details conf attributes = Ok details →
  ∃ username odata_api_url,
    details !! "username" = Some username
    ∧ ∀ err,
        exchange conf username odata_api_url = Raise (RequestException err) →
        (∀ r, exc_response err = Some r → is_error_status r = true) →
        ∃ record,
          sap_details conf attributes log
          = (Ok (saml_assertion_details details), (log ++ [record])%list)
          ∧ log_lvl record = WARNING
          ∧ last (log_args record) = Some (ArgStr "Not available").
Proof.
  intros Hc Hd.
  destruct (get_user_details_complete saml_details countries session_post session_get
              conf attributes log details Hc Hd) as (username & url & Hu & Heq).
  exists username, url. split; [done|]. intros err Hex Herr.
  rewrite Heq, Hex. unfold log_request_error.
  rewrite (system_message_error_status err Herr), bind_Ok.
  destruct (Hc "odata_company_id") as [company Hcompany].
  { unfold required_variables. set_solver. }
  unfold odata_company_id, getitem. rewrite Hcompany, bind_Ok.
  eexists. split; [reflexivity|]. split; reflexivity.
Qed.

(** X24: [get_user_details] handles RequestException only: with a complete
    configuration, any other exception of the exchange, such as the KeyError
    for a token answer without ['access_token'], is raised by
    [get_user_details] unchanged, and nothing is logged. *)
Theorem get_user_details_propagates_other_exceptions (conf : Conf)
    (attributes : gmap string (list string)) (log : list log_record)
    (details : gmap string (option string)) :
  complete conf →
  edx_details conf attributes = Ok details →
  ∃ username odata_api_url,
    details !! "username" = Some username
    ∧ ∀ e,
        exchange conf username odata_api_url = Raise e →
        (∀ err, e ≠ RequestException err) →
        sap_details conf attributes log = (Raise e, log).
Proof.
  intros Hc Hd.
  destruct (get_user_details_complete saml_details countries session_post session_get
              conf attributes log details Hc Hd) as (username & url & Hu & Heq).
  exists username, url. split; [done|]. intros e Hex Hne.
  rewrite Heq, Hex. destruct e; try done. exfalso. by eapply Hne.
Qed.

End Transport.

(** *** [value_mappings] *)

(** X25: [value_mappings] succeeds exactly when the configured overrides
    have no field ['United States'] and every overridden field other than
    ['country'] is a key of its own override. Then the override of
    ['country'] is merged into the map of country codes, its pairs first;
    another overridden field is bound to [override[field]]; and the fields
    that are not overridden keep their default. *)
Theorem value_mappings_succeeds_iff (conf : Conf) :
  let overrides := default ∅ (sapsf_value_mappings conf) in
  let mergeable :=
    overrides !! "United States" = None
    ∧ ∀ f o, overrides !! f = Some o → f ≠ "country" → is_Some (o !! f) in
  ((∃ mappings, value_mappings countries conf = Ok mappings) ↔ mergeable)
  ∧ ∀ mappings, value_mappings countries conf = Ok mappings →
      ∀ f, mappings !! f =
        match overrides !! f with
        | Some o =>
            if decide (f = "country") then Some (JDict (o ∪ country_codes countries))
            else o !! f
        | None => default_value_mapping countries !! f
        end.
Proof.
  intros overrides mergeable.
  assert (Hraise : ∀ f o e, overrides !! f = Some o →
            override_field (default_value_mapping countries) f o = Raise e →
            ∃ e', value_mappings countries conf = Raise e').
  { intros f o e Hf He. unfold value_mappings. fold overrides.
    apply (for_each_override_Raise _ _ f o e); [apply NoDup_fst_map_to_list| |done].
    by apply elem_of_map_to_list. }
  assert (Hiff : (∃ mappings, value_mappings countries conf = Ok mappings) → mergeable).
  { intros [mappings Hm]. split.
    - destruct (overrides !! "United States") as [o|] eqn:Hus; [|done].
      destruct (Hraise "United States" o (AttributeError "update") Hus) as [e He].
      + unfold override_field. by rewrite default_value_mapping_lookup.
      + congruence.
    - intros f o Hf Hc. destruct (o !! f) as [v|] eqn:Hv; [by eexists|].
      destruct (decide (f = "United States")) as [->|Hus].
      + destruct (Hraise "United States" o (AttributeError "update") Hf) as [e He].
        * unfold override_field. by rewrite default_value_mapping_lookup.
        * congruence.
      + destruct (Hraise f o (KeyError f) Hf) as [e He]; [|congruence].
        unfold override_field. rewrite default_value_mapping_lookup.
        rewrite decide_False, decide_False by done. unfold getitem. by rewrite Hv. }
  split; [split; [done|]|].
  - intros [Hus Hown].
    destruct (value_mappings_merges countries conf Hus Hown) as (mappings & Hm & _).
    by exists mappings.
  - intros mappings Hm. destruct (Hiff (ex_intro _ mappings Hm)) as [Hus Hown].
    destruct (value_mappings_merges countries conf Hus Hown) as (mappings' & Hm' & Hlook).
    rewrite Hm in Hm'. by injection Hm' as <-.
Qed.

End Provider.

(** A configuration without any of the required variables. *)
Definition bare_conf : Conf := mkConf ∅ None None None None.

Lemma get_user_details_without_settings_witness :
  ∃ missing,
    get_user_details jdoe_details [] redirecting_post unused_get bare_conf ∅ []
    = (Ok (saml_assertion_details (details_dict (jdoe_details bare_conf ∅))),
       [missing_warning missing])
    ∧ missing ≠ [] ∧ missing ⊆ required_variables.
Proof.
  apply (get_user_details_without_settings jdoe_details [] redirecting_post unused_get
           bare_conf ∅ []).
  - intros Hc. destruct (Hc "sapsf_oauth_root_url") as [v Hv]; [left|].
    vm_compute in Hv. discriminate Hv.
  - vm_compute. reflexivity.
Defined.

Lemma redirect_conf_complete : complete redirect_conf.
Proof.
  intros var Hvar. unfold required_variables in Hvar.
  repeat (apply elem_of_cons in Hvar as [->|Hvar]); [by eexists..|].
  by apply elem_of_nil in Hvar.
Qed.

(** A transport whose every answer has the status 500. *)
Definition failing_post (url : string) (data : list (string * option string))
    (timeout : Z) : result Response :=
  Ok (mkResponse 500 "Internal Server Error" url "" None).

Lemma get_user_details_falls_back_on_http_error_witness :
  ∃ record,
    get_user_details jdoe_details [] failing_post unused_get redirect_conf ∅ []
    = (Ok (saml_assertion_details (details_dict (jdoe_details redirect_conf ∅))), [record])
    ∧ log_lvl record = WARNING
    ∧ last (log_args record) = Some (ArgStr "Not available").
Proof.
  destruct (get_user_details_falls_back_on_http_error jdoe_details [] failing_post unused_get
              redirect_conf ∅ [] (details_dict (jdoe_details redirect_conf ∅))
              redirect_conf_complete)
    as (username & url & _ & Hfall); [vm_compute; reflexivity|].
  eapply Hfall.
  - reflexivity.
  - intros r [= <-]. reflexivity.
Defined.

(** A transport whose answers are accepted, with a JSON body that has no
    ['access_token']. *)
Definition tokenless_post (url : string) (data : list (string * option string))
    (timeout : Z) : result Response :=
  Ok (mkResponse 200 "OK" url "assertion" (Some ∅)).

Lemma get_user_details_propagates_other_exceptions_witness :
  get_user_details jdoe_details [] tokenless_post unused_get redirect_conf ∅ []
  = (Raise (KeyError "access_token"), []).
Proof.
  destruct (get_user_details_propagates_other_exceptions jdoe_details [] tokenless_post
              unused_get redirect_conf ∅ [] (details_dict (jdoe_details redirect_conf ∅))
              redirect_conf_complete)
    as (username & url & _ & Hraise); [vm_compute; reflexivity|].
  apply (Hraise (KeyError "access_token")).
  - reflexivity.
  - intros err. discriminate.
Defined.

End SamlProviderSpec.

Module SamlBackendSpec.
Import Saml SamlBackend.

Section Entitlements.
Variable OID : string.

(** The warning for the missing entitlement [expected]. *)
Definition rejection (idp : Provider) (expected : string) : log_record :=
  LogRecord WARNING "SAML user from IdP %s rejected due to missing eduPersonEntitlement %s"
    [ArgStr (provider_name idp); ArgStr expected].

Lemma check_each_spec idp entitlements required log :
  match check_each idp entitlements required log with
  | (inr _, log') => Forall (λ expected, expected ∈ entitlements) required ∧ log' = log
  | (inl e, log') =>
      e = AuthForbidden
      ∧ ∃ before expected after,
          required = (before ++ (expected :: after))%list
          ∧ Forall (λ expected, expected ∈ entitlements) before
          ∧ (expected ∉ entitlements)
          ∧ log' = (log ++ [rejection idp expected])%list
  end.
Proof.
  induction required as [|expected required IH]; cbn [check_each].
  - split; [constructor|done].
  - destruct (bool_decide (expected ∈ entitlements)) eqn:Hin.
    + apply bool_decide_eq_true in Hin.
      destruct (check_each idp entitlements required log) as [[e|[]] log'].
      * destruct IH as (-> & before & missing & after & -> & Hb & Hm & ->).
        split; [done|]. exists (expected :: before), missing, after.
        split; [done|]. split; [by constructor|done].
      * destruct IH as [Hall ->]. split; [by constructor|done].
    + apply bool_decide_eq_false in Hin. split; [done|].
      exists [], expected, required. split; [done|]. split; [constructor|done].
Qed.

(** X26: [_check_entitlements] lets the login go on, and logs nothing, when
    the provider requires no entitlement or when the user's
    eduPersonEntitlement attribute has every required one (an absent
    attribute has none). Otherwise it raises AuthForbidden and logs one
    warning, for the first required entitlement that the user lacks. *)
Theorem check_entitlements_first_missing (idp : Provider)
    (attributes : gmap string (list string)) (log : list log_record) :
  let entitlements := default [] (attributes !! OID) in
  let required := default [] (requiredEntitlements idp) in
  match _check_entitlements OID idp attributes log with
  | (inr _, log') => Forall (λ expected, expected ∈ entitlements) required ∧ log' = log
  | (inl e, log') =>
      e = AuthForbidden
      ∧ ∃ before expected after,
          required = (before ++ (expected :: after))%list
          ∧ Forall (λ expected, expected ∈ entitlements) before
          ∧ (expected ∉ entitlements)
          ∧ log' = (log ++ [rejection idp expected])%list
  end.
Proof.
  intros entitlements required. unfold _check_entitlements. subst required.
  destruct (requiredEntitlements idp) as [required|]; cbn [default].
  - apply check_each_spec.
  - split; [constructor|done].
Qed.

End Entitlements.

(** X27: the identifiers that [get_saml_idp_choices] offers are exactly
    those that [get_saml_idp_class] accepts without logging an error; for
    any other identifier it logs one error and falls back on
    [EdXSAMLIdentityProvider]. *)
Theorem get_saml_idp_class_accepts_choices (idp_identifier_string : string)
    (log : list log_record) :
  if decide (idp_identifier_string ∈ get_saml_idp_choices.*1) then
    (get_saml_idp_class idp_identifier_string log).2 = log
  else
    get_saml_idp_class idp_identifier_string log
    = (EdXSAMLIdentityProvider,
       (log ++ [LogRecord ERROR
                  "%s is not a valid EdXSAMLIdentityProvider subclass; using EdXSAMLIdentityProvider base class."
                  [ArgStr idp_identifier_string]])%list).
Proof.
  unfold get_saml_idp_class, get_saml_idp_choices, get. cbn [fmap list_fmap fst].
  destruct (decide (idp_identifier_string = SAP_SUCCESSFACTORS_SAML_KEY)) as [->|Hsap].
  { rewrite decide_True by (right; left). reflexivity. }
  destruct (decide (idp_identifier_string = STANDARD_SAML_PROVIDER_KEY)) as [->|Hstd].
  { rewrite decide_True by left. reflexivity. }
  rewrite decide_False.
  - rewrite !lookup_insert_ne, lookup_empty by done. cbn.
    done.
  - intros [?|[?|?%elem_of_nil]%elem_of_cons]%elem_of_cons; done.
Qed.

End SamlBackendSpec.
